(** * City-Memories soundscape: the streaming audio core

    A shallow embedding of the audio codec ([utils/audio]), of the live
    playback engine ([LiveMusicHelper]) and of the plan renderer
    ([LongMusicGenerator]), with the properties their specification states.

    Conventions.
    - A JavaScript [number] that holds a time, a weight or a tempo is an
      exact rational ([Q]); the rounding of double arithmetic is not
      modelled.  Sample values are exact: a 16-bit integer over 32768 is a
      dyadic rational that a 32-bit float holds without rounding.
    - A typed array is a [list]; an indexed store is stdpp's [<[i:=x]>],
      which, like a typed array, ignores an index past the end; an indexed
      load is [!!], whose [None] is JavaScript's [undefined].
    - An exception is the [None] of an [option], or the [Throw] of the small
      monad of the renderer. *)

From Stdlib Require Import ZArith QArith Qround String Ascii Lia.
From Stdlib.Strings Require Import Byte.
From stdpp Require Import base option list strings gmap.

Local Open Scope nat_scope.

(** ** [types.ts] *)

Module Types.

Inductive PlaybackState := stopped | playing | loading | paused.

Record Prompt := {
  promptId : string;
  text : string;
  emotion : string;
  japaneseEmotion : string;
  weight : Q;
  cc : Z;
  color : string
}.

(** The wire form of a prompt, [{text, weight}]. *)
Record WeightedPrompt := { wp_text : string; wp_weight : Q }.

Record MusicStanzaConfig := {
  bpm : option Q;
  mute_bass : option bool;
  mute_drums : option bool;
  scale : option string;
  temperature : option Q
}.

Record MusicStanza := {
  prompts : list WeightedPrompt;
  seconds : Q;
  config : option MusicStanzaConfig
}.

Record MusicPlan := { title : string; stanzas : list MusicStanza }.

End Types.

(** ** The session protocol

    The shapes of [@google/genai] that the code reads or builds: a chunk
    carries base64 text, each part of a server message is optional, and a
    generation config has the five keys that the renderer may set. *)

Module Protocol.

Record AudioChunk := { data : option string }.

Record LiveMusicServerMessage := {
  setupComplete : bool;
  filteredPrompt : option string;
  audioChunks : option (list AudioChunk)
}.

Record LiveMusicGenerationConfig := {
  cfg_bpm : option Q;
  cfg_temperature : option Q;
  cfg_scale : option string;
  muteBass : option bool;
  muteDrums : option bool
}.

End Protocol.

(** ** The PCM codec *)

Module Audio.

(** *** [atob]: the platform's forgiving base64 decoder

    [decode] calls the browser's [atob].  It is written out here after the
    WHATWG "forgiving-base64 decode" algorithm so that a chunk can be
    evaluated from its wire text: white space is dropped, up to two padding
    signs are removed from a text whose length is a multiple of four, a
    length of 1 modulo 4 or a letter outside the alphabet is an error, and
    the bits that do not fill a byte are discarded. *)

Definition is_ascii_whitespace (c : ascii) : bool :=
  match N_of_ascii c with
  | 9%N | 10%N | 12%N | 13%N | 32%N => true
  | _ => false
  end.

Definition sextet (c : ascii) : option N :=
  let n := N_of_ascii c in
  if ((65 <=? n) && (n <=? 90))%N then Some (n - 65)%N
  else if ((97 <=? n) && (n <=? 122))%N then Some (n - 71)%N
  else if ((48 <=? n) && (n <=? 57))%N then Some (n + 4)%N
  else if (n =? 43)%N then Some 62%N
  else if (n =? 47)%N then Some 63%N
  else None.

Definition strip_padding (l : list ascii) : list ascii :=
  if Nat.eqb (length l mod 4) 0 then
    match rev l with
    | "="%char :: "="%char :: r => rev r
    | "="%char :: r => rev r
    | _ => l
    end
  else l.

Fixpoint sextets (l : list ascii) : option (list N) :=
  match l with
  | [] => Some []
  | c :: r =>
      match sextet c, sextets r with
      | Some s, Some ss => Some (s :: ss)
      | _, _ => None
      end
  end.

Fixpoint octets (l : list N) : list N :=
  match l with
  | a :: b :: c :: d :: r =>
      let w := (((a * 64 + b) * 64 + c) * 64 + d)%N in
      (w / 65536)%N :: ((w / 256) mod 256)%N :: (w mod 256)%N :: octets r
  | [a; b; c] =>
      let w := ((((a * 64 + b) * 64 + c)) / 4)%N in
      [(w / 256)%N; (w mod 256)%N]
  | [a; b] => [((a * 64 + b) / 16)%N]
  | _ => []
  end.

Definition atob (base64 : string) : option string :=
  let l := strip_padding
             (filter (fun c => is_ascii_whitespace c = false)
                     (list_ascii_of_string base64)) in
  if Nat.eqb (length l mod 4) 1 then None
  else ss ← sextets l;
       Some (string_of_list_ascii (map ascii_of_N (octets ss))).

(** *** [decode] *)

(** A [Uint8Array]. *)
Definition Uint8Array := list byte.

(** [decode(base64)]: the char codes of the binary string that [atob]
    returns, one byte each. *)
Definition decode (base64 : string) : option Uint8Array :=
  binaryString ← atob base64;
  Some (map byte_of_ascii (list_ascii_of_string binaryString)).

(** *** [Int16Array] over a byte buffer *)

(** The signed 16-bit integer whose low byte is [lo] and high byte is [hi]
    (typed arrays have the byte order of the platform, little-endian on
    every platform a browser runs on). *)
Definition int16_of_bytes (lo hi : byte) : Z :=
  let u := (Z.of_N (Byte.to_N lo) + 256 * Z.of_N (Byte.to_N hi))%Z in
  if (u <? 32768)%Z then u else (u - 65536)%Z.

Fixpoint int16_elements (buffer : list byte) : list Z :=
  match buffer with
  | lo :: hi :: rest => int16_of_bytes lo hi :: int16_elements rest
  | _ => []
  end.

(** [new Int16Array(data.buffer)]: a [RangeError] unless the byte length is
    a multiple of two. *)
Definition Int16Array (buffer : list byte) : option (list Z) :=
  if Nat.even (length buffer) then Some (int16_elements buffer) else None.

(** *** The audio context and its buffers *)

(** An element of a [Float32Array]. *)
Inductive f32 :=
  | Fin (q : Q)
  | NaN.

(** The part of an [AudioContext] the engine reads: its clock, and the
    ranges of channel count and sample rate that its [createBuffer]
    accepts (the Web Audio API leaves them to the implementation, at least
    1..32 channels and 8000..96000 Hz). *)
Record AudioContext := {
  currentTime : Q;
  maxChannels : nat;
  minSampleRate : Z;
  maxSampleRate : Z
}.

Record AudioBuffer := {
  numberOfChannels : nat;
  buf_length : nat;
  buf_sampleRate : Z;
  channels : list (list f32)
}.

(** [buffer.duration], in seconds. *)
Definition duration (b : AudioBuffer) : Q :=
  inject_Z (Z.of_nat (buf_length b)) / inject_Z (buf_sampleRate b).

(** The conversion of a non-negative number to WebIDL's [unsigned long]:
    the integer part, modulo 2^32. *)
Definition toUint32 (x : Q) : Z := (Qfloor x mod 2 ^ 32)%Z.

(** [ctx.createBuffer(numberOfChannels, length, sampleRate)]: a
    [NotSupportedError] when an argument is zero or outside its range;
    otherwise a buffer of silence. *)
Definition createBuffer (ctx : AudioContext) (numberOfChannels : nat)
    (length : Q) (sampleRate : Z) : option AudioBuffer :=
  let frames := Z.to_nat (toUint32 length) in
  if Nat.eqb numberOfChannels 0 || Nat.ltb (maxChannels ctx) numberOfChannels
     || Nat.eqb frames 0
     || (sampleRate <? minSampleRate ctx)%Z
     || (maxSampleRate ctx <? sampleRate)%Z
  then None
  else Some {| numberOfChannels := numberOfChannels;
               buf_length := frames;
               buf_sampleRate := sampleRate;
               channels := replicate numberOfChannels
                                     (replicate frames (Fin 0)) |}.

(** [buffer.getChannelData(channel)], and the store of the array it returns
    back into the buffer (the array is a view of the buffer's memory). *)
Definition getChannelData (b : AudioBuffer) (channel : nat) : list f32 :=
  default [] (channels b !! channel).

Definition setChannelData (b : AudioBuffer) (channel : nat)
    (channelData : list f32) : AudioBuffer :=
  {| numberOfChannels := numberOfChannels b;
     buf_length := buf_length b;
     buf_sampleRate := buf_sampleRate b;
     channels := <[channel := channelData]> (channels b) |}.

(** *** [decodeAudioData] *)

(** [for (let i = 0; i < bound; i++) body]: the indices a loop with a
    fractional bound runs through. *)
Definition indices_below (bound : Q) : list nat :=
  seq 0 (Z.to_nat (Qceiling bound)).

(** [x / 32768.0], where [x] is an element of an [Int16Array] or
    [undefined]. *)
Definition normalize (x : option Z) : f32 :=
  match x with
  | Some s => Fin (inject_Z s / 32768)
  | None => NaN
  end.

(** [frameCount] is [data.length / 2 / numChannels], a number and not an
    integer.  (For [numChannels = 0] JavaScript yields [Infinity] or [NaN]
    where [Q] yields 0; [createBuffer] rejects the call in both.) *)
Definition frameCount (data : Uint8Array) (numChannels : nat) : Q :=
  inject_Z (Z.of_nat (length data)) / 2 / inject_Z (Z.of_nat numChannels).

Definition decodeAudioData (data : Uint8Array) (ctx : AudioContext)
    (sampleRate : Z) (numChannels : nat) : option AudioBuffer :=
  let frameCount := frameCount data numChannels in
  buffer ← createBuffer ctx numChannels frameCount sampleRate;
  dataInt16 ← Int16Array data;
  Some (foldl (fun buffer channel =>
                 setChannelData buffer channel
                   (foldl (fun channelData i =>
                             <[i := normalize
                                      (dataInt16 !! (i * numChannels + channel))]>
                               channelData)
                          (getChannelData buffer channel)
                          (indices_below frameCount)))
              buffer (seq 0 numChannels)).

(** The context the engine and the renderer create:
    [new AudioContext({ sampleRate: 48000 })], at time [now]. *)
Definition audioContext (now : Q) : AudioContext :=
  {| currentTime := now; maxChannels := 32;
     minSampleRate := 8000; maxSampleRate := 96000 |}.

End Audio.

(** ** The live playback engine: [LiveMusicHelper] *)

Module LiveMusicHelper.
Import Types Protocol Audio.
Local Open Scope Q_scope.

(** The detail of an ['error'] event. *)
Inductive ErrorDetail :=
  | NoActivePrompt          (* 'There needs to be one active prompt to play.' *)
  | Message (m : string)    (* the message of a caught exception *)
  | PlayFailed              (* the default text of [play]'s handler *)
  | SocketError (m : option string)
  | SocketClosed (code_reason : option (Z * string))
  | NullSession             (* the message of the [TypeError] that a call on
                               [null] throws; its text is the engine's *).

Inductive Event :=
  | playback_state_changed (state : PlaybackState)
  | filtered_prompt (text : string)
  | error (detail : ErrorDetail).

(** What a method does to the world outside the object, in program order.
    A session is named by the number of its connection, a gain node by the
    number of its creation. *)
Inductive Effect :=
  | dispatchEvent (e : Event)
  | connect (conn : nat)
  | session_setWeightedPrompts (conn : nat) (weightedPrompts : list WeightedPrompt)
  | session_play (conn : nat)
  | session_pause (conn : nat)
  | session_stop (conn : nat)
  | audioContext_resume
  | createGain (node : nat)
  | connect_destination (node : nat)
  | connect_extra (node : nat)
  | gain_setValueAtTime (node : nat) (value time : Q)
  | gain_linearRampToValueAtTime (node : nat) (value time : Q)
  | source_start (node : nat) (buffer : AudioBuffer) (when : Q)
  | setTimeout_playing (delay_ms : Q).

(** The fields of the class.  [nextStartTime = 0] is the unset cursor. *)
Record Helper := {
  session : option nat;
  sessionPromise : option nat;
  connectionError : bool;
  filteredPrompts : gset string;
  nextStartTime : Q;
  extraDestination : bool;
  outputNode : nat;
  playbackState : PlaybackState;
  prompts : list (string * Prompt)
}.

(** The object in its runtime: the callbacks that [setTimeout] has armed
    and that have not run yet (the code never cancels one), and the gain
    nodes and connections made so far. *)
Record Machine := {
  this : Helper;
  timers : nat;
  nodes : nat;
  connections : nat
}.

Definition with_this (f : Helper -> Helper) (m : Machine) : Machine :=
  {| this := f (this m); timers := timers m; nodes := nodes m;
     connections := connections m |}.

Definition set_session (v : option nat) (h : Helper) : Helper :=
  {| session := v; sessionPromise := sessionPromise h;
     connectionError := connectionError h;
     filteredPrompts := filteredPrompts h; nextStartTime := nextStartTime h;
     extraDestination := extraDestination h;
     outputNode := outputNode h; playbackState := playbackState h;
     prompts := prompts h |}.

Definition set_sessionPromise (v : option nat) (h : Helper) : Helper :=
  {| session := session h; sessionPromise := v;
     connectionError := connectionError h;
     filteredPrompts := filteredPrompts h; nextStartTime := nextStartTime h;
     extraDestination := extraDestination h;
     outputNode := outputNode h; playbackState := playbackState h;
     prompts := prompts h |}.

Definition set_connectionError (v : bool) (h : Helper) : Helper :=
  {| session := session h; sessionPromise := sessionPromise h;
     connectionError := v;
     filteredPrompts := filteredPrompts h; nextStartTime := nextStartTime h;
     extraDestination := extraDestination h;
     outputNode := outputNode h; playbackState := playbackState h;
     prompts := prompts h |}.

Definition set_filteredPrompts (v : gset string) (h : Helper) : Helper :=
  {| session := session h; sessionPromise := sessionPromise h;
     connectionError := connectionError h;
     filteredPrompts := v; nextStartTime := nextStartTime h;
     extraDestination := extraDestination h;
     outputNode := outputNode h; playbackState := playbackState h;
     prompts := prompts h |}.

Definition set_nextStartTime (v : Q) (h : Helper) : Helper :=
  {| session := session h; sessionPromise := sessionPromise h;
     connectionError := connectionError h;
     filteredPrompts := filteredPrompts h; nextStartTime := v;
     extraDestination := extraDestination h;
     outputNode := outputNode h; playbackState := playbackState h;
     prompts := prompts h |}.

Definition set_outputNode (v : nat) (h : Helper) : Helper :=
  {| session := session h; sessionPromise := sessionPromise h;
     connectionError := connectionError h;
     filteredPrompts := filteredPrompts h; nextStartTime := nextStartTime h;
     extraDestination := extraDestination h;
     outputNode := v; playbackState := playbackState h;
     prompts := prompts h |}.

Definition set_playbackState (v : PlaybackState) (h : Helper) : Helper :=
  {| session := session h; sessionPromise := sessionPromise h;
     connectionError := connectionError h;
     filteredPrompts := filteredPrompts h; nextStartTime := nextStartTime h;
     extraDestination := extraDestination h;
     outputNode := outputNode h; playbackState := v;
     prompts := prompts h |}.

Definition set_prompts (v : list (string * Prompt)) (h : Helper) : Helper :=
  {| session := session h; sessionPromise := sessionPromise h;
     connectionError := connectionError h;
     filteredPrompts := filteredPrompts h; nextStartTime := nextStartTime h;
     extraDestination := extraDestination h;
     outputNode := outputNode h; playbackState := playbackState h;
     prompts := v |}.

(** [private bufferTime = 2]: the buffer horizon, in seconds; it is never
    assigned again. *)
Definition bufferTime : Q := 2.

(** The constructor: one gain node is created, nothing is connected. *)
Definition new : Machine :=
  {| this := {| session := None; sessionPromise := None;
                connectionError := true; filteredPrompts := ∅;
                nextStartTime := 0;
                extraDestination := false; outputNode := 0;
                playbackState := stopped; prompts := [] |};
     timers := 0; nodes := 1; connections := 0 |}.

(** A method returns the machine it leaves and the effects it had. *)
Definition Outcome : Type := Machine * list Effect.

(** [m >> f] runs [f] after an outcome and appends its effects. *)
Definition andThen (o : Outcome) (f : Machine -> Outcome) : Outcome :=
  (fst (f (fst o)), snd o ++ snd (f (fst o))).
Notation "o >> f" := (andThen o f) (at level 50, left associativity).

Definition assign (f : Helper -> Helper) (m : Machine) : Outcome :=
  (with_this f m, []).

Definition emit (e : list Effect) (m : Machine) : Outcome := (m, e).

Definition setPlaybackState (state : PlaybackState) (m : Machine) : Outcome :=
  (with_this (set_playbackState state) m,
   [dispatchEvent (playback_state_changed state)]).

(** [getSession], with [connect] inlined: a connection is opened only when
    no promise is held. *)
Definition getSession (m : Machine) : Outcome :=
  match sessionPromise (this m) with
  | Some _ => (m, [])
  | None =>
      ({| this := set_sessionPromise (Some (connections m)) (this m);
          timers := timers m; nodes := nodes m;
          connections := S (connections m) |},
       [connect (connections m)])
  end.

(** The body of the timer that [processAudioChunks] arms. *)
Definition timer_fires (m : Machine) : Outcome :=
  setPlaybackState playing
    {| this := this m; timers := pred (timers m); nodes := nodes m;
       connections := connections m |}.

Definition arm_timer (m : Machine) : Outcome :=
  ({| this := this m; timers := S (timers m); nodes := nodes m;
      connections := connections m |},
   [setTimeout_playing (bufferTime * 1000)]).

(** [processAudioChunks].  Only [audioChunks[0]] is read.  An exception (an
    empty batch, text that is not base64, bytes that [decodeAudioData]
    rejects) is [None]; it is raised before the object is changed.  The
    [await] on [decodeAudioData] resumes before any other callback runs, so
    the method is one step. *)
Definition processAudioChunks (ctx : AudioContext)
    (audioChunks : list AudioChunk) (m : Machine) : option Outcome :=
  match playbackState (this m) with
  | paused | stopped => Some (m, [])
  | _ =>
      chunk ← audioChunks !! 0%nat;
      bytes ← decode (default "undefined"%string (data chunk));
      audioBuffer ← decodeAudioData bytes ctx 48000 2;
      let source_node := outputNode (this m) in
      let o :=
        if Qeq_bool (nextStartTime (this m)) 0 then
          assign (set_nextStartTime (currentTime ctx + bufferTime)) m
          >> arm_timer
        else (m, []) in
      if Qlt_le_dec (nextStartTime (this (fst o))) (currentTime ctx) then
        Some (o >> setPlaybackState loading >> assign (set_nextStartTime 0))
      else
        Some (o >> (fun m =>
                 emit [source_start source_node audioBuffer
                                    (nextStartTime (this m))] m)
                >> (fun m =>
                 assign (set_nextStartTime
                           (nextStartTime (this m) + duration audioBuffer)) m))
  end.

(** [get activePrompts] *)
Definition activePrompts (h : Helper) : list Prompt :=
  filter (fun p => negb (bool_decide (text p ∈ filteredPrompts h))
                   && negb (Qeq_bool (weight p) 0) = true)
         (prompts h).*2.

(** [pause] *)
Definition pause (ctx : AudioContext) (m : Machine) : Outcome :=
  (match session (this m) with
   | Some s => emit [session_pause s] m
   | None => (m, [])
   end)
  >> setPlaybackState paused
  >> (fun m => emit [gain_setValueAtTime (outputNode (this m)) 1 (currentTime ctx);
                     gain_linearRampToValueAtTime (outputNode (this m)) 0
                       (currentTime ctx + (1 # 10))] m)
  >> assign (set_nextStartTime 0)
  >> (fun m => ({| this := set_outputNode (nodes m) (this m);
                   timers := timers m; nodes := S (nodes m);
                   connections := connections m |},
                [createGain (nodes m)])).

(** [stop] *)
Definition stop (ctx : AudioContext) (m : Machine) : Outcome :=
  (match session (this m) with
   | Some s => emit [session_stop s] m
   | None => (m, [])
   end)
  >> setPlaybackState stopped
  >> (fun m => emit [gain_setValueAtTime (outputNode (this m)) 0 (currentTime ctx);
                     gain_linearRampToValueAtTime (outputNode (this m)) 1
                       (currentTime ctx + (1 # 10))] m)
  >> assign (set_nextStartTime 0)
  >> assign (set_session None)
  >> assign (set_sessionPromise None).

(** The function that [setWeightedPrompts] wraps in [throttle(..., 200)].
    The throttle ([utils/throttle], not among the sources) decides when the
    function runs and with which of the snapshots passed to it; this is one
    run.  [reply] is what the session answers to the send: [None] when it
    accepts, the message of the exception when it throws. *)
Definition setWeightedPrompts (ctx : AudioContext)
    (prompts : list (string * Prompt)) (reply : option string)
    (m : Machine) : Outcome :=
  let o := assign (set_prompts prompts) m in
  if Nat.eqb (length (activePrompts (this (fst o)))) 0 then
    o >> emit [dispatchEvent (error NoActivePrompt)] >> pause ctx
  else
    match session (this (fst o)) with
    | None => o
    | Some s =>
        let weightedPrompts :=
          map (fun p => {| wp_text := text p; wp_weight := weight p |})
              (activePrompts (this (fst o))) in
        let o := o >> emit [session_setWeightedPrompts s weightedPrompts] in
        match reply with
        | None => o
        | Some e => o >> emit [dispatchEvent (error (Message e))] >> pause ctx
        end
    end.

(** [play], cut at its [await]s.  [play_called] runs to the first one. *)
Definition play_called (m : Machine) : Outcome :=
  setPlaybackState loading m >> getSession.

(** The promise has resolved to the session [conn], which is assigned, and
    [this.setWeightedPrompts(this.prompts)] is called.  That is the
    throttle's wrapper, which is not among the sources: at this call it
    either runs the function at once ([play_connected]) or holds the call
    back ([play_connected_held]); a run that it starts later is a step of
    its own. *)
Definition play_connected (ctx : AudioContext) (conn : nat)
    (reply : option string) (m : Machine) : Outcome :=
  assign (set_session (Some conn)) m
  >> (fun m => setWeightedPrompts ctx (prompts (this m)) reply m).

Definition play_connected_held (conn : nat) (m : Machine) : Outcome :=
  assign (set_session (Some conn)) m.

(** What the wrapper returned has settled: [this.audioContext.resume()] is
    called. *)
Definition play_prompts_set (m : Machine) : Outcome :=
  emit [audioContext_resume] m.

(** The handler of [play]'s [try]. *)
Definition play_failed (message : option string) (m : Machine) : Outcome :=
  setPlaybackState stopped m
  >> emit [dispatchEvent (error (match message with
                                 | Some e => Message e
                                 | None => PlayFailed
                                 end))].

(** [audioContext.resume()] has settled: [this.session.play()] and the
    lines after it.  When the session has been discarded meanwhile, the call
    on [null] throws a [TypeError], which the handler of the [try] catches;
    its message is the detail of the event. *)
Definition play_resumed (ctx : AudioContext) (m : Machine) : Outcome :=
  match session (this m) with
  | None =>
      setPlaybackState stopped m >> emit [dispatchEvent (error NullSession)]
  | Some s =>
      emit ([session_play s;
             connect_destination (outputNode (this m))]
            ++ (if extraDestination (this m)
                then [connect_extra (outputNode (this m))] else [])
            ++ [gain_setValueAtTime (outputNode (this m)) 0 (currentTime ctx);
                gain_linearRampToValueAtTime (outputNode (this m)) 1
                  (currentTime ctx + (1 # 10))]) m
  end.

(** [playPause], to the first [await] of the [play] it may start. *)
Definition playPause (ctx : AudioContext) (m : Machine) : Outcome :=
  match playbackState (this m) with
  | playing => pause ctx m
  | paused | stopped => play_called m
  | loading => stop ctx m
  end.

(** The callbacks given to [connect]. *)
Definition onmessage (ctx : AudioContext) (e : LiveMusicServerMessage)
    (m : Machine) : option Outcome :=
  let o :=
    (if setupComplete e then assign (set_connectionError false) m else (m, []))
    >> (fun m => match filteredPrompt e with
                 | Some t =>
                     assign (set_filteredPrompts (filteredPrompts (this m) ∪ {[t]})) m
                     >> emit [dispatchEvent (filtered_prompt t)]
                 | None => (m, [])
                 end) in
  match audioChunks e with
  | None => Some o
  | Some chunks =>
      o' ← processAudioChunks ctx chunks (fst o);
      Some (fst o', snd o ++ snd o')
  end.

Definition onerror (ctx : AudioContext) (message : option string)
    (m : Machine) : Outcome :=
  assign (set_connectionError true) m >> stop ctx
  >> emit [dispatchEvent (error (SocketError message))].

Definition onclose (ctx : AudioContext) (event : option (Z * string))
    (m : Machine) : Outcome :=
  assign (set_connectionError true) m >> stop ctx
  >> emit [dispatchEvent (error (SocketClosed event))].

End LiveMusicHelper.

(** ** The plan renderer: [LongMusicGenerator] *)

Module LongMusicGenerator.
Import Types Protocol Audio.

(** The fields of the class. *)
Record Generator := {
  audioData : list Uint8Array;
  session : option nat;
  isGenerating : bool
}.

Definition new : Generator :=
  {| audioData := []; session := None; isGenerating := false |}.

Definition set_audioData (v : list Uint8Array) (g : Generator) : Generator :=
  {| audioData := v; session := session g; isGenerating := isGenerating g |}.

Definition set_session (v : option nat) (g : Generator) : Generator :=
  {| audioData := audioData g; session := v; isGenerating := isGenerating g |}.

Definition set_isGenerating (v : bool) (g : Generator) : Generator :=
  {| audioData := audioData g; session := session g; isGenerating := v |}.

(** What is thrown: the busy error of [generateMusic], the rejection of an
    awaited call (with the message of its error, if it has one), the
    [TypeError] of a call on [this.session] when it is [null], and the
    [RangeError] of a typed array. *)
Inductive Error :=
  | busy
  | rejected (message : option string)
  | type_error
  | range_error.

Inductive Result (A : Type) :=
  | Ok (a : A)
  | Throw (e : Error).
Arguments Ok {A} a.
Arguments Throw {A} e.

(** What the renderer does to the world outside it, in program order: the
    connection, the commands to the session, the events, the waits. *)
Inductive Action :=
  | connect (conn : nat)
  | progress (current total : nat) (stanza : MusicStanza)
  | session_setWeightedPrompts (conn : nat) (weightedPrompts : list WeightedPrompt)
  | session_setMusicGenerationConfig (conn : nat) (cfg : LiveMusicGenerationConfig)
  | session_play (conn : nat)
  | session_pause (conn : nat)
  | session_stop (conn : nat)
  | sleep (ms : Q)
  | error_event (e : Error).

(** *** [processAudioChunks] and the callbacks *)

(** [if (chunk.data)]: the text is there and is not empty. *)
Definition truthy (s : option string) : bool :=
  match s with
  | Some EmptyString | None => false
  | Some _ => true
  end.

(** [processAudioChunks]: the decoded bytes of every chunk that has data
    are pushed, in order; text that is not base64 throws, and the rest of
    the batch is not looked at. *)
Fixpoint processAudioChunks (audioChunks : list AudioChunk) (g : Generator)
    : Result unit * Generator :=
  match audioChunks with
  | [] => (Ok tt, g)
  | chunk :: rest =>
      if truthy (data chunk) then
        match decode (default ""%string (data chunk)) with
        | Some audioBytes =>
            processAudioChunks rest
              (set_audioData (audioData g ++ [audioBytes]) g)
        | None => (Throw (rejected None), g)
        end
      else processAudioChunks rest g
  end.

(** [onmessage]; what it throws goes nowhere. *)
Definition onmessage (e : LiveMusicServerMessage) (g : Generator) : Generator :=
  match audioChunks e with
  | Some chunks => snd (processAudioChunks chunks g)
  | None => g
  end.

(** *** The file container *)

Record Blob := { blob_bytes : list byte; blob_type : string }.

(** The byte that a typed array or a [DataView] stores for a number: the
    number modulo 256. *)
Definition byte_of_Z (z : Z) : byte :=
  byte_of_ascii (ascii_of_N (Z.to_N (z mod 256))).

(** [view.setUint8(offset, value)], and the little-endian
    [setUint16(offset, value, true)] and [setUint32(offset, value, true)]:
    a [RangeError] when the bytes do not lie inside the view. *)
Definition setUint8 (offset : nat) (value : Z) (view : list byte)
    : option (list byte) :=
  if Nat.ltb offset (length view) then Some (<[offset := byte_of_Z value]> view)
  else None.

Definition setUint16 (offset : nat) (value : Z) (view : list byte)
    : option (list byte) :=
  if Nat.leb (offset + 2) (length view) then
    Some (<[offset + 1 := byte_of_Z (value / 256)]>
            (<[offset := byte_of_Z value]> view))
  else None.

Definition setUint32 (offset : nat) (value : Z) (view : list byte)
    : option (list byte) :=
  if Nat.leb (offset + 4) (length view) then
    Some (<[offset + 3 := byte_of_Z (value / 16777216)]>
            (<[offset + 2 := byte_of_Z (value / 65536)]>
               (<[offset + 1 := byte_of_Z (value / 256)]>
                  (<[offset := byte_of_Z value]> view))))
  else None.

(** [writeString(offset, string)] of [createWavFile]. *)
Fixpoint writeString (offset : nat) (s : string) (view : list byte)
    : option (list byte) :=
  match s with
  | EmptyString => Some view
  | String c rest =>
      view' ← setUint8 offset (Z.of_N (N_of_ascii c)) view;
      writeString (S offset) rest view'
  end.

(** [target.set(source, offset)] of a typed array: a [RangeError] when the
    source does not fit. *)
Fixpoint store_from (offset : nat) (source target : list byte) : list byte :=
  match source with
  | [] => target
  | x :: rest => store_from (S offset) rest (<[offset := x]> target)
  end.

Definition typed_set (source : list byte) (offset : nat) (target : list byte)
    : option (list byte) :=
  if Nat.leb (offset + length source) (length target)
  then Some (store_from offset source target)
  else None.

(** The numbers of [createWavFile] are doubles; [sampleRate] and
    [numChannels] are taken to be integers.  A product of integers is the
    double nearest to it, ties to even: itself below 2^53, and with 53
    significant bits above.  ([setUint16] and [setUint32] reduce modulo the
    width of the field, so that a product too large for a double, which is
    Infinity and stored as 0, is stored as the model stores it: 0.) *)
Definition to_double (z : Z) : Z :=
  let a := Z.abs z in
  if (a <? 2 ^ 53)%Z then z
  else
    let e := (Z.log2 a - 52)%Z in
    let q := (a / 2 ^ e)%Z in
    let r := (a mod 2 ^ e)%Z in
    let q' :=
      if (2 * r <? 2 ^ e)%Z then q
      else if (2 ^ e <? 2 * r)%Z then (q + 1)%Z
      else if Z.even q then q else (q + 1)%Z in
    (Z.sgn z * (q' * 2 ^ e))%Z.

Definition times (a b : Z) : Z := to_double (a * b).

(** [createWavFile(pcmData, sampleRate, numChannels)] *)
Definition createWavFile (pcmData : Uint8Array) (sampleRate numChannels : Z)
    : option Blob :=
  let length := length pcmData in
  let buffer := replicate (44 + length) "000"%byte in
  view ← writeString 0 "RIFF" buffer;
  view ← setUint32 4 (36 + Z.of_nat length) view;
  view ← writeString 8 "WAVE" view;
  view ← writeString 12 "fmt " view;
  view ← setUint32 16 16 view;
  view ← setUint16 20 1 view;
  view ← setUint16 22 numChannels view;
  view ← setUint32 24 sampleRate view;
  view ← setUint32 28 (times (times sampleRate numChannels) 2) view;
  view ← setUint16 32 (times numChannels 2) view;
  view ← setUint16 34 16 view;
  view ← writeString 36 "data" view;
  view ← setUint32 40 (Z.of_nat length) view;
  buffer ← typed_set pcmData 44 view;
  Some {| blob_bytes := buffer; blob_type := "audio/wav" |}.

(** The loop of [generateMusic] that joins the arrays of [audioData]. *)
Fixpoint combine_from (offset : nat) (arrays : list Uint8Array)
    (combined : list byte) : option (list byte) :=
  match arrays with
  | [] => Some combined
  | arr :: rest =>
      combined' ← typed_set arr offset combined;
      combine_from (offset + length arr) rest combined'
  end.

Definition combine (arrays : list Uint8Array) : option (list byte) :=
  let totalLength := foldl (fun sum arr => sum + length arr) 0 arrays in
  combine_from 0 arrays (replicate totalLength "000"%byte).

(** *** The renderer among its callbacks

    While the renderer waits ([await]), the connection delivers messages.
    A [Tick] is one wait: the messages that arrive in it and, for an
    awaited call, whether the call is rejected.  The script of a run lists
    the ticks in order; past its end nothing arrives and nothing fails. *)
Record Tick := {
  arrivals : list LiveMusicServerMessage;
  failure : option (option string)
}.

Record World := {
  script : list Tick;
  trace : list Action;
  connections : nat
}.

Definition State : Type := Generator * World.

Definition M (A : Type) : Type := State -> Result A * State.

Definition ret {A : Type} (a : A) : M A := fun s => (Ok a, s).

Definition throw {A : Type} (e : Error) : M A := fun s => (Throw e, s).

Definition bind {A B : Type} (m : M A) (f : A -> M B) : M B :=
  fun s => match m s with
           | (Ok a, s') => f a s'
           | (Throw e, s') => (Throw e, s')
           end.

Notation "x <- m ;; k" := (bind m (fun x => k))
  (at level 100, m at next level, right associativity).
Notation "m ;; k" := (bind m (fun _ => k))
  (at level 100, right associativity).

Definition try_catch {A : Type} (body : M A) (handler : Error -> M A) : M A :=
  fun s => match body s with
           | (Ok a, s') => (Ok a, s')
           | (Throw e, s') => handler e s'
           end.

Definition try_finally {A : Type} (body : M A) (finalizer : M unit) : M A :=
  fun s => match body s with
           | (r, s') =>
               match finalizer s' with
               | (Ok _, s'') => (r, s'')
               | (Throw e, s'') => (Throw e, s'')
               end
           end.

Definition update (f : Generator -> Generator) : M unit :=
  fun s => (Ok tt, (f (fst s), snd s)).

Definition log (a : Action) (w : World) : World :=
  {| script := script w; trace := trace w ++ [a]; connections := connections w |}.

(** [dispatchEvent] *)
Definition dispatch (a : Action) : M unit :=
  fun s => (Ok tt, (fst s, log a (snd s))).

(** The end of a wait: the tick is taken off the script and its messages
    are handled, in order. *)
Definition elapse (s : State) : option (option string) * State :=
  match script (snd s) with
  | [] => (None, s)
  | tick :: rest =>
      (failure tick,
       (foldl (fun g e => onmessage e g) (fst s) (arrivals tick),
        {| script := rest; trace := trace (snd s);
           connections := connections (snd s) |}))
  end.

(** [await this.sleep(ms)]: a timer does not fail. *)
Definition await_sleep (ms : Q) : M unit :=
  fun s => (Ok tt, snd (elapse (fst s, log (sleep ms) (snd s)))).

(** [await this.session.command(...)]: a [TypeError] when the session is
    [null]; otherwise the command is sent and its answer awaited. *)
Definition await_session (command : nat -> Action) : M unit :=
  fun s =>
    match session (fst s) with
    | None => (Throw type_error, s)
    | Some conn =>
        match elapse (fst s, log (command conn) (snd s)) with
        | (None, s') => (Ok tt, s')
        | (Some message, s') => (Throw (rejected message), s')
        end
    end.

(** [await this.ai.live.music.connect(...)] *)
Definition await_connect : M nat :=
  fun s =>
    let conn := connections (snd s) in
    let w := {| script := script (snd s); trace := trace (snd s) ++ [connect conn];
                connections := S conn |} in
    match elapse (fst s, w) with
    | (None, s') => (Ok conn, s')
    | (Some message, s') => (Throw (rejected message), s')
    end.

(** *** [generateMusic] *)

(** The config that a stanza's config is translated to. *)
Definition translate (c : MusicStanzaConfig) : LiveMusicGenerationConfig :=
  {| cfg_bpm := bpm c;
     cfg_temperature := temperature c;
     cfg_scale := if truthy (scale c) then scale c else None;
     muteBass := mute_bass c;
     muteDrums := mute_drums c |}.

(** [a !== b] on numbers and on strings that may be [undefined]. *)
Definition number_differs (a b : option Q) : bool :=
  match a, b with
  | None, None => false
  | Some x, Some y => negb (Qeq_bool x y)
  | _, _ => true
  end.

Definition string_differs (a b : option string) : bool :=
  match a, b with
  | None, None => false
  | Some x, Some y => negb (String.eqb x y)
  | _, _ => true
  end.

(** [nextStanza.config?.bpm !== stanza.config?.bpm ||
     nextStanza.config?.scale !== stanza.config?.scale] *)
Definition context_differs (nextStanza stanza : MusicStanza) : bool :=
  number_differs (config nextStanza ≫= bpm) (config stanza ≫= bpm)
  || string_differs (config nextStanza ≫= scale) (config stanza ≫= scale).

(** The body of the loop over the stanzas, for the stanza at index [i], and
    the loop from [i] on; [remaining] is [musicPlan.stanzas] from [i]. *)
Definition stanza_body (musicPlan : MusicPlan) (i : nat) (stanza : MusicStanza)
    : M unit :=
  dispatch (progress (i + 1) (length (stanzas musicPlan)) stanza);;
  await_session (fun conn =>
    session_setWeightedPrompts conn
      (map (fun p => {| wp_text := wp_text p; wp_weight := wp_weight p |})
           (prompts stanza)));;
  match config stanza with
  | Some c =>
      await_session (fun conn =>
        session_setMusicGenerationConfig conn (translate c))
  | None => ret tt
  end;;
  (if Nat.eqb i 0 then await_session session_play else ret tt);;
  await_sleep (seconds stanza * 1000)%Q;;
  if Nat.ltb i (length (stanzas musicPlan) - 1) then
    match stanzas musicPlan !! (i + 1) with
    | Some nextStanza =>
        if context_differs nextStanza stanza then
          await_session session_pause;;
          await_sleep 100;;
          await_session session_play
        else ret tt
    | None => throw type_error
    end
  else ret tt.

Fixpoint stanza_loop (musicPlan : MusicPlan) (i : nat)
    (remaining : list MusicStanza) : M unit :=
  match remaining with
  | [] => ret tt
  | stanza :: rest =>
      stanza_body musicPlan i stanza;;
      stanza_loop musicPlan (S i) rest
  end.

Definition lift {A : Type} (o : option A) : M A :=
  match o with
  | Some a => ret a
  | None => throw range_error
  end.

(** The parts of [generateMusic]: the joining of the arrays and the
    making of the file; the [try] block; its [catch]; its [finally]. *)
Definition package : M Blob :=
  fun s =>
    (combined <- lift (combine (audioData (fst s)));;
     wavBlob <- lift (createWavFile combined 48000 2);;
     update (set_isGenerating false);;
     ret wavBlob) s.

Definition generation (musicPlan : MusicPlan) : M Blob :=
  conn <- await_connect;;
  update (set_session (Some conn));;
  stanza_loop musicPlan 0 (stanzas musicPlan);;
  await_session session_stop;;
  await_sleep 500;;
  package.

Definition failed (error : Error) : M Blob :=
  update (set_isGenerating false);;
  dispatch (error_event error);;
  throw error.

Definition cleanup : M unit :=
  fun s =>
    match session (fst s) with
    | Some _ =>
        (try_catch (await_session session_stop) (fun _ => ret tt);;
         update (set_session None)) s
    | None => (Ok tt, s)
    end.

(** [generateMusic(musicPlan)] *)
Definition generateMusic (musicPlan : MusicPlan) : M Blob :=
  fun s =>
    if isGenerating (fst s) then (Throw busy, s)
    else
      (update (set_isGenerating true);;
       update (set_audioData []);;
       try_finally (try_catch (generation musicPlan) failed) cleanup) s.

(** [cancel()] *)
Definition cancel : M unit :=
  (fun s =>
     match session (fst s) with
     | Some _ => (await_session session_stop;; update (set_session None)) s
     | None => (Ok tt, s)
     end);;
  update (set_isGenerating false);;
  update (set_audioData []).

(** The [onerror] callback of the connection: an 'error' event. *)
Definition onerror (message : option string) : M unit :=
  dispatch (error_event (rejected message)).

End LongMusicGenerator.

(** ** Vocabulary for the properties of the engine *)

Module LiveSpec.
Import Types Protocol Audio LiveMusicHelper.
Local Open Scope Q_scope.

(** The engine accepts audio in two of its four states. *)
Definition accepting (m : Machine) : Prop :=
  playbackState (this m) = loading \/ playbackState (this m) = playing.

(** The buffers that a list of effects hands to the output, with their
    start times, in program order. *)
Definition scheduled (effects : list Effect) : list (AudioBuffer * Q) :=
  omap (fun e => match e with
                 | source_start _ buffer when => Some (buffer, when)
                 | _ => None
                 end) effects.

(** The prompt lists that a list of effects sends to the session. *)
Definition sent_prompts (effects : list Effect) : list (list WeightedPrompt) :=
  omap (fun e => match e with
                 | session_setWeightedPrompts _ l => Some l
                 | _ => None
                 end) effects.

(** The buffer that [processAudioChunks] decodes from a batch. *)
Definition first_buffer (ctx : AudioContext) (audioChunks : list AudioChunk)
    : option AudioBuffer :=
  chunk ← audioChunks !! 0%nat;
  bytes ← decode (default "undefined"%string (data chunk));
  decodeAudioData bytes ctx 48000 2.

(** The cursor a chunk is measured against: the horizon ahead of the clock
    when it is unset, the stored one otherwise. *)
Definition cursor (ctx : AudioContext) (m : Machine) : Q :=
  if Qeq_bool (nextStartTime (this m)) 0 then currentTime ctx + bufferTime
  else nextStartTime (this m).

(** Batches handled one after the other, each at the clock reading of its
    context; an exception ends the run. *)
Fixpoint feed (inputs : list (AudioContext * list AudioChunk)) (m : Machine)
    : option Outcome :=
  match inputs with
  | [] => Some (m, [])
  | (ctx, audioChunks) :: rest =>
      o ← processAudioChunks ctx audioChunks m;
      o' ← feed rest (fst o);
      Some (fst o', snd o ++ snd o')
  end.

Definition Qsum (l : list Q) : Q := foldr Qplus 0 l.

(** Back-to-back start times from [t]: each chunk starts where the one
    before it ends. *)
Fixpoint back_to_back (t : Q) (durations : list Q) : list Q :=
  match durations with
  | [] => []
  | d :: ds => t :: back_to_back (t + d) ds
  end.

(** *** The engine as a machine

    Everything that can happen to the object: a call of a public method, a
    resumption of [play] after one of its [await]s, a run of the throttled
    prompt update, a callback of the connection, and a timer falling due. *)
Inductive Input :=
  | play_call
  | play_session_resolved (ctx : AudioContext) (conn : nat)
                          (reply : option string)
  | play_context_resumed (ctx : AudioContext)
  | play_exception (message : option string)
  | pause_call (ctx : AudioContext)
  | stop_call (ctx : AudioContext)
  | playPause_call (ctx : AudioContext)
  | setWeightedPrompts_run (ctx : AudioContext)
                           (snapshot : list (string * Prompt))
                           (reply : option string)
  | server_message (ctx : AudioContext) (e : LiveMusicServerMessage)
  | socket_error (ctx : AudioContext) (message : option string)
  | socket_close (ctx : AudioContext) (event : option (Z * string))
  | timer_due
  | play_session_resolved_held (conn : nat)
  | play_prompts_settled.

(** [None]: the input cannot happen (no timer is pending) or its handler
    throws. *)
Definition step (i : Input) (m : Machine) : option Outcome :=
  match i with
  | play_call => Some (play_called m)
  | play_session_resolved ctx conn reply =>
      Some (play_connected ctx conn reply m)
  | play_context_resumed ctx => Some (play_resumed ctx m)
  | play_exception message => Some (play_failed message m)
  | pause_call ctx => Some (pause ctx m)
  | stop_call ctx => Some (stop ctx m)
  | playPause_call ctx => Some (playPause ctx m)
  | setWeightedPrompts_run ctx snapshot reply =>
      Some (setWeightedPrompts ctx snapshot reply m)
  | server_message ctx e => onmessage ctx e m
  | socket_error ctx message => Some (onerror ctx message m)
  | socket_close ctx event => Some (onclose ctx event m)
  | timer_due =>
      if Nat.eqb (timers m) 0 then None else Some (timer_fires m)
  | play_session_resolved_held conn => Some (play_connected_held conn m)
  | play_prompts_settled => Some (play_prompts_set m)
  end.

Fixpoint run (inputs : list Input) (m : Machine) : option Outcome :=
  match inputs with
  | [] => Some (m, [])
  | i :: rest =>
      o ← step i m;
      o' ← run rest (fst o);
      Some (fst o', snd o ++ snd o')
  end.

(** Examples used below: a prompt of weight 1 and one of weight 0, a chunk of one stereo frame
    of silence, and an engine that was given the prompt, told to play and
    has connected. *)
Definition calm : Prompt :=
  {| promptId := "prompt-0"; text := "calm"; emotion := "calm";
     japaneseEmotion := ""; weight := 1; cc := 0%Z; color := "#9900ff" |}.

Definition muted : Prompt :=
  {| promptId := "prompt-1"; text := "tense"; emotion := "tense";
     japaneseEmotion := ""; weight := 0; cc := 1%Z; color := "#5200ff" |}.

Definition one_frame : AudioChunk := {| data := Some "AAAAAA=="%string |}.

Definition message_of (chunks : list AudioChunk) : LiveMusicServerMessage :=
  {| setupComplete := false; filteredPrompt := None;
     audioChunks := Some chunks |}.

Definition started : list Input :=
  [setWeightedPrompts_run (audioContext 0) [("prompt-0"%string, calm)] None;
   play_call;
   play_session_resolved (audioContext 0) 0 None;
   play_prompts_settled;
   play_context_resumed (audioContext 0)].

(** The buffer that [one_frame] decodes to. *)
Definition silent_frame : AudioBuffer :=
  {| numberOfChannels := 2; buf_length := 1; buf_sampleRate := 48000;
     channels := [[Fin (0 # 32768)]; [Fin (0 # 32768)]] |}.

(** What is seen of the engine after a run from [new]: its playback state,
    and, of one more input, the state it leaves and the buffers it
    schedules. *)
Definition state_after (inputs : list Input) : option PlaybackState :=
  o ← run inputs new; Some (playbackState (this (fst o))).

Definition observe (inputs : list Input) (i : Input)
    : option (PlaybackState * list (AudioBuffer * Q) * list Effect) :=
  o ← run inputs new;
  o' ← step i (fst o);
  Some (playbackState (this (fst o')), scheduled (snd o'), snd o').

End LiveSpec.

(** ** Vocabulary for the properties of the renderer *)

Module RendererSpec.
Import Types Protocol Audio LongMusicGenerator.

(** An action at which the renderer waits. *)
Definition is_await (a : Action) : bool :=
  match a with
  | progress _ _ _ | error_event _ => false
  | _ => true
  end.

Fixpoint awaits (acts : list Action) : nat :=
  match acts with
  | [] => 0
  | a :: rest => (if is_await a then 1 else 0) + awaits rest
  end.

(** The specification's side.  The bpm and the scale of a stanza are those
    that its config names; a stanza without a config names none. *)
Definition bpm_of (stanza : MusicStanza) : option Q :=
  match config stanza with
  | Some c => bpm c
  | None => None
  end.

Definition scale_of (stanza : MusicStanza) : option string :=
  match config stanza with
  | Some c => scale c
  | None => None
  end.

(** Two stanzas have the same bpm when neither names one or both name the
    same number, and the same scale when neither names one or both name
    the same text. *)
Definition same_bpm (a b : option Q) : bool :=
  match a, b with
  | Some x, Some y => Qeq_bool x y
  | None, None => true
  | _, _ => false
  end.

Definition same_scale (a b : option string) : bool :=
  match a, b with
  | Some x, Some y => if string_dec x y then true else false
  | None, None => true
  | _, _ => false
  end.

(** The next stanza differs from the current one in bpm or scale. *)
Definition differs_in_bpm_or_scale (stanza next : MusicStanza) : bool :=
  negb (same_bpm (bpm_of stanza) (bpm_of next))
  || negb (same_scale (scale_of stanza) (scale_of next)).

(** The translated config: the settings of the stanza's config under the
    names of the protocol; the scale is carried over when the stanza names
    one (the empty text names none). *)
Definition expected_config (c : MusicStanzaConfig) : LiveMusicGenerationConfig :=
  {| cfg_bpm := bpm c;
     cfg_temperature := temperature c;
     cfg_scale := match scale c with
                  | Some EmptyString => None
                  | named => named
                  end;
     muteBass := mute_bass c;
     muteDrums := mute_drums c |}.

(** What the specification asks of one stanza, the [i]-th counted from 0,
    of [total], followed by [next] if it is not the last: the progress
    event, the prompts, the translated config if there is one, [play] for
    the first stanza, the wait, and the pause, short wait and play when the
    next stanza differs in bpm or scale. *)
Definition expected_stanza (conn total i : nat) (stanza : MusicStanza)
    (next : option MusicStanza) : list Action :=
  [progress (i + 1) total stanza;
   session_setWeightedPrompts conn (prompts stanza)]
  ++ match config stanza with
     | Some c => [session_setMusicGenerationConfig conn (expected_config c)]
     | None => []
     end
  ++ (if Nat.eqb i 0 then [session_play conn] else [])
  ++ [sleep (seconds stanza * 1000)]
  ++ match next with
     | Some nextStanza =>
         if differs_in_bpm_or_scale stanza nextStanza
         then [session_pause conn; sleep 100; session_play conn]
         else []
     | None => []
     end.

Fixpoint expected_stanzas (conn total i : nat) (remaining : list MusicStanza)
    : list Action :=
  match remaining with
  | [] => []
  | stanza :: rest =>
      expected_stanza conn total i stanza (head rest)
      ++ expected_stanzas conn total (S i) rest
  end.

(** The generation proper: the connection, the stanzas, the stop and the
    drain wait. *)
Definition expected_generation (conn : nat) (musicPlan : MusicPlan)
    : list Action :=
  [connect conn]
  ++ expected_stanzas conn (length (stanzas musicPlan)) 0 (stanzas musicPlan)
  ++ [session_stop conn; sleep 500].

(** The byte sequences that the callbacks decode from what arrives during
    some waits, in order of arrival. *)
Fixpoint decoded_of_batch (chunks : list AudioChunk) : list Uint8Array :=
  match chunks with
  | [] => []
  | chunk :: rest =>
      if truthy (data chunk) then
        match decode (default ""%string (data chunk)) with
        | Some audioBytes => audioBytes :: decoded_of_batch rest
        | None => []
        end
      else decoded_of_batch rest
  end.

Definition decoded_of_message (e : LiveMusicServerMessage) : list Uint8Array :=
  match audioChunks e with
  | Some chunks => decoded_of_batch chunks
  | None => []
  end.

Definition received (ticks : list Tick) : list Uint8Array :=
  flat_map (fun t => flat_map decoded_of_message (arrivals t)) ticks.

(** No awaited call of the script is rejected. *)
Definition unfailing (ticks : list Tick) : Prop :=
  Forall (fun t => failure t = None) ticks.

(** From [s] to [s'] the renderer did [acts] and nothing else: the trace
    grew by [acts]; one tick of the script was consumed for each wait, and
    what those ticks carried was pushed onto [audioData]; the session, the
    busy flag and the count of connections are as they were. *)
Record Ran (s s' : State) (acts : list Action) : Prop := {
  ran_trace : trace (snd s') = trace (snd s) ++ acts;
  ran_script : script (snd s') = drop (awaits acts) (script (snd s));
  ran_audio : audioData (fst s')
              = audioData (fst s)
                ++ received (take (awaits acts) (script (snd s)));
  ran_session : session (fst s') = session (fst s);
  ran_busy : isGenerating (fst s') = isGenerating (fst s);
  ran_connections : connections (snd s') = connections (snd s)
}.

(** With the session [conn], [P] does [acts] whenever it returns, and it
    returns whenever no call is rejected. *)
Definition Does {A : Type} (P : M A) (conn : nat) (acts : list Action) : Prop :=
  forall s : State,
    session (fst s) = Some conn ->
    (forall a s', P s = (Ok a, s') -> Ran s s' acts) /\
    (unfailing (script (snd s)) -> exists a s', P s = (Ok a, s')).

(** The 44 bytes before the samples. *)
Definition le16 (v : Z) : list byte := [byte_of_Z v; byte_of_Z (v / 256)].

Definition le32 (v : Z) : list byte :=
  [byte_of_Z v; byte_of_Z (v / 256); byte_of_Z (v / 65536);
   byte_of_Z (v / 16777216)].

Definition wav_header (sampleRate numChannels : Z) (dataLength : nat)
    : list byte :=
  ["R"; "I"; "F"; "F"]%byte ++ le32 (36 + Z.of_nat dataLength)
  ++ ["W"; "A"; "V"; "E"]%byte ++ ["f"; "m"; "t"; " "]%byte
  ++ le32 16 ++ le16 1 ++ le16 numChannels ++ le32 sampleRate
  ++ le32 (sampleRate * numChannels * 2) ++ le16 (numChannels * 2)
  ++ le16 16 ++ ["d"; "a"; "t"; "a"]%byte ++ le32 (Z.of_nat dataLength).

(** The little-endian unsigned integers of a file, as a reader finds
    them. *)
Definition u8_at (offset : nat) (file : list byte) : option Z :=
  b ← file !! offset; Some (Z.of_N (Byte.to_N b)).

Definition u16_at (offset : nat) (file : list byte) : option Z :=
  b0 ← u8_at offset file; b1 ← u8_at (offset + 1) file;
  Some (b0 + 256 * b1)%Z.

Definition u32_at (offset : nat) (file : list byte) : option Z :=
  lo ← u16_at offset file; hi ← u16_at (offset + 2) file;
  Some (lo + 65536 * hi)%Z.

(** Examples: a plan of two stanzas, the second with a tempo, and a script
    in which six bytes arrive in three chunks. *)
Definition calm_stanza : MusicStanza :=
  {| prompts := [ {| wp_text := "calm"; wp_weight := 1 |} ];
     seconds := 5; config := None |}.

Definition tense_stanza : MusicStanza :=
  {| prompts := [ {| wp_text := "tense"; wp_weight := 1 |} ];
     seconds := 5;
     config := Some {| bpm := Some 140%Q; mute_bass := None;
                       mute_drums := None; scale := None;
                       temperature := None |} |}.

Definition two_stanzas : MusicPlan :=
  {| title := "calm, then tense"; stanzas := [calm_stanza; tense_stanza] |}.

Definition audio_message (texts : list string) : LiveMusicServerMessage :=
  {| setupComplete := false; filteredPrompt := None;
     audioChunks := Some (map (fun s => {| data := Some s |}) texts) |}.

Definition quiet (messages : list LiveMusicServerMessage) : Tick :=
  {| arrivals := messages; failure := None |}.

Definition six_bytes : World :=
  {| script := [quiet []; quiet [audio_message ["AAEC"%string]]; quiet [];
                quiet [audio_message ["AwQ="%string; "BQ=="%string]]];
     trace := []; connections := 0 |}.

(** The file that [two_stanzas] and [six_bytes] give. *)
Definition six_bytes_file : Blob :=
  {| blob_bytes :=
       ["R"; "I"; "F"; "F"; "*"; "000"; "000"; "000";
        "W"; "A"; "V"; "E"; "f"; "m"; "t"; " ";
        "016"; "000"; "000"; "000"; "001"; "000"; "002"; "000";
        "128"; "187"; "000"; "000"; "000"; "238"; "002"; "000";
        "004"; "000"; "016"; "000"; "d"; "a"; "t"; "a";
        "006"; "000"; "000"; "000";
        "000"; "001"; "002"; "003"; "004"; "005"]%byte;
     blob_type := "audio/wav" |}.

(** The state in which the [try] block of [generateMusic] holds the
    session: the connection is logged, its tick consumed. *)
Definition connected (g : Generator) (w : World) : State :=
  (set_session (Some (connections w))
     (set_audioData (audioData g ++ received (take 1 (script w))) g),
   {| script := drop 1 (script w);
      trace := trace w ++ [connect (connections w)];
      connections := S (connections w) |}).

End RendererSpec.
(** ** Further vocabulary for the engine *)

Module LiveSpecMore.
Import Types Protocol Audio LiveMusicHelper LiveSpec.
Local Open Scope Q_scope.

(** Scheduled buffers do not overlap: each starts at or after the end of
    the one scheduled before it. *)
Fixpoint no_overlap (l : list (AudioBuffer * Q)) : Prop :=
  match l with
  | (b1, t1) :: (((_, t2) :: _) as rest) =>
      t1 + duration b1 <= t2 /\ no_overlap rest
  | _ => True
  end.

(** The clock readings of successive messages do not go back. *)
Fixpoint clock_ascends (inputs : list (AudioContext * list AudioChunk)) : Prop :=
  match inputs with
  | (ctx1, _) :: (((ctx2, _) :: _) as rest) =>
      currentTime ctx1 <= currentTime ctx2 /\ clock_ascends rest
  | _ => True
  end.

(** The gain node that an effect names, if it names one. *)
Definition node_of (e : Effect) : option nat :=
  match e with
  | createGain n | connect_destination n | connect_extra n
  | gain_setValueAtTime n _ _ | gain_linearRampToValueAtTime n _ _
  | source_start n _ _ => Some n
  | _ => None
  end.

(** The connections that a list of effects opens. *)
Definition opened (effects : list Effect) : list nat :=
  omap (fun e => match e with connect c => Some c | _ => None end) effects.

(** The events that a list of effects dispatches. *)
Definition events (effects : list Effect) : list Event :=
  omap (fun e => match e with dispatchEvent ev => Some ev | _ => None end)
       effects.

(** The wire form of the prompts that are active in a snapshot, given the
    filtered texts. *)
Definition wire (filtered : gset string) (snapshot : list (string * Prompt))
    : list WeightedPrompt :=
  map (fun p => {| wp_text := text p; wp_weight := weight p |})
      (filter (fun p => negb (bool_decide (text p ∈ filtered))
                        && negb (Qeq_bool (weight p) 0) = true)
              snapshot.*2).

End LiveSpecMore.

(** ** Further vocabulary for the renderer *)

Module RendererSpecMore.
Import Types Protocol Audio LongMusicGenerator RendererSpec.

(** The progress events of a trace: current, total and stanza. *)
Definition progress_events (acts : list Action)
    : list (nat * nat * MusicStanza) :=
  omap (fun a => match a with
                 | progress current total stanza => Some (current, total, stanza)
                 | _ => None
                 end) acts.

(** What the specification asks of the progress events of a plan: one for
    each stanza, numbered from [first], all with the same total. *)
Fixpoint numbered (first total : nat) (l : list MusicStanza)
    : list (nat * nat * MusicStanza) :=
  match l with
  | [] => []
  | stanza :: rest => (first, total, stanza) :: numbered (S first) total rest
  end.

(** The time that a trace waits, in milliseconds. *)
Fixpoint waited (acts : list Action) : Q :=
  match acts with
  | [] => 0
  | sleep ms :: rest => ms + waited rest
  | _ :: rest => waited rest
  end.

(** How often a trace tells the session to pause, and to play. *)
Fixpoint pauses (acts : list Action) : nat :=
  match acts with
  | [] => 0
  | session_pause _ :: rest => S (pauses rest)
  | _ :: rest => pauses rest
  end.

Fixpoint plays (acts : list Action) : nat :=
  match acts with
  | [] => 0
  | session_play _ :: rest => S (plays rest)
  | _ :: rest => plays rest
  end.

(** The stanza boundaries of a plan at which bpm or scale changes. *)
Fixpoint changes (l : list MusicStanza) : nat :=
  match l with
  | stanza :: ((nextStanza :: _) as rest) =>
      (if differs_in_bpm_or_scale stanza nextStanza then 1 else 0)
      + changes rest
  | _ => 0
  end.

(** The seconds of a plan. *)
Fixpoint plan_seconds (l : list MusicStanza) : Q :=
  match l with
  | [] => 0
  | stanza :: rest => seconds stanza + plan_seconds rest
  end.

(** The renderer as [cancel] leaves it. *)
Definition idle : Generator :=
  {| audioData := []; session := None; isGenerating := false |}.

End RendererSpecMore.


(** ** [index.tsx]: the prompts that an external message sets

    The 'message' listener of the window rebuilds the prompt map from a
    payload and hands it to the engine.  The payload is a
    [Record<string, number>]: a plain object whose own properties are
    numbers (exact rationals here).  Reading a key that it does not own
    finds what [Object.prototype] has under that name, and [undefined]
    otherwise, which [??] turns into 0. *)

Module Index.
Import Types.

(** [Map.prototype.set] on a map kept in insertion order: an existing key
    keeps its place and takes the new value, a new key goes to the end. *)
Fixpoint map_set (key : string) (value : Prompt) (m : list (string * Prompt))
    : list (string * Prompt) :=
  match m with
  | [] => [(key, value)]
  | (k, v) :: rest =>
      if decide (key = k) then (key, value) :: rest
      else (k, v) :: map_set key value rest
  end.

(** [{ ...prompt }] with [weight] assigned. *)
Definition with_weight (prompt : Prompt) (w : Q) : Prompt :=
  {| promptId := promptId prompt;
     text := text prompt;
     emotion := emotion prompt;
     japaneseEmotion := japaneseEmotion prompt;
     weight := w;
     cc := cc prompt;
     color := color prompt |}.

(** The loop of both cases: a new map, filled from the values of the
    current one, each under its [promptId] and with its new weight. *)
Definition rebuild (new_weight : Prompt -> Q) (current : list (string * Prompt))
    : list (string * Prompt) :=
  foldl (fun newPrompts prompt =>
           map_set (promptId prompt) (with_weight prompt (new_weight prompt))
                   newPrompts)
        [] current.*2.

(** The names that every plain object inherits from [Object.prototype]. *)
Definition Object_prototype : list string :=
  ["constructor"; "__defineGetter__"; "__defineSetter__"; "hasOwnProperty";
   "__lookupGetter__"; "__lookupSetter__"; "isPrototypeOf";
   "propertyIsEnumerable"; "toString"; "valueOf"; "__proto__";
   "toLocaleString"]%string.

(** [payload[key]]: the own property, else the inherited one (a function,
    or for [__proto__] the prototype), else [undefined]. *)
Inductive Property := own (value : Q) | inherited | undefined.

Definition get (payload : gmap string Q) (key : string) : Property :=
  match payload !! key with
  | Some value => own value
  | None =>
      if existsb (String.eqb key) Object_prototype then inherited
      else undefined
  end.

(** [property ?? 0] where that is a number.  An inherited property is not
    nullish and not a number. *)
Definition number_or_zero (property : Property) : option Q :=
  match property with
  | own value => Some value
  | undefined => Some 0%Q
  | inherited => None
  end.

(** Every prompt reads a number from the payload under its key. *)
Definition reads_numbers (payload : gmap string Q) (key_of : Prompt -> string)
    (current : list (string * Prompt)) : bool :=
  forallb (fun prompt =>
             match number_or_zero (get payload (key_of prompt)) with
             | Some _ => true
             | None => false
             end)
          current.*2.

(** case 'setWeights': [weights[prompt.text] ?? 0].  [None]: some prompt
    reads an inherited property; the weight assigned to it is a function,
    which the [weight] of this embedding, a number, cannot hold. *)
Definition setWeights (weights : gmap string Q)
    (current : list (string * Prompt)) : option (list (string * Prompt)) :=
  if reads_numbers weights text current then
    Some (rebuild (fun prompt =>
                     default 0%Q (number_or_zero (get weights (text prompt))))
                  current)
  else None.

(** [Math.min] on two numbers. *)
Definition Math_min (a b : Q) : Q := if Qle_bool a b then a else b.

Definition weightFactor : Q := 2 / 3.

(** case 'setEmotionClickCounts':
    [Math.min(2, (counts[prompt.emotion] ?? 0) * weightFactor)].  [None]:
    some prompt reads an inherited property; its product with the factor,
    and so the weight assigned, is NaN, which the [weight] of this embedding
    cannot hold. *)
Definition setEmotionClickCounts (counts : gmap string Q)
    (current : list (string * Prompt)) : option (list (string * Prompt)) :=
  if reads_numbers counts emotion current then
    Some (rebuild (fun prompt =>
                     Math_min 2
                       (default 0%Q (number_or_zero (get counts (emotion prompt)))
                        * weightFactor)%Q)
                  current)
  else None.

End Index.

(** ** [MusicPlanGenerator.generateMusicPlan]: the text handed to [JSON.parse]

    The answer of the model may wrap its JSON in a Markdown fence; the
    method cuts the JSON out with [trim], [includes] and [split].  A string
    is its list of UTF-16 code units. *)

Module MusicPlanGenerator.

#[warnings="-notation-for-abbreviation"]
Notation JSString := (list N).

(** The code units of an ASCII literal. *)
Definition units (s : string) : JSString :=
  (fun a => N_of_ascii a) <$> list_ascii_of_string s.

(** ECMAScript's WhiteSpace and LineTerminator code points. *)
Definition is_white (c : N) : bool :=
  (N.leb 9 c && N.leb c 13) || N.eqb c 32 || N.eqb c 160 || N.eqb c 5760
  || (N.leb 8192 c && N.leb c 8202) || N.eqb c 8232 || N.eqb c 8233
  || N.eqb c 8239 || N.eqb c 8287 || N.eqb c 12288 || N.eqb c 65279.

Fixpoint trimStart (s : JSString) : JSString :=
  match s with
  | [] => []
  | c :: rest => if is_white c then trimStart rest else s
  end.

Definition trimEnd (s : JSString) : JSString := rev (trimStart (rev s)).

(** [String.prototype.trim] *)
Definition trim (s : JSString) : JSString := trimEnd (trimStart s).

(** [searchString] occurs in [s] at position 0. *)
Fixpoint startsWith (searchString s : JSString) : bool :=
  match searchString, s with
  | [], _ => true
  | _ :: _, [] => false
  | c :: p, d :: r => N.eqb c d && startsWith p r
  end.

(** [String.prototype.includes] *)
Fixpoint includes (searchString s : JSString) : bool :=
  startsWith searchString s
  || match s with
     | [] => false
     | _ :: rest => includes searchString rest
     end.

(** [String.prototype.split] for a separator that is not empty: the scan
    goes from left to right; where the separator occurs, the piece read so
    far is closed and the scan goes on behind the separator ([skip] counts
    the code units of it that are still to pass). *)
Fixpoint split_from (separator s : JSString) (skip : nat) (piece : JSString)
    : list JSString :=
  match s with
  | [] => [piece]
  | c :: rest =>
      match skip with
      | S k => split_from separator rest k piece
      | O =>
          if startsWith separator s
          then piece :: split_from separator rest (length separator - 1) []
          else split_from separator rest 0 (piece ++ [c])
      end
  end.

(** [String.prototype.split]; an empty separator splits between all code
    units. *)
Definition split (separator s : JSString) : list JSString :=
  match separator with
  | [] => (fun c => [c]) <$> s
  | _ :: _ => split_from separator s 0 []
  end.

(** Three backticks, and three backticks followed by [json]. *)
Definition fence : JSString := [96; 96; 96]%N.
Definition fence_json : JSString := [96; 96; 96; 106; 115; 111; 110]%N.

(** Lines 57 to 63 of [generateMusicPlan]: from the text of the answer to
    the text that is parsed.  [None] is the [TypeError] of calling [split]
    on [undefined]. *)
Definition jsonText (text : JSString) : option JSString :=
  let jsonText := trim text in
  if includes fence_json jsonText then
    piece ← split fence_json jsonText !! 1;
    first ← split fence piece !! 0;
    Some (trim first)
  else if includes fence jsonText then
    piece ← split fence jsonText !! 1;
    first ← split fence piece !! 0;
    Some (trim first)
  else Some jsonText.

(** The position of the first occurrence of a separator, or the length of
    the string when there is none. *)
Fixpoint first_match (separator s : JSString) : nat :=
  match s with
  | [] => 0
  | _ :: rest =>
      if startsWith separator s then 0 else S (first_match separator rest)
  end.

End MusicPlanGenerator.
Module AudioFacts.
Import Audio.

Lemma int16_of_bytes_range lo hi :
  (-32768 <= int16_of_bytes lo hi < 32768)%Z.
Proof.
  unfold int16_of_bytes.
  pose proof (Byte.to_N_bounded lo). pose proof (Byte.to_N_bounded hi).
  destruct (Z.ltb_spec (Z.of_N (Byte.to_N lo) + 256 * Z.of_N (Byte.to_N hi)) 32768); lia.
Qed.

Lemma normalized_range (s : Z) :
  (-32768 <= s < 32768)%Z ->
  (-1 <= inject_Z s / 32768)%Q /\ (inject_Z s / 32768 < 1)%Q.
Proof.
  intros Hs. unfold Qle, Qlt, Qdiv, Qmult, Qinv, inject_Z. simpl. lia.
Qed.

Lemma int16_elements_lookup (data : list byte) (p : nat) lo hi :
  data !! (2 * p) = Some lo -> data !! (2 * p + 1) = Some hi ->
  int16_elements data !! p = Some (int16_of_bytes lo hi).
Proof.
  revert data. induction p as [|p IH]; intros [|a [|b rest]] Hlo Hhi;
    simpl in *; try discriminate.
  - congruence.
  - replace (p + S (p + 0)) with (S (2 * p)) in Hlo by lia.
    replace (p + S (p + 0) + 1) with (S (2 * p + 1)) in Hhi by lia.
    simpl in Hlo, Hhi. apply IH; assumption.
Qed.

Lemma frameCount_floor (data : Uint8Array) (n : nat) :
  0 < n ->
  Qfloor (frameCount data n) = Z.of_nat (length data / 2 / n).
Proof.
  intros Hn. unfold frameCount.
  rewrite Nat.Div0.div_div, Nat2Z.inj_div, Nat2Z.inj_mul, Zdiv_Qdiv.
  apply Qfloor_comp. rewrite inject_Z_mult. field.
  intros H. unfold Qeq in H. simpl in H. lia.
Qed.


(** The inner loop stores [f i] at every index below [m] that the array
    has. *)
Lemma store_loop_length (f : nat -> f32) (m : nat) (channelData : list f32) :
  length (foldl (fun cd i => <[i := f i]> cd) channelData (seq 0 m))
  = length channelData.
Proof.
  induction m as [|m IH]; [reflexivity|].
  rewrite seq_S, foldl_app. simpl. rewrite length_insert. exact IH.
Qed.

Lemma store_loop_lookup (f : nat -> f32) (m : nat) (channelData : list f32)
    (j : nat) :
  j < length channelData -> j < m ->
  foldl (fun cd i => <[i := f i]> cd) channelData (seq 0 m) !! j = Some (f j).
Proof.
  intros Hj. induction m as [|m IH]; intros Hm; [lia|].
  rewrite seq_S, foldl_app. simpl.
  destruct (decide (j = m)) as [->|Hne].
  - apply list_lookup_insert_eq. rewrite store_loop_length. exact Hj.
  - rewrite list_lookup_insert_ne by congruence. apply IH. lia.
Qed.

(** The outer loop rewrites the channels below [m] and leaves the rest. *)
Lemma channel_loop (g : nat -> list f32 -> list f32) (b : AudioBuffer)
    (m : nat) :
  let b' := foldl (fun buffer channel =>
                     setChannelData buffer channel
                       (g channel (getChannelData buffer channel)))
                  b (seq 0 m) in
  numberOfChannels b' = numberOfChannels b /\
  buf_length b' = buf_length b /\
  buf_sampleRate b' = buf_sampleRate b /\
  length (channels b') = length (channels b) /\
  forall c cd, channels b !! c = Some cd ->
    channels b' !! c = Some (if decide (c < m) then g c cd else cd).
Proof.
  induction m as [|m IH].
  - simpl. repeat split; try reflexivity. intros c cd H.
    destruct (decide (c < 0)); [lia | exact H].
  - cbv zeta in *. rewrite seq_S, foldl_app.
    set (B := foldl _ b (seq 0 m)) in *.
    destruct IH as (Hn & Hl & Hr & Hlen & Hch).
    repeat split; simpl; try assumption.
    + rewrite length_insert. exact Hlen.
    + intros c cd H. specialize (Hch c cd H).
      destruct (decide (c = m)) as [->|Hne].
      * unfold getChannelData. rewrite Hch.
        destruct (decide (m < m)); [lia|]. simpl.
        rewrite list_lookup_insert_eq
          by (rewrite Hlen; apply lookup_lt_Some in H; exact H).
        destruct (decide (m < S m)); [reflexivity | lia].
      * rewrite list_lookup_insert_ne by congruence. rewrite Hch.
        destruct (decide (c < m)), (decide (c < S m)); try lia; reflexivity.
Qed.

Lemma sample_position (len n i c : nat) :
  c < n -> i < len / 2 / n -> 2 * (i * n + c) + 1 < len.
Proof.
  intros Hc Hi. rewrite Nat.Div0.div_div in Hi.
  assert (Hd : (2 * n) * (len / (2 * n)) <= len)
    by (apply Nat.Div0.mul_div_le).
  nia.
Qed.


Lemma createBuffer_accepts (ctx : AudioContext) (data : Uint8Array)
    (r : Z) (n : nat) :
  1 <= n <= maxChannels ctx ->
  (minSampleRate ctx <= r <= maxSampleRate ctx)%Z ->
  2 * n <= length data ->
  (Z.of_nat (length data / 2 / n) < 2 ^ 32)%Z ->
  createBuffer ctx n (frameCount data n) r
  = Some {| numberOfChannels := n;
            buf_length := length data / 2 / n;
            buf_sampleRate := r;
            channels := replicate n (replicate (length data / 2 / n) (Fin 0)) |}.
Proof.
  intros Hn Hr Hlen Hbig. unfold createBuffer, toUint32.
  rewrite frameCount_floor by lia.
  rewrite Z.mod_small by lia. rewrite Nat2Z.id.
  assert (Hpos : 1 <= length data / 2 / n).
  { rewrite Nat.Div0.div_div. apply Nat.div_le_lower_bound; lia. }
  destruct (Nat.eqb_spec n 0); [lia|].
  destruct (Nat.ltb_spec (maxChannels ctx) n); [lia|].
  destruct (Nat.eqb_spec (length data / 2 / n) 0); [lia|].
  destruct (Z.ltb_spec r (minSampleRate ctx)); [lia|].
  destruct (Z.ltb_spec (maxSampleRate ctx) r); [lia|].
  reflexivity.
Qed.

Lemma frames_below_bound (data : Uint8Array) (n i : nat) :
  0 < n -> i < length data / 2 / n ->
  i < Z.to_nat (Qceiling (frameCount data n)).
Proof.
  intros Hn Hi.
  pose proof (Qle_floor_ceiling (frameCount data n)) as H.
  rewrite <- Zle_Qle, frameCount_floor in H by exact Hn. lia.
Qed.


Lemma decodeAudioData_rate (data : Uint8Array) (ctx : AudioContext)
    (r : Z) (n : nat) (b : AudioBuffer) :
  decodeAudioData data ctx r n = Some b -> buf_sampleRate b = r.
Proof.
  unfold decodeAudioData. intros H.
  destruct (createBuffer ctx n (frameCount data n) r) as [b0|] eqn:Hc;
    [|discriminate].
  simpl in H. destruct (Int16Array data) as [d|]; [|discriminate].
  simpl in H. injection H as <-.
  set (g := fun (channel : nat) (channelData : list f32) =>
              foldl (fun (cd : list f32) i =>
                       <[i := normalize (d !! (i * n + channel))]> cd)
                    channelData (indices_below (frameCount data n))).
  destruct (channel_loop g b0 n) as (_ & _ & Hsr & _).
  cbv zeta in Hsr. transitivity (buf_sampleRate b0); [exact Hsr|].
  unfold createBuffer in Hc.
  destruct (_ || _) in Hc; [discriminate|]. injection Hc as <-. reflexivity.
Qed.

(** C3 (as amended).  For a byte input of even length that holds at least
    one whole frame (and fewer than 2^32 of them), a channel count [n] and a
    sample rate [r] that the context's [createBuffer] accepts,
    [decodeAudioData] returns a buffer of [n] channels whose frame count is
    [length data / 2 / n], rounded down; sample [i] of channel [c] is the
    little-endian signed 16-bit integer at the interleaved position
    [i * n + c], over 32768, and lies in [-1, 1). *)
Theorem decodeAudioData_frames (data : Uint8Array) (ctx : AudioContext)
    (r : Z) (n : nat) :
  Nat.even (length data) = true ->
  1 <= n <= maxChannels ctx ->
  (minSampleRate ctx <= r <= maxSampleRate ctx)%Z ->
  2 * n <= length data ->
  (Z.of_nat (length data / 2 / n) < 2 ^ 32)%Z ->
  exists buffer,
    decodeAudioData data ctx r n = Some buffer /\
    buf_length buffer = length data / 2 / n /\
    numberOfChannels buffer = n /\
    buf_sampleRate buffer = r /\
    length (channels buffer) = n /\
    forall c, c < n ->
      exists channelData,
        channels buffer !! c = Some channelData /\
        length channelData = buf_length buffer /\
        forall i, i < buf_length buffer ->
          exists lo hi,
            data !! (2 * (i * n + c)) = Some lo /\
            data !! (2 * (i * n + c) + 1) = Some hi /\
            channelData !! i
            = Some (Fin (inject_Z (int16_of_bytes lo hi) / 32768)) /\
            (-1 <= inject_Z (int16_of_bytes lo hi) / 32768)%Q /\
            (inject_Z (int16_of_bytes lo hi) / 32768 < 1)%Q.
Proof.
  intros Heven Hn Hr Hlen Hbig.
  unfold decodeAudioData.
  rewrite (createBuffer_accepts ctx data r n Hn Hr Hlen Hbig).
  unfold Int16Array. rewrite Heven. simpl.
  set (F := length data / 2 / n) in *.
  set (b0 := {| numberOfChannels := n; buf_length := F; buf_sampleRate := r;
                channels := replicate n (replicate F (Fin 0)) |}).
  set (g := fun (channel : nat) (channelData : list f32) =>
              foldl (fun (cd : list f32) i =>
                       <[i := normalize
                                (int16_elements data !! (i * n + channel))]> cd)
                    channelData (indices_below (frameCount data n))).
  destruct (channel_loop g b0 n) as (Hnc & Hl & Hsr & Hch & Hlook).
  set (B := foldl _ b0 (seq 0 n)) in *.
  exists B. split; [reflexivity|].
  repeat split; try assumption.
  - rewrite Hch. simpl. apply length_replicate.
  - intros c Hc.
    assert (H0 : channels b0 !! c = Some (replicate F (Fin 0)))
      by (simpl; apply lookup_replicate_2; exact Hc).
    specialize (Hlook c _ H0).
    destruct (decide (c < n)); [|lia].
    eexists. split; [exact Hlook|]. split.
    + unfold g, indices_below. rewrite store_loop_length, length_replicate.
      symmetry. exact Hl.
    + rewrite Hl. simpl. intros i Hi.
      pose proof (sample_position (length data) n i c Hc Hi) as Hpos.
      destruct (lookup_lt_is_Some_2 data (2 * (i * n + c))) as [lo Hlo]; [lia|].
      destruct (lookup_lt_is_Some_2 data (2 * (i * n + c) + 1)) as [hi Hhi];
        [lia|].
      exists lo, hi. split; [exact Hlo|]. split; [exact Hhi|]. split.
      * unfold g, indices_below.
        rewrite store_loop_lookup.
        -- rewrite (int16_elements_lookup data (i * n + c) lo hi Hlo Hhi).
           reflexivity.
        -- rewrite length_replicate. exact Hi.
        -- apply frames_below_bound; [lia | exact Hi].
      * apply normalized_range, int16_of_bytes_range.
Qed.

(** The witness: two stereo frames, the extreme samples among them. *)
Lemma decodeAudioData_frames_witness :
  exists buffer,
    decodeAudioData ["000"; "000"; "255"; "127"; "000"; "128"; "255"; "255"]%byte
      (audioContext 0) 48000 2 = Some buffer /\
    buf_length buffer = 2.
Proof.
  destruct (decodeAudioData_frames
              ["000"; "000"; "255"; "127"; "000"; "128"; "255"; "255"]%byte
              (audioContext 0) 48000 2) as (buffer & Hb & Hl & _).
  - reflexivity.
  - simpl. lia.
  - simpl. lia.
  - simpl. lia.
  - vm_compute. reflexivity.
  - exists buffer. split; [exact Hb | exact Hl].
Defined.

(** C3, as stated, fails on the empty input: its length is even and its
    frame count would be 0, but [createBuffer] rejects a buffer of no
    frames, so no buffer is produced.  The same holds for two bytes in
    stereo, which hold half a frame. *)
Lemma decodeAudioData_no_frame :
  Nat.even (length ([] : Uint8Array)) = true /\
  decodeAudioData [] (audioContext 0) 48000 2 = None /\
  decodeAudioData ["001"; "000"]%byte (audioContext 0) 48000 2 = None.
Proof. repeat split; reflexivity. Qed.

End AudioFacts.

Module LiveFacts.
Import Types Protocol Audio LiveMusicHelper LiveSpec.
Local Open Scope Q_scope.

Lemma pause_state (ctx : AudioContext) (m : Machine) :
  playbackState (this (fst (pause ctx m))) = paused.
Proof. unfold pause. destruct (session (this m)); reflexivity. Qed.

Lemma pause_sends_no_prompts (ctx : AudioContext) (m : Machine) :
  sent_prompts (snd (pause ctx m)) = [].
Proof. unfold pause. destruct (session (this m)); reflexivity. Qed.

Lemma no_active_prompts (h : Helper) :
  Forall (fun p => weight p == 0 \/ text p ∈ filteredPrompts h) (prompts h).*2 ->
  activePrompts h = [].
Proof.
  unfold activePrompts. induction 1 as [|p l Hp _ IH]; [reflexivity|].
  rewrite filter_cons, IH.
  destruct (decide _) as [Hact|]; [|reflexivity].
  apply andb_true_iff in Hact as [Hf Hw].
  apply negb_true_iff in Hf, Hw.
  destruct Hp as [Hp|Hp].
  - apply Qeq_bool_iff in Hp. congruence.
  - apply bool_decide_eq_false in Hf. contradiction.
Qed.

Lemma processAudioChunks_discards_idle (ctx : AudioContext)
    (audioChunks : list AudioChunk) (m : Machine) :
  playbackState (this m) = paused \/ playbackState (this m) = stopped ->
  processAudioChunks ctx audioChunks m = Some (m, []).
Proof.
  intros [H|H]; unfold processAudioChunks; rewrite H; reflexivity.
Qed.

(** C10.  In the state 'paused' or 'stopped', [processAudioChunks] returns
    at once, whatever the batch holds (text that would not decode, or no
    chunk at all, included): the machine is the same, cursor and state with
    it, and there is no effect, so nothing is decoded, scheduled, raised or
    kept. *)
Theorem processAudioChunks_discards_when_idle (ctx : AudioContext)
    (audioChunks : list AudioChunk) (m : Machine) :
  playbackState (this m) = paused \/ playbackState (this m) = stopped ->
  processAudioChunks ctx audioChunks m = Some (m, []).
Proof. apply processAudioChunks_discards_idle. Qed.

Lemma processAudioChunks_discards_when_idle_witness :
  processAudioChunks (audioContext 3) [ {| data := Some "AAAAAA=="%string |} ] new
  = Some (new, []).
Proof.
  apply processAudioChunks_discards_when_idle. right. reflexivity.
Defined.

(** C6.  When every prompt of the snapshot has weight zero or a filtered
    text, a run of [setWeightedPrompts] stores the snapshot, raises the
    'error' event, pauses, and ends in 'paused'; no prompt list is sent. *)
Theorem setWeightedPrompts_without_active_prompt (ctx : AudioContext)
    (snapshot : list (string * Prompt)) (reply : option string) (m : Machine) :
  Forall (fun p => weight p == 0 \/ text p ∈ filteredPrompts (this m))
         snapshot.*2 ->
  let stored := with_this (set_prompts snapshot) m in
  setWeightedPrompts ctx snapshot reply m
  = (fst (pause ctx stored),
     dispatchEvent (error NoActivePrompt) :: snd (pause ctx stored)) /\
  playbackState (this (fst (setWeightedPrompts ctx snapshot reply m))) = paused /\
  prompts (this (fst (setWeightedPrompts ctx snapshot reply m))) = snapshot /\
  sent_prompts (snd (setWeightedPrompts ctx snapshot reply m)) = [].
Proof.
  intros Hnone stored.
  assert (Hrun : setWeightedPrompts ctx snapshot reply m
                 = (fst (pause ctx stored),
                    dispatchEvent (error NoActivePrompt) :: snd (pause ctx stored))).
  { unfold setWeightedPrompts. cbn [assign fst snd].
    rewrite (no_active_prompts (this (with_this (set_prompts snapshot) m)))
      by exact Hnone.
    reflexivity. }
  rewrite Hrun. cbn [fst snd]. split; [reflexivity|]. split; [|split].
  - apply pause_state.
  - unfold pause, stored. destruct (session (this m)) eqn:Hs; cbn; rewrite Hs; reflexivity.
  - change (sent_prompts (snd (pause ctx stored)) = []).
    apply pause_sends_no_prompts.
Qed.

Lemma setWeightedPrompts_without_active_prompt_witness :
  playbackState
    (this (fst (setWeightedPrompts (audioContext 0)
                  [("prompt-1"%string, muted)] None new))) = paused.
Proof.
  destruct (setWeightedPrompts_without_active_prompt (audioContext 0)
              [("prompt-1"%string, muted)] None new) as (_ & Hpaused & _).
  - repeat constructor.
  - exact Hpaused.
Defined.

Lemma first_buffer_rate (ctx : AudioContext) (batch : list AudioChunk)
    (b : AudioBuffer) :
  first_buffer ctx batch = Some b -> buf_sampleRate b = 48000%Z.
Proof.
  unfold first_buffer. intros H.
  destruct (batch !! 0%nat) as [chunk|]; [|discriminate]. simpl in H.
  destruct (decode _) as [bytes|]; [|discriminate]. simpl in H.
  eapply AudioFacts.decodeAudioData_rate. exact H.
Qed.

Lemma duration_nonneg (ctx : AudioContext) (batch : list AudioChunk)
    (b : AudioBuffer) :
  first_buffer ctx batch = Some b -> 0 <= duration b.
Proof.
  intros H. unfold duration. rewrite (first_buffer_rate _ _ _ H).
  unfold Qle, Qdiv, Qmult, Qinv, inject_Z. simpl. lia.
Qed.

(** One chunk, by cases on the cursor. *)
Lemma chunk_step (ctx : AudioContext) (batch : list AudioChunk) (m : Machine)
    (b : AudioBuffer) :
  accepting m -> first_buffer ctx batch = Some b ->
  exists m' effects,
    processAudioChunks ctx batch m = Some (m', effects) /\
    outputNode (this m') = outputNode (this m) /\
    (if Qeq_bool (nextStartTime (this m)) 0
     then timers m' = S (timers m) /\
          In (setTimeout_playing (bufferTime * 1000)) effects
     else timers m' = timers m) /\
    (if Qlt_le_dec (cursor ctx m) (currentTime ctx)
     then scheduled effects = [] /\
          nextStartTime (this m') = 0 /\
          playbackState (this m') = loading
     else scheduled effects = [(b, cursor ctx m)] /\
          nextStartTime (this m') = cursor ctx m + duration b /\
          playbackState (this m') = playbackState (this m)).
Proof.
  intros Hacc Hb. unfold processAudioChunks, cursor.
  Local Opaque decodeAudioData.
  assert (Hgo : processAudioChunks ctx batch m
                = Some (let o := if Qeq_bool (nextStartTime (this m)) 0
                                 then assign (set_nextStartTime
                                                (currentTime ctx + bufferTime)) m
                                      >> arm_timer
                                 else (m, []) in
                        if Qlt_le_dec (nextStartTime (this (fst o)))
                                      (currentTime ctx)
                        then o >> setPlaybackState loading
                               >> assign (set_nextStartTime 0)
                        else o >> (fun m' =>
                                     emit [source_start (outputNode (this m)) b
                                             (nextStartTime (this m'))] m')
                               >> (fun m' =>
                                     assign (set_nextStartTime
                                               (nextStartTime (this m')
                                                + duration b)) m'))).
  { unfold processAudioChunks, first_buffer in *.
    destruct Hacc as [-> | ->];
      (destruct (batch !! 0%nat) as [chunk|]; [|discriminate]);
      simpl in Hb |- *;
      (destruct (decode _) as [bytes|]; [|discriminate]);
      simpl in Hb |- *; rewrite Hb; simpl;
      destruct (Qlt_le_dec _ _); reflexivity. }
  fold (processAudioChunks ctx batch m). rewrite Hgo. clear Hgo.
  destruct (Qeq_bool (nextStartTime (this m)) 0) eqn:Hunset;
    cbn [assign arm_timer andThen fst snd with_this this set_nextStartTime
         nextStartTime];
    destruct (Qlt_le_dec _ (currentTime ctx));
    do 2 eexists; (split; [reflexivity|]); cbn;
    repeat split; auto.
  Local Transparent decodeAudioData.
Qed.


Lemma scheduled_app (e1 e2 : list Effect) :
  scheduled (e1 ++ e2) = scheduled e1 ++ scheduled e2.
Proof. apply omap_app. Qed.

Lemma back_to_back_lookup (ds : list Q) :
  forall (t : Q) (k : nat) (s : Q),
    back_to_back t ds !! k = Some s -> s == t + Qsum (take k ds).
Proof.
  induction ds as [|d ds IH]; intros t k s H; [destruct k; discriminate|].
  destruct k as [|k]; simpl in H.
  - injection H as <-. simpl. ring.
  - apply IH in H. rewrite H. simpl. ring.
Qed.

Lemma back_to_back_length (ds : list Q) (t : Q) :
  length (back_to_back t ds) = length ds.
Proof. revert t. induction ds; intros; simpl; auto. Qed.

Lemma cursor_set (ctx : AudioContext) (m : Machine) :
  0 < nextStartTime (this m) ->
  Qeq_bool (nextStartTime (this m)) 0 = false /\
  cursor ctx m = nextStartTime (this m).
Proof.
  intros Hpos. unfold cursor.
  destruct (Qeq_bool (nextStartTime (this m)) 0) eqn:E; [|split; reflexivity].
  apply Qeq_bool_iff in E. rewrite E in Hpos. exfalso.
  exact (Qlt_irrefl 0 Hpos).
Qed.

(** A run of chunks against a cursor that is set and not yet reached. *)
Lemma feed_back_to_back (inputs : list (AudioContext * list AudioChunk))
    (buffers : list AudioBuffer) :
  Forall2 (fun i b => first_buffer i.1 i.2 = Some b) inputs buffers ->
  forall m : Machine,
    accepting m -> 0 < nextStartTime (this m) ->
    Forall2 (fun i s => currentTime i.1 <= s) inputs
            (back_to_back (nextStartTime (this m)) (duration <$> buffers)) ->
    exists m' effects,
      feed inputs m = Some (m', effects) /\
      scheduled effects
      = zip buffers (back_to_back (nextStartTime (this m)) (duration <$> buffers)) /\
      accepting m'.
Proof.
  induction 1 as [|[ctx batch] b inputs buffers Hb _ IH];
    intros m Hacc Hpos Hnow.
  - exists m, []. auto.
  - simpl in Hb, Hnow. inversion Hnow as [|? ? ? ? Hfirst Hrest]; subst.
    simpl in Hfirst.
    destruct (chunk_step ctx batch m b Hacc Hb)
      as (m1 & e1 & Hrun & _ & _ & Hcase).
    destruct (cursor_set ctx m Hpos) as [_ Hcur]. rewrite Hcur in Hcase.
    destruct (Qlt_le_dec (nextStartTime (this m)) (currentTime ctx)) as [Hlt|_].
    { exfalso. exact (Qlt_not_le _ _ Hlt Hfirst). }
    destruct Hcase as (Hsched & Hnext & Hstate).
    assert (Hacc1 : accepting m1) by (unfold accepting; rewrite Hstate; exact Hacc).
    assert (Hpos1 : 0 < nextStartTime (this m1)).
    { rewrite Hnext. apply Qlt_le_trans with (nextStartTime (this m) + 0).
      - rewrite Qplus_0_r. exact Hpos.
      - apply Qplus_le_r. exact (duration_nonneg _ _ _ Hb). }
    rewrite <- Hnext in Hrest.
    destruct (IH m1 Hacc1 Hpos1 Hrest) as (m' & e' & Hfeed & Hsched' & Hacc').
    exists m', (e1 ++ e'). split; [|split].
    + simpl. rewrite Hrun. simpl. rewrite Hfeed. reflexivity.
    + rewrite scheduled_app, Hsched, Hsched', Hnext. reflexivity.
    + exact Hacc'.
Qed.


(** C1.  For a chunk decoded in the state 'loading' or 'playing': an unset
    cursor is first set to the output clock plus the buffer horizon (and the
    timer is armed); when the cursor lies behind the clock the chunk is not
    scheduled, the cursor is unset and the state is 'loading'; otherwise the
    chunk starts exactly at the cursor, which advances by the chunk's
    duration.  Hence, from an unset cursor and while no chunk arrives after
    the cursor has elapsed, chunk [k] of a run starts at
    [t0 + sum (durations[0..k-1])], [t0] being the clock at the first chunk
    plus the horizon: each chunk starts where the one before it ends. *)
Theorem chunks_play_back_to_back :
  (forall (ctx : AudioContext) (batch : list AudioChunk) (m : Machine)
          (b : AudioBuffer),
     accepting m -> first_buffer ctx batch = Some b ->
     exists m' effects,
       processAudioChunks ctx batch m = Some (m', effects) /\
       (nextStartTime (this m) == 0 ->
        cursor ctx m = currentTime ctx + bufferTime /\
        timers m' = S (timers m)) /\
       (cursor ctx m < currentTime ctx ->
        scheduled effects = [] /\
        nextStartTime (this m') = 0 /\
        playbackState (this m') = loading) /\
       (currentTime ctx <= cursor ctx m ->
        scheduled effects = [(b, cursor ctx m)] /\
        nextStartTime (this m') = cursor ctx m + duration b /\
        playbackState (this m') = playbackState (this m)))
  /\
  (forall (ctx0 : AudioContext) (batch0 : list AudioChunk) (b0 : AudioBuffer)
          (rest : list (AudioContext * list AudioChunk))
          (buffers : list AudioBuffer) (m : Machine),
     accepting m -> nextStartTime (this m) == 0 -> 0 <= currentTime ctx0 ->
     Forall2 (fun i b => first_buffer i.1 i.2 = Some b)
             ((ctx0, batch0) :: rest) (b0 :: buffers) ->
     let t0 := currentTime ctx0 + bufferTime in
     let durations := duration <$> b0 :: buffers in
     Forall2 (fun i s => currentTime i.1 <= s)
             ((ctx0, batch0) :: rest) (back_to_back t0 durations) ->
     exists m' effects,
       feed ((ctx0, batch0) :: rest) m = Some (m', effects) /\
       scheduled effects = zip (b0 :: buffers) (back_to_back t0 durations) /\
       length (scheduled effects) = S (length rest) /\
       forall k s, (scheduled effects).*2 !! k = Some s ->
                   s == t0 + Qsum (take k durations)).
Proof.
  split.
  - intros ctx batch m b Hacc Hb.
    destruct (chunk_step ctx batch m b Hacc Hb)
      as (m' & effects & Hrun & _ & Htimer & Hcase).
    exists m', effects. split; [exact Hrun|]. split; [|split].
    + intros Hunset. apply Qeq_bool_iff in Hunset.
      unfold cursor. rewrite Hunset in Htimer |- *. split; [reflexivity|].
      apply Htimer.
    + intros Hlt.
      destruct (Qlt_le_dec (cursor ctx m) (currentTime ctx)) as [_|Hle];
        [exact Hcase|].
      exfalso. exact (Qlt_not_le _ _ Hlt Hle).
    + intros Hle.
      destruct (Qlt_le_dec (cursor ctx m) (currentTime ctx)) as [Hlt|_];
        [|exact Hcase].
      exfalso. exact (Qlt_not_le _ _ Hlt Hle).
  - intros ctx0 batch0 b0 rest buffers m Hacc Hunset Hclock Hbufs t0 durations
           Harrive.
    inversion Hbufs as [|? ? ? ? Hb0 Hbrest]; subst. simpl in Hb0.
    inversion Harrive as [|? ? ? ? _ Hrest]; subst.
    destruct (chunk_step ctx0 batch0 m b0 Hacc Hb0)
      as (m1 & e1 & Hrun & _ & _ & Hcase).
    apply Qeq_bool_iff in Hunset.
    assert (Hcur : cursor ctx0 m = t0) by (unfold cursor; rewrite Hunset; reflexivity).
    rewrite Hcur in Hcase.
    destruct (Qlt_le_dec t0 (currentTime ctx0)) as [Hlt|_].
    { exfalso. apply (Qlt_not_le _ _ Hlt). unfold t0, bufferTime.
      rewrite <- (Qplus_0_r (currentTime ctx0)) at 1.
      apply Qplus_le_r. discriminate. }
    destruct Hcase as (Hsched & Hnext & Hstate).
    assert (Hacc1 : accepting m1) by (unfold accepting; rewrite Hstate; exact Hacc).
    assert (Hpos1 : 0 < nextStartTime (this m1)).
    { rewrite Hnext. unfold t0, bufferTime.
      apply Qlt_le_trans with (0 + 2 + 0); [reflexivity|].
      apply Qplus_le_compat; [apply Qplus_le_compat; [exact Hclock | apply Qle_refl]|].
      exact (duration_nonneg _ _ _ Hb0). }
    rewrite <- Hnext in Hrest.
    destruct (feed_back_to_back rest buffers Hbrest m1 Hacc1 Hpos1 Hrest)
      as (m' & e' & Hfeed & Hsched' & _).
    assert (Hall : scheduled (e1 ++ e')
                   = zip (b0 :: buffers) (back_to_back t0 durations)).
    { rewrite scheduled_app, Hsched, Hsched', Hnext. reflexivity. }
    exists m', (e1 ++ e'). split; [|split; [|split]].
    + simpl. rewrite Hrun. simpl. rewrite Hfeed. reflexivity.
    + exact Hall.
    + rewrite Hall, length_zip, back_to_back_length.
      unfold durations. rewrite length_fmap. simpl.
      rewrite (Forall2_length _ _ _ Hbrest). lia.
    + intros k s Hk. rewrite Hall in Hk.
      rewrite snd_zip in Hk.
      * exact (back_to_back_lookup _ _ _ _ Hk).
      * rewrite back_to_back_length. unfold durations.
        rewrite length_fmap. reflexivity.
Qed.

(** The witness: two one-frame chunks, at clock 0 and at clock 1, after
    [play] was called on a new engine. *)
Lemma chunks_play_back_to_back_witness :
  exists m' effects,
    feed [(audioContext 0, [ {| data := Some "AAAAAA=="%string |} ]);
          (audioContext 1, [ {| data := Some "AAAAAA=="%string |} ])]
         (fst (play_called new)) = Some (m', effects) /\
    length (scheduled effects) = 2%nat.
Proof.
  destruct chunks_play_back_to_back as [_ Hrun].
  destruct (Hrun (audioContext 0) [ {| data := Some "AAAAAA=="%string |} ]
                 {| numberOfChannels := 2; buf_length := 1;
                    buf_sampleRate := 48000;
                    channels := [[Fin (0 # 32768)]; [Fin (0 # 32768)]] |}
                 [(audioContext 1, [ {| data := Some "AAAAAA=="%string |} ])]
                 [ {| numberOfChannels := 2; buf_length := 1;
                      buf_sampleRate := 48000;
                      channels := [[Fin (0 # 32768)]; [Fin (0 # 32768)]] |} ]
                 (fst (play_called new)))
    as (m' & effects & Hfeed & _ & Hlen & _).
  - left. reflexivity.
  - reflexivity.
  - discriminate.
  - repeat constructor; vm_compute; reflexivity.
  - repeat constructor; vm_compute; discriminate.
  - exists m', effects. split; [exact Hfeed | exact Hlen].
Defined.


(** C4: what [stop] does, in any state.  The state is 'stopped', the
    session (when there is one) is told to stop, cursor, session and promise
    are cleared, and the next [play] opens a connection that did not exist
    before.  The gain is set to 0 and then ramped UP to 1 over 0.1 s (the
    same two calls as in [play]), where [pause] sets 1 and ramps down to
    0. *)
Theorem stop_effects (ctx : AudioContext) (m : Machine) :
  let m' := fst (stop ctx m) in
  playbackState (this m') = stopped /\
  nextStartTime (this m') = 0 /\
  session (this m') = None /\
  sessionPromise (this m') = None /\
  snd (stop ctx m)
  = match session (this m) with
    | Some s => [session_stop s]
    | None => []
    end
    ++ [dispatchEvent (playback_state_changed stopped);
        gain_setValueAtTime (outputNode (this m)) 0 (currentTime ctx);
        gain_linearRampToValueAtTime (outputNode (this m)) 1
          (currentTime ctx + (1 # 10))] /\
  snd (play_called m')
  = [dispatchEvent (playback_state_changed loading); connect (connections m)] /\
  (forall message,
     playbackState (this (fst (onerror ctx message m))) = stopped) /\
  (forall event,
     playbackState (this (fst (onclose ctx event m))) = stopped) /\
  snd (pause ctx m)
  = match session (this m) with
    | Some s => [session_pause s]
    | None => []
    end
    ++ [dispatchEvent (playback_state_changed paused);
        gain_setValueAtTime (outputNode (this m)) 1 (currentTime ctx);
        gain_linearRampToValueAtTime (outputNode (this m)) 0
          (currentTime ctx + (1 # 10));
        createGain (nodes m)].
Proof.
  unfold stop, pause, onerror, onclose.
  destruct (session (this m)) as [s|] eqn:Hs; cbn; rewrite ?Hs; cbn;
    repeat split; reflexivity.
Qed.

(** A playing engine with an open session, one second after its first
    chunk: at [stop] the gain goes to 0 and is then ramped to 1. *)
Example stop_while_playing :
  let playing_engine :=
    started ++ [server_message (audioContext 0) (message_of [one_frame]);
                timer_due] in
  state_after playing_engine = Some playing /\
  observe playing_engine (stop_call (audioContext 1))
  = Some (stopped, [],
          [session_stop 0; dispatchEvent (playback_state_changed stopped);
           gain_setValueAtTime 0 0 1;
           gain_linearRampToValueAtTime 0 1 (11 # 10)]).
Proof. split; vm_compute; reflexivity. Qed.


(** The part of [onmessage] that runs before the chunks leaves the
    scheduler's variables alone. *)
Lemma processAudioChunks_decodes (ctx : AudioContext)
    (batch : list AudioChunk) (m : Machine) (o : Outcome) :
  accepting m -> processAudioChunks ctx batch m = Some o ->
  exists b, first_buffer ctx batch = Some b.
Proof.
  unfold processAudioChunks, first_buffer.
  intros [Hps|Hps]; rewrite Hps;
    (destruct (batch !! 0%nat) as [chunk|]; [|discriminate]); simpl;
    (destruct (decode _) as [bytes|]; [|discriminate]); simpl;
    (destruct (decodeAudioData bytes ctx 48000 2) as [b|]; [|discriminate]);
    intros _; exists b; reflexivity.
Qed.

Lemma processAudioChunks_shape (ctx : AudioContext)
    (batch : list AudioChunk) (m m' : Machine) (e : list Effect) :
  processAudioChunks ctx batch m = Some (m', e) ->
  (playbackState (this m') = playbackState (this m) \/
   playbackState (this m') = loading) /\
  (timers m' = timers m \/ timers m' = S (timers m) /\ accepting m).
Proof.
  intros H.
  destruct (playbackState (this m)) eqn:Hps.
  - rewrite processAudioChunks_discards_idle in H by (right; exact Hps).
    injection H as <- <-. rewrite Hps. auto.
  - assert (Hacc : accepting m) by (right; exact Hps).
    destruct (processAudioChunks_decodes _ _ _ _ Hacc H) as [b Hb].
    destruct (chunk_step ctx batch m b Hacc Hb)
      as (m1 & e1 & Hrun & _ & Htimer & Hcase).
    rewrite Hrun in H. injection H as <- <-. split.
    + destruct (Qlt_le_dec _ _); destruct Hcase as (_ & _ & ->);
        rewrite ?Hps; auto.
    + destruct (Qeq_bool _ _); [right; split; [apply Htimer | exact Hacc]
                               | left; exact Htimer].
  - assert (Hacc : accepting m) by (left; exact Hps).
    destruct (processAudioChunks_decodes _ _ _ _ Hacc H) as [b Hb].
    destruct (chunk_step ctx batch m b Hacc Hb)
      as (m1 & e1 & Hrun & _ & Htimer & Hcase).
    rewrite Hrun in H. injection H as <- <-. split.
    + destruct (Qlt_le_dec _ _); destruct Hcase as (_ & _ & ->);
        rewrite ?Hps; auto.
    + destruct (Qeq_bool _ _); [right; split; [apply Htimer | exact Hacc]
                               | left; exact Htimer].
  - rewrite processAudioChunks_discards_idle in H by (left; exact Hps).
    injection H as <- <-. rewrite Hps. auto.
Qed.

(** [onmessage] with a batch is [processAudioChunks] on a machine whose
    scheduler variables are those of the machine it was called on. *)
Lemma onmessage_chunks (ctx : AudioContext) (e : LiveMusicServerMessage)
    (chunks : list AudioChunk) (m : Machine) :
  audioChunks e = Some chunks ->
  exists m0 e0,
    playbackState (this m0) = playbackState (this m) /\
    nextStartTime (this m0) = nextStartTime (this m) /\
    timers m0 = timers m /\
    scheduled e0 = [] /\
    onmessage ctx e m
    = (o' ← processAudioChunks ctx chunks m0; Some (fst o', e0 ++ snd o')).
Proof.
  intros Hch. unfold onmessage. rewrite Hch.
  match goal with
  | |- context [processAudioChunks ctx chunks (fst ?o)] =>
      exists (fst o), (snd o)
  end.
  destruct (setupComplete e), (filteredPrompt e); repeat split; reflexivity.
Qed.

Lemma onmessage_no_chunks (ctx : AudioContext) (e : LiveMusicServerMessage)
    (m : Machine) :
  audioChunks e = None ->
  exists m0 e0,
    onmessage ctx e m = Some (m0, e0) /\
    playbackState (this m0) = playbackState (this m) /\
    timers m0 = timers m.
Proof.
  intros Hch. unfold onmessage. rewrite Hch.
  destruct (setupComplete e), (filteredPrompt e);
    do 2 eexists; repeat split; reflexivity.
Qed.







Lemma setWeightedPrompts_state (ctx : AudioContext)
    (snapshot : list (string * Prompt)) (reply : option string) (m : Machine) :
  (playbackState (this (fst (setWeightedPrompts ctx snapshot reply m)))
   = playbackState (this m) \/
   playbackState (this (fst (setWeightedPrompts ctx snapshot reply m)))
   = paused) /\
  timers (fst (setWeightedPrompts ctx snapshot reply m)) = timers m.
Proof.
  unfold setWeightedPrompts. cbn [assign fst snd].
  destruct (Nat.eqb _ 0).
  - unfold pause. cbn. destruct (session (this m)); cbn; auto.
  - cbn [with_this this set_prompts session].
    destruct (session (this m)) eqn:Hs; [|cbn; auto].
    destruct reply; [|cbn; auto].
    unfold pause. cbn. rewrite Hs. cbn. auto.
Qed.

Lemma outcome_eq (o : Outcome) (m : Machine) (e : list Effect) :
  Some o = Some (m, e) -> m = fst o /\ e = snd o.
Proof. intros H. injection H as ->. split; reflexivity. Qed.

(** What one step can do to the playback state and to the pending timers:
    only a timer that falls due sets 'playing', and only a server message
    received while audio is accepted arms a timer. *)
Lemma step_state (i : Input) (m m' : Machine) (effects : list Effect) :
  step i m = Some (m', effects) ->
  (playbackState (this m') = playing ->
   i = timer_due \/ playbackState (this m) = playing) /\
  (timers m < timers m' ->
   accepting m /\ exists ctx e, i = server_message ctx e)%nat.
Proof.
  destruct i; simpl; intros H; try (apply outcome_eq in H as [-> ->]).
  - unfold play_called, getSession. cbn.
    destruct (sessionPromise (this m)); cbn; split; (discriminate || lia).
  - unfold play_connected. cbn [assign andThen fst snd].
    match goal with
    | |- context [setWeightedPrompts ?c ?s ?r ?x] =>
        destruct (setWeightedPrompts_state c s r x) as [[-> | ->] ->]
    end; cbn; split; (auto || discriminate || lia).
  - unfold play_resumed. destruct (session (this m)); cbn;
      split; (auto || discriminate || lia).
  - cbn. split; (discriminate || lia).
  - unfold pause. destruct (session (this m)); cbn;
      split; (discriminate || lia).
  - unfold stop. destruct (session (this m)); cbn;
      split; (discriminate || lia).
  - unfold playPause, pause, stop, play_called, getSession.
    destruct (playbackState (this m)) eqn:Hps; cbn;
      destruct (session (this m)); cbn;
      destruct (sessionPromise (this m)); cbn;
      split; (discriminate || lia).
  - destruct (setWeightedPrompts_state ctx snapshot reply m) as [[-> | ->] ->];
      split; (auto || discriminate || lia).
  - destruct (audioChunks e) as [chunks|] eqn:Hch.
    + destruct (onmessage_chunks ctx e chunks m Hch)
        as (m0 & e0 & Hps & _ & Htm & _ & Hrun).
      rewrite Hrun in H.
      destruct (processAudioChunks ctx chunks m0) as [[m1 e1]|] eqn:Hp;
        [|discriminate].
      simpl in H. injection H as <- <-.
      destruct (processAudioChunks_shape _ _ _ _ _ Hp) as [Hst Htimers].
      rewrite Hps, Htm in *. split.
      * intros Hplaying. right. destruct Hst as [Hst|Hst]; congruence.
      * intros Hgrow. destruct Htimers as [Heq | [_ Hacc]]; [lia|].
        split; [|eauto]. unfold accepting in *. rewrite <- Hps. exact Hacc.
    + destruct (onmessage_no_chunks ctx e m Hch) as (m0 & e0 & Hrun & Hps & Htm).
      rewrite Hrun in H. injection H as <- <-. rewrite Hps, Htm.
      split; [auto | lia].
  - unfold onerror, stop. cbn. destruct (session (this m)); cbn;
      split; (discriminate || lia).
  - unfold onclose, stop. cbn. destruct (session (this m)); cbn;
      split; (discriminate || lia).
  - destruct (Nat.eqb (timers m) 0) eqn:Ht; [discriminate|].
    apply outcome_eq in H as [-> ->]. cbn. split; [auto | lia].
  - cbn. split; [auto | lia].
  - cbn. split; [auto | lia].
Qed.

(** C2 (as amended).  [play] enters 'loading' before anything else, from any
    state; [stop] ends in 'stopped', from any state, and leaves the pending
    timers pending; no call and no message sets 'playing': the state becomes
    'playing' only when a buffer-horizon timer falls due, and then whatever
    the state was; a timer is armed only by a server message received in the
    state 'loading' or 'playing'. *)
Theorem playback_state_transitions (i : Input) (m m' : Machine)
    (effects : list Effect) :
  step i m = Some (m', effects) ->
  (i = play_call ->
   playbackState (this m') = loading /\
   head effects = Some (dispatchEvent (playback_state_changed loading))) /\
  (forall ctx, i = stop_call ctx ->
   playbackState (this m') = stopped /\ timers m' = timers m) /\
  (playbackState (this m') = playing ->
   i = timer_due \/ playbackState (this m) = playing) /\
  (i = timer_due ->
   playbackState (this m') = playing /\ S (timers m') = timers m) /\
  (timers m < timers m' ->
   accepting m /\ exists ctx e, i = server_message ctx e)%nat.
Proof.
  intros H. destruct (step_state i m m' effects H) as [Hplaying Harm].
  split; [|split; [|split; [|split]]]; auto.
  - intros ->. simpl in H. injection H as <- <-.
    unfold getSession. cbn.
    destruct (sessionPromise (this m)); split; reflexivity.
  - intros ctx ->. simpl in H. apply outcome_eq in H as [-> ->].
    unfold stop. destruct (session (this m)); split; reflexivity.
  - intros ->. simpl in H.
    destruct (Nat.eqb_spec (timers m) 0) as [|Hne]; [discriminate|].
    apply outcome_eq in H as [-> ->]. cbn. split; [reflexivity | lia].
Qed.

Lemma playback_state_transitions_witness :
  playbackState (this (fst (play_called new))) = loading /\
  head (snd (play_called new))
  = Some (dispatchEvent (playback_state_changed loading)).
Proof.
  destruct (playback_state_transitions play_call new (fst (play_called new))
              (snd (play_called new))) as (Hplay & _).
  - reflexivity.
  - apply Hplay. reflexivity.
Defined.

(** C2, as stated, fails.  The timer that the first chunk arms is still
    pending after [stop]; when it falls due the state goes from 'stopped'
    straight to 'playing'. *)
Lemma timer_outlives_stop :
  let stopped_engine :=
    started ++ [server_message (audioContext 0) (message_of [one_frame]);
                stop_call (audioContext 1)] in
  state_after stopped_engine = Some stopped /\
  observe stopped_engine timer_due
  = Some (playing, [], [dispatchEvent (playback_state_changed playing)]).
Proof. split; vm_compute; reflexivity. Qed.

End LiveFacts.

Module RendererFacts.
Import Types Protocol Audio LongMusicGenerator RendererSpec.

(** *** The callbacks *)

Lemma processAudioChunks_pushes (chunks : list AudioChunk) :
  forall g : Generator,
    snd (processAudioChunks chunks g)
    = set_audioData (audioData g ++ decoded_of_batch chunks) g.
Proof.
  induction chunks as [|chunk rest IH]; intros g; simpl.
  - rewrite app_nil_r. destruct g; reflexivity.
  - destruct (truthy (data chunk)); [|apply IH].
    destruct (decode _) as [bytes|]; simpl.
    + rewrite IH. simpl. rewrite <- app_assoc. reflexivity.
    + rewrite app_nil_r. destruct g; reflexivity.
Qed.

Lemma onmessage_pushes (e : LiveMusicServerMessage) (g : Generator) :
  onmessage e g = set_audioData (audioData g ++ decoded_of_message e) g.
Proof.
  unfold onmessage, decoded_of_message. destruct (audioChunks e).
  - apply processAudioChunks_pushes.
  - rewrite app_nil_r. destruct g; reflexivity.
Qed.

Lemma arrivals_push (messages : list LiveMusicServerMessage) :
  forall g : Generator,
    foldl (fun g e => onmessage e g) g messages
    = set_audioData (audioData g ++ flat_map decoded_of_message messages) g.
Proof.
  induction messages as [|e rest IH]; intros g; simpl.
  - rewrite app_nil_r. destruct g; reflexivity.
  - rewrite IH, onmessage_pushes. simpl. rewrite <- app_assoc. reflexivity.
Qed.

Lemma received_app (t1 t2 : list Tick) :
  received (t1 ++ t2) = received t1 ++ received t2.
Proof. unfold received. apply flat_map_app. Qed.

Lemma awaits_app (a1 a2 : list Action) :
  awaits (a1 ++ a2) = awaits a1 + awaits a2.
Proof.
  induction a1 as [|a a1 IH]; simpl; [reflexivity|]. rewrite IH. lia.
Qed.

(** One wait: the head of the script is consumed and what it carries is
    pushed. *)
Lemma elapse_spec (g : Generator) (w : World) :
  snd (elapse (g, w))
  = (set_audioData (audioData g ++ received (take 1 (script w))) g,
     {| script := drop 1 (script w); trace := trace w;
        connections := connections w |}) /\
  fst (elapse (g, w)) = head (script w) ≫= failure.
Proof.
  unfold elapse. simpl. destruct (script w) as [|tick rest] eqn:Hs; simpl.
  - rewrite app_nil_r. split; [|reflexivity].
    destruct g, w; simpl in *; subst; reflexivity.
  - rewrite arrivals_push, drop_0. unfold received. simpl.
    rewrite app_nil_r. split; reflexivity.
Qed.


(** *** Sequencing *)

Lemma ran_refl (s : State) : Ran s s [].
Proof.
  split; simpl; try reflexivity.
  - rewrite app_nil_r. reflexivity.
  - rewrite app_nil_r. reflexivity.
Qed.

Lemma ran_trans (s s1 s2 : State) (a1 a2 : list Action) :
  Ran s s1 a1 -> Ran s1 s2 a2 -> Ran s s2 (a1 ++ a2).
Proof.
  intros [T1 S1 A1 C1 B1 N1] [T2 S2 A2 C2 B2 N2]. split.
  - rewrite T2, T1, app_assoc. reflexivity.
  - rewrite S2, S1, awaits_app, drop_drop. reflexivity.
  - rewrite A2, A1, S1, awaits_app, <- app_assoc, <- received_app,
      take_take_drop. reflexivity.
  - congruence.
  - congruence.
  - congruence.
Qed.

Lemma unfailing_drop (k : nat) (ticks : list Tick) :
  unfailing ticks -> unfailing (drop k ticks).
Proof. apply Forall_drop. Qed.

Lemma does_ret {A : Type} (a : A) (conn : nat) : Does (ret a) conn [].
Proof.
  intros s Hs. split.
  - intros a' s' H. injection H as <- <-. apply ran_refl.
  - intros _. exists a, s. reflexivity.
Qed.

Lemma does_bind {A B : Type} (P : M A) (f : A -> M B) (conn : nat)
    (a1 a2 : list Action) :
  Does P conn a1 -> (forall a, Does (f a) conn a2) ->
  Does (bind P f) conn (a1 ++ a2).
Proof.
  intros HP Hf s Hs. destruct (HP s Hs) as [HPran HPok]. unfold bind. split.
  - intros b s' H. destruct (P s) as [[a|e] s1] eqn:HPs; [|discriminate].
    pose proof (HPran a s1 eq_refl) as R1.
    assert (Hs1 : session (fst s1) = Some conn)
      by (rewrite (ran_session _ _ _ R1); exact Hs).
    destruct (Hf a s1 Hs1) as [Hfran _].
    exact (ran_trans _ _ _ _ _ R1 (Hfran b s' H)).
  - intros Hun. destruct (HPok Hun) as (a & s1 & HPs). rewrite HPs.
    pose proof (HPran a s1 HPs) as R1.
    assert (Hs1 : session (fst s1) = Some conn)
      by (rewrite (ran_session _ _ _ R1); exact Hs).
    destruct (Hf a s1 Hs1) as [_ Hfok]. apply Hfok.
    rewrite (ran_script _ _ _ R1). apply unfailing_drop. exact Hun.
Qed.

(** *** The primitives *)

Lemma does_dispatch (a : Action) (conn : nat) :
  is_await a = false -> Does (dispatch a) conn [a].
Proof.
  intros Ha s Hs. split.
  - intros [] s' H. unfold dispatch in H. injection H as <-.
    split; simpl; try reflexivity.
    + rewrite Ha. simpl. rewrite drop_0. reflexivity.
    + rewrite Ha. simpl. rewrite app_nil_r. reflexivity.
  - intros _. do 2 eexists. reflexivity.
Qed.

Lemma elapsed_ran (g : Generator) (w : World) (a : Action) :
  is_await a = true ->
  Ran (g, w) (snd (elapse (g, log a w))) [a].
Proof.
  intros Ha. destruct (elapse_spec g (log a w)) as [-> _].
  split; simpl; rewrite ?Ha; reflexivity.
Qed.

Lemma does_await_sleep (ms : Q) (conn : nat) :
  Does (await_sleep ms) conn [sleep ms].
Proof.
  intros [g w] Hs. unfold await_sleep. split.
  - intros [] s' H. injection H as <-. simpl.
    apply elapsed_ran. reflexivity.
  - intros _. do 2 eexists. reflexivity.
Qed.

Lemma does_await_session (command : nat -> Action) (conn : nat) :
  is_await (command conn) = true ->
  Does (await_session command) conn [command conn].
Proof.
  intros Ha [g w] Hs. unfold await_session. simpl in *. rewrite Hs. split.
  - intros [] s' H.
    pose proof (elapsed_ran g w (command conn) Ha) as R.
    destruct (elapse (g, log (command conn) w)) as [[m|] s1];
      [discriminate|]. injection H as <-. exact R.
  - intros Hun.
    destruct (elapse_spec g (log (command conn) w)) as [_ Hfail].
    destruct (elapse (g, log (command conn) w)) as [[m|] s1].
    + exfalso. simpl in Hfail.
      destruct (script w) as [|t r]; [discriminate|].
      inversion Hun as [|? ? Ht _]; subst. simpl in Hfail. congruence.
    + do 2 eexists. reflexivity.
Qed.


(** *** The stanzas *)

Lemma rebuild_prompts (l : list WeightedPrompt) :
  map (fun p => {| wp_text := wp_text p; wp_weight := wp_weight p |}) l = l.
Proof.
  induction l as [|[t w] l IH]; simpl; [reflexivity|]. rewrite IH. reflexivity.
Qed.

Lemma drop_cons_inv {A : Type} (l : list A) (i : nat) (x : A) (rest : list A) :
  drop i l = x :: rest ->
  l !! i = Some x /\ drop (S i) l = rest /\ head rest = l !! (S i).
Proof.
  intros H.
  assert (Hx : l !! i = Some x).
  { rewrite <- (Nat.add_0_r i), <- lookup_drop, H. reflexivity. }
  assert (Hd : drop (S i) l = rest).
  { rewrite (drop_S l x i Hx) in H. congruence. }
  repeat split; try assumption.
  rewrite <- Hd, head_lookup, lookup_drop, Nat.add_0_r. reflexivity.
Qed.

(** The code's translation and its test at a stanza boundary are those of
    the specification. *)
Lemma translate_expected (c : MusicStanzaConfig) :
  translate c = expected_config c.
Proof.
  unfold translate, expected_config, truthy.
  destruct (scale c) as [[|a t]|]; reflexivity.
Qed.

Lemma context_differs_expected (nextStanza stanza : MusicStanza) :
  context_differs nextStanza stanza
  = differs_in_bpm_or_scale stanza nextStanza.
Proof.
  unfold context_differs, differs_in_bpm_or_scale, bpm_of, scale_of.
  f_equal.
  - destruct (config nextStanza) as [c'|], (config stanza) as [c|];
      cbn [mbind option_bind];
      try destruct (bpm c') as [x|]; try destruct (bpm c) as [y|];
      try reflexivity.
    cbn [number_differs same_bpm]. f_equal.
    destruct (Qeq_bool x y) eqn:E, (Qeq_bool y x) eqn:E'; try reflexivity.
    + apply Qeq_bool_iff in E. symmetry in E. apply Qeq_bool_iff in E.
      congruence.
    + apply Qeq_bool_iff in E'. symmetry in E'. apply Qeq_bool_iff in E'.
      congruence.
  - destruct (config nextStanza) as [c'|], (config stanza) as [c|];
      cbn [mbind option_bind];
      try destruct (scale c') as [x|]; try destruct (scale c) as [y|];
      try reflexivity.
    cbn [string_differs same_scale]. f_equal.
    destruct (string_dec y x) as [->|Hne].
    + apply String.eqb_refl.
    + apply String.eqb_neq. congruence.
Qed.

Lemma does_stanza_body (musicPlan : MusicPlan) (i : nat) (stanza : MusicStanza)
    (conn : nat) :
  Does (stanza_body musicPlan i stanza) conn
       (expected_stanza conn (length (stanzas musicPlan)) i stanza
                        (stanzas musicPlan !! S i)).
Proof.
  unfold stanza_body, expected_stanza. rewrite rebuild_prompts.
  change ([?a; ?b] ++ ?X) with ([a] ++ ([b] ++ X)).
  apply does_bind; [apply does_dispatch; reflexivity|]. intros _.
  apply does_bind; [apply does_await_session; reflexivity|]. intros _.
  apply does_bind.
  { destruct (config stanza) as [c|]; [|apply does_ret].
    rewrite <- translate_expected. apply does_await_session; reflexivity. }
  intros _. apply does_bind.
  { destruct (Nat.eqb i 0);
      [apply does_await_session; reflexivity | apply does_ret]. }
  intros _. apply does_bind; [apply does_await_sleep|]. intros _.
  rewrite Nat.add_1_r.
  destruct (Nat.ltb_spec i (length (stanzas musicPlan) - 1)) as [Hlt|Hge].
  - destruct (lookup_lt_is_Some_2 (stanzas musicPlan) (S i)) as [next Hn];
      [lia|]. rewrite Hn. rewrite <- context_differs_expected.
    destruct (context_differs next stanza); [|apply does_ret].
    change [session_pause conn; sleep 100; session_play conn]
      with ([session_pause conn] ++ ([sleep 100] ++ [session_play conn])).
    apply does_bind; [apply does_await_session; reflexivity|]. intros _.
    apply does_bind; [apply does_await_sleep|]. intros _.
    apply does_await_session; reflexivity.
  - rewrite (lookup_ge_None_2 (stanzas musicPlan) (S i)) by lia.
    apply does_ret.
Qed.

Lemma does_stanza_loop (musicPlan : MusicPlan) (conn : nat) :
  forall (remaining : list MusicStanza) (i : nat),
    drop i (stanzas musicPlan) = remaining ->
    Does (stanza_loop musicPlan i remaining) conn
         (expected_stanzas conn (length (stanzas musicPlan)) i remaining).
Proof.
  induction remaining as [|stanza rest IH]; intros i Hdrop;
    cbn [stanza_loop expected_stanzas].
  - apply does_ret.
  - destruct (drop_cons_inv _ _ _ _ Hdrop) as (_ & Hrest & ->).
    apply does_bind; [apply does_stanza_body|]. intros _.
    apply IH. exact Hrest.
Qed.


(** *** Typed arrays and the file *)

Lemma store_from_middle (source : list byte) :
  forall before middle after : list byte,
    length middle = length source ->
    store_from (length before) source (before ++ middle ++ after)
    = before ++ source ++ after.
Proof.
  induction source as [|x source IH]; intros before [|y middle] after Hlen;
    simpl in *; try discriminate; try reflexivity.
  rewrite insert_app_r_alt, Nat.sub_diag by lia. simpl.
  specialize (IH (before ++ [x]) middle after).
  rewrite length_app, <- !app_assoc in IH. simpl in IH.
  rewrite Nat.add_1_r in IH. apply IH. lia.
Qed.

Lemma total_length (arrays : list Uint8Array) (n : nat) :
  foldl (fun sum arr => sum + length arr) n arrays
  = n + length (concat arrays).
Proof.
  revert n. induction arrays as [|arr arrays IH]; intros n; simpl; [lia|].
  rewrite IH, length_app. lia.
Qed.

Lemma combine_from_middle (arrays : list Uint8Array) :
  forall before after : list byte,
    combine_from (length before) arrays
      (before ++ replicate (length (concat arrays)) "000"%byte ++ after)
    = Some (before ++ concat arrays ++ after).
Proof.
  induction arrays as [|arr arrays IH]; intros before after; simpl;
    [reflexivity|].
  unfold typed_set.
  rewrite (length_app arr), replicate_add, <- app_assoc.
  destruct (Nat.leb_spec (length before + length arr)
              (length (before ++ replicate (length arr) "000"%byte
                       ++ replicate (length (concat arrays)) "000"%byte
                       ++ after))) as [_|Hgt].
  - simpl.
    rewrite (store_from_middle arr before (replicate (length arr) "000"%byte))
      by apply length_replicate.
    replace (length before + length arr) with (length (before ++ arr))
      by apply length_app.
    rewrite (app_assoc before arr), IH, <- !app_assoc. reflexivity.
  - rewrite !length_app, length_replicate in Hgt. lia.
Qed.

(** The arrays are joined end to end. *)
Lemma combine_concat (arrays : list Uint8Array) :
  combine arrays = Some (concat arrays).
Proof.
  unfold combine. rewrite total_length. simpl.
  pose proof (combine_from_middle arrays [] []) as H.
  simpl in H. rewrite !app_nil_r in H. exact H.
Qed.

Lemma typed_set_after (source before middle : list byte) (offset : nat) :
  offset = length before -> length middle = length source ->
  typed_set source offset (before ++ middle) = Some (before ++ source).
Proof.
  intros -> Hlen. unfold typed_set.
  rewrite length_app, Hlen, Nat.leb_refl.
  pose proof (store_from_middle source before middle [] Hlen) as H.
  rewrite !app_nil_r in H. rewrite H. reflexivity.
Qed.

Lemma to_double_exact (z : Z) :
  (Z.abs z < 2 ^ 53)%Z -> to_double z = z.
Proof.
  intros H. unfold to_double. apply Z.ltb_lt in H. rewrite H. reflexivity.
Qed.

(** [createWavFile] never throws; where its products are exact, the file
    is the header and the samples. *)
Lemma createWavFile_bytes (pcmData : Uint8Array) (sampleRate numChannels : Z) :
  (Z.abs (sampleRate * numChannels * 2) < 2 ^ 53)%Z ->
  (Z.abs (numChannels * 2) < 2 ^ 53)%Z ->
  createWavFile pcmData sampleRate numChannels
  = Some {| blob_bytes := wav_header sampleRate numChannels (length pcmData)
                          ++ pcmData;
            blob_type := "audio/wav" |}.
Proof.
  intros Hrate' Halign'.
  unfold createWavFile, times.
  rewrite (to_double_exact (sampleRate * numChannels)) by lia.
  rewrite (to_double_exact (sampleRate * numChannels * 2)) by exact Hrate'.
  rewrite (to_double_exact (numChannels * 2)) by exact Halign'.
  change (replicate (44 + length pcmData) "000"%byte)
    with (replicate 44 "000"%byte ++ replicate (length pcmData) "000"%byte).
  set (samples := replicate (length pcmData) "000"%byte).
  assert (Hs : length samples = length pcmData) by apply length_replicate.
  clearbody samples.
  remember (36 + Z.of_nat (length pcmData))%Z as riff eqn:Hriff.
  remember (Z.of_nat (length pcmData)) as size eqn:Hsize.
  remember (sampleRate * numChannels * 2)%Z as byteRate eqn:Hrate.
  remember (numChannels * 2)%Z as blockAlign eqn:Halign.
  Local Opaque byte_of_Z.
  cbn -[typed_set].
  Local Transparent byte_of_Z.
  subst riff size byteRate blockAlign.
  match goal with
  | |- context [typed_set pcmData 44 ?view] =>
      change view
        with (wav_header sampleRate numChannels (length pcmData) ++ samples)
  end.
  rewrite (typed_set_after pcmData
             (wav_header sampleRate numChannels (length pcmData))
             samples 44 eq_refl Hs).
  reflexivity.
Qed.


Lemma byte_of_Z_value (z : Z) :
  Z.of_N (Byte.to_N (byte_of_Z z)) = (z mod 256)%Z.
Proof.
  unfold byte_of_Z.
  pose proof (Z.mod_pos_bound z 256 eq_refl) as Hb.
  assert (Hn : (Z.to_N (z mod 256) < 256)%N) by lia.
  pose proof (byte_of_ascii_via_N (ascii_of_N (Z.to_N (z mod 256)))) as H.
  rewrite (N_ascii_embedding _ Hn) in H. symmetry in H.
  apply Byte.to_of_N in H. rewrite H. lia.
Qed.

Lemma u8_at_app (before l : list byte) (k : nat) :
  u8_at (length before + k) (before ++ l) = u8_at k l.
Proof.
  unfold u8_at. rewrite lookup_app_r by lia.
  replace (length before + k - length before) with k by lia. reflexivity.
Qed.

Lemma u16_le16 (v : Z) (before after : list byte) (offset : nat) :
  offset = length before ->
  u16_at offset (before ++ le16 v ++ after) = Some (v mod 65536)%Z.
Proof.
  intros ->. unfold u16_at.
  rewrite <- (Nat.add_0_r (length before)) at 1.
  rewrite !u8_at_app. unfold u8_at. simpl.
  rewrite !byte_of_Z_value. f_equal.
  Z.div_mod_to_equations. lia.
Qed.

Lemma u32_le32 (v : Z) (before after : list byte) (offset : nat) :
  offset = length before ->
  u32_at offset (before ++ le32 v ++ after) = Some (v mod 4294967296)%Z.
Proof.
  intros ->. unfold u32_at.
  assert (Hlo : u16_at (length before) (before ++ le32 v ++ after)
                = Some (v mod 65536)%Z).
  { apply (u16_le16 v before
             ([byte_of_Z (v / 65536); byte_of_Z (v / 16777216)] ++ after)).
    reflexivity. }
  assert (Hhi : u16_at (length before + 2) (before ++ le32 v ++ after)
                = Some ((v / 65536) mod 65536)%Z).
  { unfold le32.
    replace (byte_of_Z (v / 16777216)) with (byte_of_Z (v / 65536 / 256))
      by (rewrite Z.div_div by lia; reflexivity).
    match goal with
    | |- u16_at _ ?l = _ =>
        replace l with ((before ++ le16 v) ++ le16 (v / 65536) ++ after)
          by (rewrite <- app_assoc; reflexivity)
    end.
    apply (u16_le16 (v / 65536) (before ++ le16 v) after).
    rewrite length_app. reflexivity. }
  rewrite Hlo, Hhi. simpl. f_equal.
  Z.div_mod_to_equations. lia.
Qed.


(** The fields of the header, as a reader of the file finds them. *)
Lemma wav_header_fields (sampleRate numChannels : Z) (pcmData : Uint8Array) :
  let file := wav_header sampleRate numChannels (length pcmData) ++ pcmData in
  take 4 file = ["R"; "I"; "F"; "F"]%byte /\
  u32_at 4 file = Some ((36 + Z.of_nat (length pcmData)) mod 4294967296)%Z /\
  take 8 (drop 8 file) = ["W"; "A"; "V"; "E"; "f"; "m"; "t"; " "]%byte /\
  u32_at 16 file = Some 16%Z /\
  u16_at 20 file = Some 1%Z /\
  u16_at 22 file = Some (numChannels mod 65536)%Z /\
  u32_at 24 file = Some (sampleRate mod 4294967296)%Z /\
  u32_at 28 file = Some ((sampleRate * numChannels * 2) mod 4294967296)%Z /\
  u16_at 32 file = Some ((numChannels * 2) mod 65536)%Z /\
  u16_at 34 file = Some 16%Z /\
  take 4 (drop 36 file) = ["d"; "a"; "t"; "a"]%byte /\
  u32_at 40 file = Some (Z.of_nat (length pcmData) mod 4294967296)%Z /\
  drop 44 file = pcmData /\
  length file = 44 + length pcmData.
Proof.
  intros file. subst file.
  repeat split; try reflexivity;
    try (unfold u32_at, u16_at, u8_at, wav_header, le32, le16;
         cbn [app lookup list_lookup mbind option_bind Init.Nat.add];
         rewrite !byte_of_Z_value; f_equal;
         Z.div_mod_to_equations; lia).
Qed.

(** *** [generateMusic] *)

Lemma bind_ok {A B : Type} (P : M A) (f : A -> M B) (s s' : State) (b : B) :
  bind P f s = (Ok b, s') ->
  exists a s1, P s = (Ok a, s1) /\ f a s1 = (Ok b, s').
Proof.
  unfold bind. destruct (P s) as [[a|e] s1]; [|discriminate].
  intros H. exists a, s1. auto.
Qed.

Lemma does_update (f : Generator -> Generator) (s : State) :
  update f s = (Ok tt, (f (fst s), snd s)).
Proof. reflexivity. Qed.

Lemma package_spec (s : State) :
  package s
  = (Ok {| blob_bytes := wav_header 48000 2 (length (concat (audioData (fst s))))
                         ++ concat (audioData (fst s));
           blob_type := "audio/wav" |},
     (set_isGenerating false (fst s), snd s)).
Proof.
  unfold package, bind. rewrite combine_concat. simpl.
  rewrite createWavFile_bytes by reflexivity. reflexivity.
Qed.

(** After the connection the session is held, and the stanzas, the stop and
    the drain wait follow. *)
Lemma does_stanzas_and_drain (musicPlan : MusicPlan) (conn : nat) :
  Does (stanza_loop musicPlan 0 (stanzas musicPlan);;
        await_session session_stop;;
        await_sleep 500)
       conn
       (expected_stanzas conn (length (stanzas musicPlan)) 0 (stanzas musicPlan)
        ++ [session_stop conn; sleep 500]).
Proof.
  apply does_bind; [apply does_stanza_loop; apply drop_0|]. intros _.
  change [session_stop conn; sleep 500]
    with ([session_stop conn] ++ [sleep 500]).
  apply does_bind; [apply does_await_session; reflexivity|]. intros _.
  apply does_await_sleep.
Qed.


Lemma does_then_ok {A B : Type} (P : M A) (f : A -> M B) (conn : nat)
    (acts : list Action) (s s' : State) (b : B) :
  Does P conn acts -> session (fst s) = Some conn ->
  bind P f s = (Ok b, s') ->
  exists a s1, Ran s s1 acts /\ f a s1 = (Ok b, s').
Proof.
  intros HP Hs H. destruct (bind_ok _ _ _ _ _ H) as (a & s1 & HPs & Hf).
  exists a, s1. split; [|exact Hf]. exact (proj1 (HP s Hs) a s1 HPs).
Qed.

Lemma does_then_runs {A B : Type} (P : M A) (f : A -> M B) (conn : nat)
    (acts : list Action) (s : State) :
  Does P conn acts -> session (fst s) = Some conn ->
  unfailing (script (snd s)) ->
  exists a s1,
    bind P f s = f a s1 /\ session (fst s1) = Some conn /\
    unfailing (script (snd s1)).
Proof.
  intros HP Hs Hun. destruct (HP s Hs) as [Hran Hok].
  destruct (Hok Hun) as (a & s1 & HPs). exists a, s1.
  pose proof (Hran a s1 HPs) as R. split; [|split].
  - unfold bind. rewrite HPs. reflexivity.
  - rewrite (ran_session _ _ _ R). exact Hs.
  - rewrite (ran_script _ _ _ R). apply unfailing_drop. exact Hun.
Qed.

(** The stanzas, the stop, the drain wait and the file, once the session
    [conn] is held. *)
Lemma rest_of_generation (musicPlan : MusicPlan) (conn : nat) (s : State) :
  session (fst s) = Some conn ->
  let acts := expected_stanzas conn (length (stanzas musicPlan)) 0
                               (stanzas musicPlan)
              ++ [session_stop conn; sleep 500] in
  let rest := stanza_loop musicPlan 0 (stanzas musicPlan);;
              await_session session_stop;;
              await_sleep 500;;
              package in
  (forall blob s', rest s = (Ok blob, s') ->
     exists s5, Ran s s5 acts /\ package s5 = (Ok blob, s')) /\
  (unfailing (script (snd s)) -> exists blob s', rest s = (Ok blob, s')).
Proof.
  intros Hs acts rest. subst acts rest. split.
  - intros blob s' H.
    destruct (does_then_ok _ _ conn _ _ _ _
                (does_stanza_loop musicPlan conn _ 0 (drop_0 _)) Hs H)
      as ([] & s3 & R3 & H3).
    assert (Hs3 : session (fst s3) = Some conn)
      by (rewrite (ran_session _ _ _ R3); exact Hs).
    destruct (does_then_ok _ _ conn _ _ _ _
                (does_await_session session_stop conn eq_refl) Hs3 H3)
      as ([] & s4 & R4 & H4).
    assert (Hs4 : session (fst s4) = Some conn)
      by (rewrite (ran_session _ _ _ R4); exact Hs3).
    destruct (does_then_ok _ _ conn _ _ _ _
                (does_await_sleep 500 conn) Hs4 H4)
      as ([] & s5 & R5 & H5).
    exists s5. split; [|exact H5].
    change [session_stop conn; sleep 500]
      with ([session_stop conn] ++ [sleep 500]).
    exact (ran_trans _ _ _ _ _ R3 (ran_trans _ _ _ _ _ R4 R5)).
  - intros Hun.
    destruct (does_then_runs _ (fun _ => await_session session_stop;;
                                         await_sleep 500;; package) conn _ s
                (does_stanza_loop musicPlan conn _ 0 (drop_0 _)) Hs Hun)
      as ([] & s3 & E3 & Hs3 & Hun3).
    destruct (does_then_runs _ (fun _ => await_sleep 500;; package) conn _ s3
                (does_await_session session_stop conn eq_refl) Hs3 Hun3)
      as ([] & s4 & E4 & Hs4 & Hun4).
    destruct (does_then_runs _ (fun _ => package) conn _ s4
                (does_await_sleep 500 conn) Hs4 Hun4)
      as ([] & s5 & E5 & _ & _).
    rewrite E3, E4, E5, package_spec. do 2 eexists. reflexivity.
Qed.

Lemma generation_connects (musicPlan : MusicPlan) (g : Generator) (w : World) :
  head (script w) ≫= failure = None ->
  generation musicPlan (g, w)
  = (stanza_loop musicPlan 0 (stanzas musicPlan);;
     await_session session_stop;;
     await_sleep 500;;
     package) (connected g w).
Proof.
  intros Hok. unfold generation, bind at 1, await_connect.
  cbn [fst snd].
  destruct (elapse_spec g {| script := script w;
                             trace := trace w ++ [connect (connections w)];
                             connections := S (connections w) |})
    as [Hs Hf].
  cbn [script trace connections] in Hs, Hf. rewrite Hok in Hf.
  destruct (elapse _) as [o s1]. cbn [fst snd] in Hs, Hf. subst o s1.
  reflexivity.
Qed.

Lemma generation_refused (musicPlan : MusicPlan) (g : Generator) (w : World)
    (message : option string) :
  head (script w) ≫= failure = Some message ->
  exists s', generation musicPlan (g, w) = (Throw (rejected message), s').
Proof.
  intros Hfail. unfold generation, bind, await_connect. cbn [fst snd].
  destruct (elapse_spec g {| script := script w;
                             trace := trace w ++ [connect (connections w)];
                             connections := S (connections w) |})
    as [_ Hf].
  cbn [script] in Hf. rewrite Hfail in Hf.
  destruct (elapse _) as [o s1]. cbn [fst] in Hf. subst o.
  eexists. reflexivity.
Qed.


Lemma cleanup_spec (s : State) (conn : nat) :
  session (fst s) = Some conn ->
  cleanup s
  = (Ok tt,
     (set_session None
        (set_audioData (audioData (fst s)
                        ++ received (take 1 (script (snd s)))) (fst s)),
      {| script := drop 1 (script (snd s));
         trace := trace (snd s) ++ [session_stop conn];
         connections := connections (snd s) |})).
Proof.
  intros Hs. destruct s as [g w]. unfold cleanup. cbn [fst snd] in *.
  rewrite Hs. unfold bind, try_catch, await_session. cbn [fst snd].
  rewrite Hs.
  destruct (elapse_spec g (log (session_stop conn) w)) as [Hst _].
  destruct (elapse _) as [[m|] s1]; cbn [fst snd] in *; subst s1;
    reflexivity.
Qed.

#[local] Arguments wav_header : simpl never.

Lemma ok_inj {A : Type} (a b : A) (s s' : State) :
  (Ok a, s) = (Ok b, s') -> a = b /\ s = s'.
Proof. intros H. injection H as -> ->. auto. Qed.

(** What a call of [generateMusic] on an idle renderer comes to. *)
Lemma generateMusic_spec (musicPlan : MusicPlan) (g : Generator) (w : World) :
  isGenerating g = false ->
  let conn := connections w in
  let gen := expected_generation conn musicPlan in
  let pcm := concat (received (take (awaits gen) (script w))) in
  (forall blob s',
     generateMusic musicPlan (g, w) = (Ok blob, s') ->
     blob = {| blob_bytes := wav_header 48000 2 (length pcm) ++ pcm;
               blob_type := "audio/wav" |} /\
     trace (snd s') = trace w ++ gen ++ [session_stop conn] /\
     script (snd s') = drop (awaits gen + 1) (script w) /\
     audioData (fst s') = received (take (awaits gen + 1) (script w)) /\
     session (fst s') = None /\
     isGenerating (fst s') = false) /\
  (unfailing (script w) ->
   exists blob s', generateMusic musicPlan (g, w) = (Ok blob, s')).
Proof.
  intros Hidle conn gen pcm.
  set (g0 := set_audioData [] (set_isGenerating true g)).
  assert (Hgen : generateMusic musicPlan (g, w)
                 = try_finally (try_catch (generation musicPlan) failed)
                               cleanup (g0, w)).
  { unfold generateMusic. cbn [fst]. rewrite Hidle. reflexivity. }
  rewrite Hgen. clear Hgen. unfold try_finally, try_catch.
  assert (Hc : session (fst (connected g0 w)) = Some conn) by reflexivity.
  destruct (rest_of_generation musicPlan conn (connected g0 w) Hc)
    as [Hok Hruns].
  destruct (head (script w) ≫= failure) as [message|] eqn:Hhead.
  - destruct (generation_refused musicPlan g0 w message Hhead) as (s1 & ->).
    split.
    + intros blob s' H. exfalso. unfold failed, bind in H.
      cbn [update dispatch throw fst snd] in H.
      destruct (cleanup _) as [[[]|e] s2]; discriminate.
    + intros Hun. exfalso. destruct (script w) as [|t r]; [discriminate|].
      inversion Hun as [|? ? Ht _]; subst. simpl in Hhead. congruence.
  - rewrite (generation_connects musicPlan g0 w Hhead). split.
    + intros blob s' H.
      destruct ((_;; _) (connected g0 w)) as [[blob1|e] s6] eqn:Hrest.
      2:{ exfalso. unfold failed, bind in H.
          cbn [update dispatch throw fst snd] in H.
          destruct (cleanup _) as [[[]|e'] s2]; discriminate. }
      destruct (Hok blob1 s6 eq_refl) as (s5 & R & Hpack).
      rewrite package_spec in Hpack. apply ok_inj in Hpack as [<- <-].
      assert (Hs6 : session (fst (set_isGenerating false (fst s5), snd s5))
                    = Some conn)
        by (cbn; rewrite (ran_session _ _ _ R); reflexivity).
      rewrite (cleanup_spec _ conn Hs6) in H. apply ok_inj in H as [<- <-].
      destruct R as [Rt Rs Ra _ _ _]. cbn in Rt, Rs, Ra.
      assert (Hk : awaits gen
                   = S (awaits (expected_stanzas conn
                                  (length (stanzas musicPlan)) 0
                                  (stanzas musicPlan)
                                ++ [session_stop conn; sleep 500])))
        by reflexivity.
      assert (Haudio : audioData (fst s5)
                       = received (take (awaits gen) (script w))).
      { rewrite Ra, Hk, <- received_app.
        rewrite (take_take_drop (script w) 1). reflexivity. }
      assert (Hscript : script (snd s5) = drop (awaits gen) (script w)).
      { rewrite Rs, Hk, drop_drop. reflexivity. }
      assert (Htrace : trace (snd s5) = trace w ++ gen).
      { rewrite Rt. unfold gen, expected_generation.
        rewrite <- app_assoc. reflexivity. }
      cbn [fst snd trace script audioData session isGenerating
           set_session set_audioData set_isGenerating].
      rewrite Haudio, Htrace, Hscript.
      split; [reflexivity|]. split; [rewrite <- app_assoc; reflexivity|].
      split; [rewrite drop_drop; reflexivity|].
      split; [|split; reflexivity].
      rewrite <- received_app, take_take_drop. reflexivity.
    + intros Hun.
      assert (Hun1 : unfailing (script (snd (connected g0 w))))
        by (apply unfailing_drop; exact Hun).
      destruct (Hruns Hun1) as (blob & s6 & Hrest). rewrite Hrest.
      destruct (Hok blob s6 Hrest) as (s5 & R & Hpack).
      rewrite package_spec in Hpack. apply ok_inj in Hpack as [_ <-].
      assert (Hs6 : session (fst (set_isGenerating false (fst s5), snd s5))
                    = Some conn)
        by (cbn; rewrite (ran_session _ _ _ R); reflexivity).
      rewrite (cleanup_spec _ conn Hs6). do 2 eexists. reflexivity.
Qed.


(** C7.  On an idle renderer and when no call is rejected, [generateMusic]
    returns a file, and what it did is, in order: the connection; for the
    [i]-th of the [N] stanzas, the progress event [{i, N, stanza}], the
    stanza's prompts, its translated config if it has one, [play] if it is
    the first, the wait of its seconds, and, when a next stanza exists and
    differs in bpm or scale, pause, a wait of 100 ms and play; after the
    last stanza, stop and the drain wait of 500 ms; and the stop of the
    cleanup. *)
Theorem generateMusic_follows_plan (musicPlan : MusicPlan) (g : Generator)
    (w : World) :
  isGenerating g = false -> unfailing (script w) ->
  exists blob s',
    generateMusic musicPlan (g, w) = (Ok blob, s') /\
    trace (snd s')
    = trace w ++ expected_generation (connections w) musicPlan
      ++ [session_stop (connections w)].
Proof.
  intros Hidle Hun.
  destruct (generateMusic_spec musicPlan g w Hidle) as [Hok Hruns].
  destruct (Hruns Hun) as (blob & s' & Hrun).
  exists blob, s'. split; [exact Hrun|].
  exact (proj1 (proj2 (Hok blob s' Hrun))).
Qed.

Lemma generateMusic_follows_plan_witness :
  exists blob s',
    generateMusic two_stanzas (new, six_bytes) = (Ok blob, s') /\
    trace (snd s')
    = [connect 0;
       progress 1 2 calm_stanza;
       session_setWeightedPrompts 0 (prompts calm_stanza);
       session_play 0; sleep (5 * 1000);
       session_pause 0; sleep 100; session_play 0;
       progress 2 2 tense_stanza;
       session_setWeightedPrompts 0 (prompts tense_stanza);
       session_setMusicGenerationConfig 0
         {| cfg_bpm := Some 140%Q; cfg_temperature := None;
            cfg_scale := None; muteBass := None; muteDrums := None |};
       sleep (5 * 1000);
       session_stop 0; sleep 500; session_stop 0].
Proof.
  apply (generateMusic_follows_plan two_stanzas new six_bytes).
  - reflexivity.
  - repeat constructor.
Defined.

(** C8.  The file that [generateMusic] returns is a header of 44 bytes
    followed by the byte sequences decoded from what arrived during the
    waits of the generation (from the connection to the drain wait), joined
    in order of arrival.  In the header the format tag is 1, the channel
    count 2, the sample rate 48000, the byte rate 48000 * 2 * 2, the block
    align 2 * 2, the bits per sample 16, and the data length the number of
    those bytes (which a field of 32 bits holds below 2^32). *)
Theorem generateMusic_file (musicPlan : MusicPlan) (g : Generator) (w : World)
    (blob : Blob) (s' : State) :
  isGenerating g = false ->
  generateMusic musicPlan (g, w) = (Ok blob, s') ->
  let pcm :=
    concat (received (take (awaits (expected_generation (connections w)
                                                        musicPlan))
                           (script w))) in
  (Z.of_nat (length pcm) < 2 ^ 32)%Z ->
  blob_type blob = "audio/wav"%string /\
  length (blob_bytes blob) = 44 + length pcm /\
  drop 44 (blob_bytes blob) = pcm /\
  u16_at 20 (blob_bytes blob) = Some 1%Z /\
  u16_at 22 (blob_bytes blob) = Some 2%Z /\
  u32_at 24 (blob_bytes blob) = Some 48000%Z /\
  u32_at 28 (blob_bytes blob) = Some (48000 * 2 * 2)%Z /\
  u16_at 32 (blob_bytes blob) = Some (2 * 2)%Z /\
  u16_at 34 (blob_bytes blob) = Some 16%Z /\
  u32_at 40 (blob_bytes blob) = Some (Z.of_nat (length pcm)).
Proof.
  intros Hidle Hrun pcm Hsmall.
  destruct (generateMusic_spec musicPlan g w Hidle) as [Hok _].
  destruct (Hok blob s' Hrun) as (-> & _).
  fold pcm. cbn [blob_bytes blob_type].
  destruct (wav_header_fields 48000 2 pcm)
    as (_ & _ & _ & _ & Hfmt & Hch & Hrate & Hbyte & Halign & Hbits & _
        & Hlen & Hdata & Hsize).
  cbv zeta in *.
  rewrite Hfmt, Hch, Hrate, Hbyte, Halign, Hbits, Hlen, Hdata, Hsize.
  rewrite (Z.mod_small (Z.of_nat (length pcm))) by lia.
  repeat split; reflexivity.
Qed.

Lemma generateMusic_file_witness :
  drop 44 (blob_bytes six_bytes_file)
  = ["000"; "001"; "002"; "003"; "004"; "005"]%byte /\
  u32_at 40 (blob_bytes six_bytes_file) = Some 6%Z.
Proof.
  destruct (generateMusic_file two_stanzas new six_bytes six_bytes_file
              (snd (generateMusic two_stanzas (new, six_bytes))))
    as (_ & _ & Hdata & _ & _ & _ & _ & _ & _ & Hlen).
  - reflexivity.
  - vm_compute. reflexivity.
  - vm_compute. reflexivity.
  - split; [exact Hdata | exact Hlen].
Defined.

(** C9.  A call of [generateMusic] on a renderer that is generating throws
    the busy error and changes nothing: the audio data, the session and the
    busy flag of the generation in progress, and the world, are as they
    were. *)
Theorem generateMusic_busy (musicPlan : MusicPlan) (s : State) :
  isGenerating (fst s) = true ->
  generateMusic musicPlan s = (Throw busy, s).
Proof. intros H. unfold generateMusic. rewrite H. reflexivity. Qed.

Lemma generateMusic_busy_witness :
  generateMusic two_stanzas (set_isGenerating true new, six_bytes)
  = (Throw busy, (set_isGenerating true new, six_bytes)).
Proof. apply generateMusic_busy. reflexivity. Defined.

End RendererFacts.

(** * Further properties *)

Module AudioMore.
Import Audio AudioFacts.

(** X1.  [decodeAudioData] returns a buffer only for an input of even
    length that holds at least one whole frame, with a channel count and a
    sample rate inside the ranges of the context; in particular it throws
    on every input of odd length and on the empty input. *)
Theorem decodeAudioData_defined_only (data : Uint8Array) (ctx : AudioContext)
    (r : Z) (n : nat) (b : AudioBuffer) :
  decodeAudioData data ctx r n = Some b ->
  Nat.even (length data) = true /\
  1 <= n <= maxChannels ctx /\
  (minSampleRate ctx <= r <= maxSampleRate ctx)%Z /\
  2 * n <= length data.
Proof.
  unfold decodeAudioData. intros H.
  destruct (createBuffer ctx n (frameCount data n) r) as [b0|] eqn:Hc;
    [|discriminate].
  simpl in H. unfold Int16Array in H.
  destruct (Nat.even (length data)) eqn:Heven; [|discriminate].
  split; [reflexivity|]. clear H.
  unfold createBuffer, toUint32 in Hc.
  destruct (Nat.eqb_spec n 0) as [|Hn]; [discriminate|].
  destruct (Nat.ltb_spec (maxChannels ctx) n) as [|Hmax]; [discriminate|].
  rewrite frameCount_floor in Hc by lia.
  destruct (Nat.eqb_spec
              (Z.to_nat (Z.of_nat (length data / 2 / n) mod 2 ^ 32)) 0)
    as [|Hframes]; [discriminate|].
  destruct (Z.ltb_spec r (minSampleRate ctx)) as [|Hlo]; [discriminate|].
  destruct (Z.ltb_spec (maxSampleRate ctx) r) as [|Hhi]; [discriminate|].
  repeat split; try lia.
  destruct (Nat.le_gt_cases (2 * n) (length data)) as [Hle|Hgt]; [exact Hle|].
  exfalso. apply Hframes.
  rewrite Nat.Div0.div_div, Nat.div_small by lia. reflexivity.
Qed.

Lemma decodeAudioData_defined_only_witness :
  Nat.even (length ["000"; "000"; "255"; "127"]%byte) = true /\
  2 * 2 <= length ["000"; "000"; "255"; "127"]%byte.
Proof.
  destruct (decodeAudioData_defined_only
              ["000"; "000"; "255"; "127"]%byte (audioContext 0) 48000 2
              {| numberOfChannels := 2; buf_length := 1;
                 buf_sampleRate := 48000;
                 channels := [[Fin (0 # 32768)]; [Fin (32767 # 32768)]] |})
    as (Heven & _ & _ & Hlen).
  - vm_compute. reflexivity.
  - split; [exact Heven | exact Hlen].
Defined.

End AudioMore.

Module LiveMore.
Import Types Protocol Audio LiveMusicHelper LiveSpec LiveSpecMore LiveFacts.
Local Open Scope Q_scope.

Lemma no_overlap_cons (b : AudioBuffer) (t : Q) (l : list (AudioBuffer * Q)) :
  Forall (fun bt => t + duration b <= bt.2) l -> no_overlap l ->
  no_overlap ((b, t) :: l).
Proof.
  intros Hlow Hl. destruct l as [|[b2 t2] l]; [exact I|].
  split; [|exact Hl]. inversion Hlow; subst. assumption.
Qed.

Lemma Forall_lower (lo hi : Q) (l : list (AudioBuffer * Q)) :
  lo <= hi -> Forall (fun bt => hi <= bt.2) l ->
  Forall (fun bt => lo <= bt.2) l.
Proof.
  intros Hle H. eapply Forall_impl; [exact H|].
  intros bt Hbt. exact (Qle_trans _ _ _ Hle Hbt).
Qed.

(** A run of messages, underruns included: what is scheduled starts at or
    after the cursor and at or after the clock of the first message, and
    does not overlap. *)
Lemma feed_bounds (inputs : list (AudioContext * list AudioChunk)) :
  forall (m m' : Machine) (effects : list Effect),
    accepting m -> 0 <= nextStartTime (this m) ->
    Forall (fun i => 0 <= currentTime i.1) inputs ->
    clock_ascends inputs ->
    feed inputs m = Some (m', effects) ->
    Forall (fun bt => nextStartTime (this m) <= bt.2) (scheduled effects) /\
    (forall i, head inputs = Some i ->
       Forall (fun bt => currentTime i.1 <= bt.2) (scheduled effects)) /\
    no_overlap (scheduled effects).
Proof.
  induction inputs as [|[ctx batch] rest IH];
    intros m m' effects Hacc Hnst Hpos Hasc Hfeed.
  - injection Hfeed as <- <-. repeat split; try constructor.
  - simpl in Hfeed.
    destruct (processAudioChunks ctx batch m) as [[m1 e1]|] eqn:Hstep;
      [|discriminate].
    simpl in Hfeed.
    destruct (feed rest m1) as [[m2 e2]|] eqn:Hrest; [|discriminate].
    simpl in Hfeed. injection Hfeed as <- <-.
    destruct (processAudioChunks_decodes _ _ _ _ Hacc Hstep) as [b Hb].
    destruct (chunk_step ctx batch m b Hacc Hb)
      as (m1' & e1' & Hrun & _ & _ & Hcase).
    rewrite Hstep in Hrun. injection Hrun as <- <-.
    inversion Hpos as [|? ? Hnow Hpos']; subst. simpl in Hnow.
    pose proof (duration_nonneg _ _ _ Hb) as Hdur.
    assert (Hasc' : clock_ascends rest)
      by (destruct rest as [|[c2 b2] r]; [exact I | apply Hasc]).
    assert (Hnext : forall i, head rest = Some i ->
                              currentTime ctx <= currentTime i.1).
    { intros [c2 b2] Hh. destruct rest as [|[c2' b2'] r]; [discriminate|].
      injection Hh as -> ->. apply Hasc. }
    assert (Hcur : nextStartTime (this m) <= cursor ctx m /\
                   (currentTime ctx <= cursor ctx m \/
                    cursor ctx m < currentTime ctx)).
    { unfold cursor.
      destruct (Qeq_bool (nextStartTime (this m)) 0) eqn:Hun.
      - apply Qeq_bool_iff in Hun. split.
        + rewrite Hun. unfold bufferTime.
          apply Qle_trans with (0 + 0); [discriminate|].
          apply Qplus_le_compat; [exact Hnow | discriminate].
        + left. rewrite <- (Qplus_0_r (currentTime ctx)) at 1.
          apply Qplus_le_r. discriminate.
      - split; [apply Qle_refl|].
        destruct (Qlt_le_dec (nextStartTime (this m)) (currentTime ctx));
          auto. }
    destruct Hcur as [Hlow Hwhere].
    rewrite scheduled_app.
    destruct (Qlt_le_dec (cursor ctx m) (currentTime ctx)) as [Hlt|Hle];
      destruct Hcase as (Hsched & Hnst1 & Hstate); rewrite Hsched.
    + (* underrun: the chunk is dropped *)
      assert (Hacc1 : accepting m1) by (left; exact Hstate).
      assert (Hnst1' : 0 <= nextStartTime (this m1))
        by (rewrite Hnst1; apply Qle_refl).
      destruct (IH m1 m2 e2 Hacc1 Hnst1' Hpos' Hasc' Hrest)
        as (_ & Hclock & Hno).
      simpl. destruct rest as [|i rest'].
      { injection Hrest as <- <-. repeat split; constructor. }
      specialize (Hclock i eq_refl). specialize (Hnext i eq_refl).
      assert (Hall : Forall (fun bt => currentTime ctx <= bt.2) (scheduled e2))
        by (exact (Forall_lower _ _ _ Hnext Hclock)).
      split; [|split; [|exact Hno]].
      * apply (Forall_lower _ (currentTime ctx)); [|exact Hall].
        apply Qle_trans with (cursor ctx m); [exact Hlow|].
        apply Qlt_le_weak. exact Hlt.
      * intros i0 Hi0. injection Hi0 as <-. exact Hall.
    + (* the chunk is scheduled at the cursor *)
      assert (Hacc1 : accepting m1)
        by (unfold accepting; rewrite Hstate; exact Hacc).
      assert (Hc0 : 0 <= cursor ctx m)
        by (exact (Qle_trans _ _ _ Hnst Hlow)).
      assert (Hnst1' : 0 <= nextStartTime (this m1)).
      { rewrite Hnst1. apply Qle_trans with (0 + 0); [discriminate|].
        apply Qplus_le_compat; assumption. }
      destruct (IH m1 m2 e2 Hacc1 Hnst1' Hpos' Hasc' Hrest)
        as (Hlater & _ & Hno).
      rewrite Hnst1 in Hlater.
      assert (Hafter : Forall (fun bt => cursor ctx m <= bt.2) (scheduled e2)).
      { apply (Forall_lower _ (cursor ctx m + duration b)); [|exact Hlater].
        rewrite <- (Qplus_0_r (cursor ctx m)) at 1.
        apply Qplus_le_r. exact Hdur. }
      simpl. split; [|split].
      * constructor; [exact Hlow|].
        exact (Forall_lower _ _ _ Hlow Hafter).
      * intros i0 Hi0. injection Hi0 as <-. simpl.
        constructor; [exact Hle|].
        exact (Forall_lower _ _ _ Hle Hafter).
      * apply no_overlap_cons; assumption.
Qed.

(** X2.  The engine never schedules a buffer to start before the clock at
    which its chunk was handled; and over any run of messages whose clock
    readings do not go back, underruns included, the scheduled buffers
    never overlap: each starts at or after the end of the one before. *)
Theorem schedule_never_overlaps :
  (forall (ctx : AudioContext) (batch : list AudioChunk) (m m' : Machine)
          (effects : list Effect),
     accepting m -> 0 <= nextStartTime (this m) -> 0 <= currentTime ctx ->
     processAudioChunks ctx batch m = Some (m', effects) ->
     Forall (fun bt => currentTime ctx <= bt.2) (scheduled effects))
  /\
  (forall (inputs : list (AudioContext * list AudioChunk)) (m m' : Machine)
          (effects : list Effect),
     accepting m -> 0 <= nextStartTime (this m) ->
     Forall (fun i => 0 <= currentTime i.1) inputs ->
     clock_ascends inputs ->
     feed inputs m = Some (m', effects) ->
     no_overlap (scheduled effects)).
Proof.
  split.
  - intros ctx batch m m' effects Hacc Hnst Hnow Hstep.
    assert (Hfeed : feed [(ctx, batch)] m = Some (m', effects ++ []))
      by (simpl; rewrite Hstep; reflexivity).
    rewrite app_nil_r in Hfeed.
    assert (Hpos : Forall (fun i : AudioContext * list AudioChunk =>
                             0 <= currentTime i.1) [(ctx, batch)])
      by (repeat constructor; exact Hnow).
    destruct (feed_bounds [(ctx, batch)] m m' effects Hacc Hnst Hpos I Hfeed)
      as (_ & Hclock & _).
    exact (Hclock (ctx, batch) eq_refl).
  - intros inputs m m' effects Hacc Hnst Hpos Hasc Hfeed.
    exact (proj2 (proj2 (feed_bounds inputs m m' effects Hacc Hnst Hpos
                           Hasc Hfeed))).
Qed.

Lemma schedule_never_overlaps_witness :
  no_overlap [(silent_frame, 2); (silent_frame, 96001 # 48000);
              (silent_frame, 12)].
Proof.
  destruct schedule_never_overlaps as [_ Hruns].
  apply (Hruns [(audioContext 0, [one_frame]); (audioContext 1, [one_frame]);
                (audioContext 5, [one_frame]); (audioContext 10, [one_frame])]
               (fst (play_called new))
               (default new
                  (fst <$> feed [(audioContext 0, [one_frame]);
                                 (audioContext 1, [one_frame]);
                                 (audioContext 5, [one_frame]);
                                 (audioContext 10, [one_frame])]
                                (fst (play_called new))))
               [setTimeout_playing 2000;
                source_start 0 silent_frame 2;
                source_start 0 silent_frame (96001 # 48000);
                dispatchEvent (playback_state_changed loading);
                setTimeout_playing 2000;
                source_start 0 silent_frame 12]).
  - left. reflexivity.
  - discriminate.
  - repeat constructor; discriminate.
  - repeat split; discriminate.
  - vm_compute. reflexivity.
Defined.


(** X3.  After an underrun the engine catches up: the chunk that finds the
    cursor behind the clock is dropped and the state is 'loading'; the next
    chunk starts a horizon after its own clock, not in the past, and a new
    timer is armed. *)
Theorem underrun_reanchors (ctx ctx' : AudioContext)
    (batch batch' : list AudioChunk) (b b' : AudioBuffer) (m : Machine) :
  accepting m ->
  0 < nextStartTime (this m) -> nextStartTime (this m) < currentTime ctx ->
  first_buffer ctx batch = Some b -> first_buffer ctx' batch' = Some b' ->
  exists m' effects,
    feed [(ctx, batch); (ctx', batch')] m = Some (m', effects) /\
    scheduled effects = [(b', currentTime ctx' + bufferTime)] /\
    events effects = [playback_state_changed loading] /\
    playbackState (this m') = loading /\
    timers m' = S (timers m) /\
    nextStartTime (this m') = currentTime ctx' + bufferTime + duration b'.
Proof.
  intros Hacc Hpos Hlate Hb Hb'.
  destruct (cursor_set ctx m Hpos) as [Hset Hcur].
  destruct (chunk_step ctx batch m b Hacc Hb)
    as (m1 & e1 & Hrun1 & _ & Htimer1 & Hcase1).
  rewrite Hset in Htimer1. rewrite Hcur in Hcase1.
  destruct (Qlt_le_dec (nextStartTime (this m)) (currentTime ctx)) as [_|Hle];
    [|exfalso; exact (Qlt_not_le _ _ Hlate Hle)].
  destruct Hcase1 as (Hsched1 & Hnst1 & Hstate1).
  assert (Hacc1 : accepting m1) by (left; exact Hstate1).
  destruct (chunk_step ctx' batch' m1 b' Hacc1 Hb')
    as (m2 & e2 & Hrun2 & _ & Htimer2 & Hcase2).
  assert (Hcur1 : cursor ctx' m1 = currentTime ctx' + bufferTime)
    by (unfold cursor; rewrite Hnst1; reflexivity).
  rewrite Hnst1 in Htimer2. simpl in Htimer2. rewrite Hcur1 in Hcase2.
  destruct (Qlt_le_dec (currentTime ctx' + bufferTime) (currentTime ctx'))
    as [Hlt|_].
  { exfalso. apply (Qlt_not_le _ _ Hlt).
    rewrite <- (Qplus_0_r (currentTime ctx')) at 1.
    apply Qplus_le_r. discriminate. }
  destruct Hcase2 as (Hsched2 & Hnst2 & Hstate2).
  exists m2, (e1 ++ e2). split; [|split; [|split; [|split; [|split]]]].
  - simpl. rewrite Hrun1. simpl. rewrite Hrun2. simpl.
    rewrite app_nil_r. reflexivity.
  - rewrite scheduled_app, Hsched1, Hsched2. reflexivity.
  - clear - Hrun1 Hrun2 Hset Hlate Hacc Hacc1 Hnst1 Hb Hb' Hpos.
    revert Hrun1 Hrun2. unfold processAudioChunks.
    destruct Hacc as [Hs|Hs]; rewrite Hs;
      unfold first_buffer in Hb, Hb';
      (destruct (batch !! 0%nat) as [chunk|]; [|discriminate]);
      simpl in Hb |- *;
      (destruct (decode _) as [bytes|]; [|discriminate]);
      simpl in Hb |- *; rewrite Hb; simpl; rewrite Hset;
      (destruct (Qlt_le_dec _ _) as [_|Hle];
       [|exfalso; exact (Qlt_not_le _ _ Hlate Hle)]);
      intros H1; injection H1 as <- <-; cbn;
      (destruct (batch' !! 0%nat) as [chunk'|]; [|discriminate]);
      simpl in Hb' |- *;
      (destruct (decode _) as [bytes'|]; [|discriminate]);
      simpl in Hb' |- *; rewrite Hb'; simpl;
      (destruct (Qlt_le_dec _ _) as [Hlt|_];
       [exfalso; apply (Qlt_not_le _ _ Hlt);
        rewrite <- (Qplus_0_r (currentTime ctx')) at 1;
        apply Qplus_le_r; discriminate|]);
      intros H2; injection H2 as <- <-; reflexivity.
  - rewrite Hstate2. exact Hstate1.
  - destruct Htimer2 as [-> _]. rewrite Htimer1. reflexivity.
  - exact Hnst2.
Qed.

Lemma underrun_reanchors_witness :
  exists m' effects,
    feed [(audioContext 5, [one_frame]); (audioContext 10, [one_frame])]
         (fst (play_called (with_this (set_nextStartTime 3) new)))
    = Some (m', effects) /\
    scheduled effects = [(silent_frame, 10 + bufferTime)].
Proof.
  destruct (underrun_reanchors (audioContext 5) (audioContext 10)
              [one_frame] [one_frame] silent_frame silent_frame
              (fst (play_called (with_this (set_nextStartTime 3) new))))
    as (m' & effects & Hfeed & Hsched & _).
  - left. reflexivity.
  - reflexivity.
  - reflexivity.
  - vm_compute. reflexivity.
  - vm_compute. reflexivity.
  - exists m', effects. split; [exact Hfeed | exact Hsched].
Defined.


(** [processAudioChunks] touches the cursor, the state and the timers, and
    nothing else. *)
Lemma processAudioChunks_frame (ctx : AudioContext) (batch : list AudioChunk)
    (m m' : Machine) (e : list Effect) :
  processAudioChunks ctx batch m = Some (m', e) ->
  session (this m') = session (this m) /\
  sessionPromise (this m') = sessionPromise (this m) /\
  connectionError (this m') = connectionError (this m) /\
  filteredPrompts (this m') = filteredPrompts (this m) /\
  outputNode (this m') = outputNode (this m) /\
  prompts (this m') = prompts (this m) /\
  nodes m' = nodes m /\ connections m' = connections m /\
  Forall (fun eff => forall n, node_of eff = Some n -> n = outputNode (this m)) e /\
  opened e = [].
Proof.
  unfold processAudioChunks.
  destruct (playbackState (this m));
    try (intros H; injection H as <- <-; repeat split; constructor).
  all: destruct (batch !! 0%nat) as [chunk|]; [|discriminate]; simpl;
    (destruct (decode _) as [bytes|]; [|discriminate]); simpl;
    (destruct (decodeAudioData bytes ctx 48000 2) as [b|]; [|discriminate]);
    simpl;
    destruct (Qeq_bool (nextStartTime (this m)) 0);
    cbn [assign arm_timer andThen fst snd with_this this set_nextStartTime
         nextStartTime];
    destruct (Qlt_le_dec _ _); intros H; injection H as <- <-; cbn;
    repeat split; repeat constructor; cbn; intros n Hn; congruence.
Qed.

(** Closes a goal that compares a field before and after a method, by
    cases on what the method tests. *)
Ltac same_field :=
  repeat first
    [ reflexivity
    | progress cbn
    | progress unfold play_called, play_connected, play_resumed, play_failed,
        playPause, setWeightedPrompts, onerror, onclose, pause, stop,
        getSession, timer_fires
    | match goal with
      | |- context [match ?x with _ => _ end] => destruct x
      end ].

(** X4.  The set of filtered prompts only grows: no call, message or timer
    removes a text from it (not [stop], and not a new connection either); a
    filtered-prompt message adds its text and raises the event, and adding
    a text that is already there leaves the set as it was. *)
Theorem filtered_set_only_grows :
  (forall (i : Input) (m m' : Machine) (effects : list Effect),
     step i m = Some (m', effects) ->
     filteredPrompts (this m) ⊆ filteredPrompts (this m'))
  /\
  (forall (ctx : AudioContext) (e : LiveMusicServerMessage) (t : string)
          (m m' : Machine) (effects : list Effect),
     filteredPrompt e = Some t ->
     onmessage ctx e m = Some (m', effects) ->
     filteredPrompts (this m') = filteredPrompts (this m) ∪ {[t]} /\
     filtered_prompt t ∈ events effects /\
     (t ∈ filteredPrompts (this m) ->
      filteredPrompts (this m') = filteredPrompts (this m))).
Proof.
  assert (Hmsg : forall ctx e m m' effects,
             onmessage ctx e m = Some (m', effects) ->
             filteredPrompts (this m')
             = match filteredPrompt e with
               | Some t => filteredPrompts (this m) ∪ {[t]}
               | None => filteredPrompts (this m)
               end /\
             (forall t, filteredPrompt e = Some t ->
                        filtered_prompt t ∈ events effects)).
  { intros ctx e m m' effects H. unfold onmessage in H.
    destruct (audioChunks e) as [chunks|].
    - match type of H with
      | context [processAudioChunks ctx chunks ?x] =>
          destruct (processAudioChunks ctx chunks x) as [[m1 e1]|] eqn:Hp;
            [|discriminate]
      end.
      apply processAudioChunks_frame in Hp as (_ & _ & _ & Hf & _).
      simpl in H. injection H as <- <-. rewrite Hf.
      destruct (setupComplete e), (filteredPrompt e) as [t|]; cbn;
        (split; [reflexivity|]); intros t' Ht; try discriminate;
        injection Ht as <-; unfold events; cbn;
        apply list_elem_of_here.
    - injection H as <- <-.
      destruct (setupComplete e), (filteredPrompt e) as [t|]; cbn;
        (split; [reflexivity|]); intros t' Ht; try discriminate;
        injection Ht as <-; apply list_elem_of_here. }
  split.
  - intros i m m' effects H. destruct i; simpl in H.
    9:{ destruct (Hmsg _ _ _ _ _ H) as [-> _].
        destruct (filteredPrompt e); [apply union_subseteq_l | reflexivity]. }
    11:{ destruct (Nat.eqb (timers m) 0); [discriminate|].
         apply outcome_eq in H as [-> _]. reflexivity. }
    all: apply outcome_eq in H as [-> _];
      match goal with
      | |- ?a ⊆ ?b => assert (Heq : b = a); [|rewrite Heq; reflexivity]
      end;
      unfold play_called, play_connected, play_resumed, play_failed,
        playPause, setWeightedPrompts, onerror, onclose, pause, stop,
        getSession;
      same_field.
  - intros ctx e t m m' effects Ht H.
    destruct (Hmsg _ _ _ _ _ H) as [Hset Hev]. rewrite Ht in Hset.
    split; [exact Hset|]. split; [exact (Hev t Ht)|].
    intros Hin. rewrite Hset.
    rewrite (comm_L (∪)).
    apply subseteq_union_1_L, singleton_subseteq_l. exact Hin.
Qed.

Lemma filtered_set_only_grows_witness :
  filteredPrompts (this new)
  ⊆ filteredPrompts
      (this (fst (default (new, [])
                   (step (server_message (audioContext 0)
                            {| setupComplete := true;
                               filteredPrompt := Some "calm"%string;
                               audioChunks := None |}) new)))).
Proof.
  destruct filtered_set_only_grows as [Hgrow _].
  apply (Hgrow (server_message (audioContext 0)
                  {| setupComplete := true;
                     filteredPrompt := Some "calm"%string;
                     audioChunks := None |})
               new _ (snd (default (new, [])
                   (step (server_message (audioContext 0)
                            {| setupComplete := true;
                               filteredPrompt := Some "calm"%string;
                               audioChunks := None |}) new)))).
  reflexivity.
Defined.


Lemma onmessage_frame (ctx : AudioContext) (e : LiveMusicServerMessage)
    (m m' : Machine) (effects : list Effect) :
  onmessage ctx e m = Some (m', effects) ->
  session (this m') = session (this m) /\
  sessionPromise (this m') = sessionPromise (this m) /\
  outputNode (this m') = outputNode (this m) /\
  prompts (this m') = prompts (this m) /\
  nodes m' = nodes m /\ connections m' = connections m /\
  Forall (fun eff => forall n, node_of eff = Some n -> n = outputNode (this m))
         effects /\
  opened effects = [].
Proof.
  intros H. unfold onmessage in H.
  destruct (audioChunks e) as [chunks|].
  - match type of H with
    | context [processAudioChunks ctx chunks ?x] =>
        destruct (processAudioChunks ctx chunks x) as [[m1 e1]|] eqn:Hp;
          [|discriminate]
    end.
    apply processAudioChunks_frame in Hp
      as (Hs & Hsp & _ & _ & Ho & Hpr & Hn & Hc & Hall & Hop).
    simpl in H. injection H as <- <-.
    rewrite Hs, Hsp, Ho, Hpr, Hn, Hc. unfold opened in *. rewrite omap_app, Hop.
    destruct (setupComplete e), (filteredPrompt e) as [t|]; cbn in *;
      repeat split; try reflexivity;
      repeat (apply List.Forall_cons; [intros n Hn'; discriminate|]);
      exact Hall.
  - injection H as <- <-.
    destruct (setupComplete e), (filteredPrompt e) as [t|]; cbn;
      repeat split; try reflexivity;
      repeat (apply List.Forall_cons; [intros n Hn'; discriminate|]);
      constructor.
Qed.

(** Every gain node that a step names exists once the step is done, and the
    output node is one of them. *)
Lemma step_nodes (i : Input) (m m' : Machine) (effects : list Effect) :
  step i m = Some (m', effects) ->
  (outputNode (this m) < nodes m)%nat ->
  (outputNode (this m') < nodes m')%nat /\
  (nodes m <= nodes m')%nat /\
  Forall (fun eff => forall n, node_of eff = Some n -> (n < nodes m')%nat)
         effects.
Proof.
  intros H Hinv. destruct i; simpl in H.
  9:{ apply onmessage_frame in H as (_ & _ & Ho & _ & Hn & _ & Hall & _).
      rewrite Ho, Hn. repeat split; [exact Hinv | lia |].
      eapply Forall_impl; [exact Hall|]. intros eff Heff n Hn'.
      rewrite (Heff n Hn'). exact Hinv. }
  11:{ destruct (Nat.eqb (timers m) 0); [discriminate|].
       apply outcome_eq in H as [-> ->]. cbn.
       repeat split; [exact Hinv | lia |].
       repeat constructor. intros n Hn'. discriminate. }
  all: apply outcome_eq in H as [-> ->];
    repeat first
      [ progress cbn
      | progress unfold play_called, play_connected, play_resumed, play_failed,
          playPause, setWeightedPrompts, onerror, onclose, pause, stop,
          getSession
      | match goal with
        | |- context [match ?x with _ => _ end] => destruct x
        end ];
    (split; [lia|]); (split; [lia|]);
    repeat (apply List.Forall_cons;
            [intros n' Hn'; cbn in Hn'; try discriminate;
             injection Hn' as <-; lia|]);
    constructor.
Qed.

Lemma run_nodes (inputs : list Input) :
  forall (m m' : Machine) (effects : list Effect),
    (outputNode (this m) < nodes m)%nat ->
    run inputs m = Some (m', effects) ->
    (outputNode (this m') < nodes m')%nat /\
    (nodes m <= nodes m')%nat /\
    Forall (fun eff => forall n, node_of eff = Some n -> (n < nodes m')%nat)
           effects.
Proof.
  induction inputs as [|i rest IH]; intros m m' effects Hinv H; simpl in H.
  - injection H as <- <-. repeat split; [exact Hinv | lia | constructor].
  - destruct (step i m) as [[m1 e1]|] eqn:Hstep; [|discriminate]. simpl in H.
    destruct (run rest m1) as [[m2 e2]|] eqn:Hrest; [|discriminate].
    simpl in H. injection H as <- <-.
    destruct (step_nodes _ _ _ _ Hstep Hinv) as (Hinv1 & Hle1 & Hall1).
    destruct (IH _ _ _ Hinv1 Hrest) as (Hinv2 & Hle2 & Hall2).
    repeat split; [exact Hinv2 | lia |].
    apply Forall_app. split; [|exact Hall2].
    eapply Forall_impl; [exact Hall1|]. intros eff Heff n Hn.
    specialize (Heff n Hn). lia.
Qed.

(** X5.  [pause] moves the engine to a new gain node.  In every state that
    the engine reaches from its construction, the node after [pause]
    differs from the node before it and has been named by no effect so far
    (no buffer was started on it, no ramp set on it); the ramp to silence
    goes to the old node; the state is 'paused' and the cursor unset. *)
Theorem pause_takes_fresh_node (inputs : list Input) (m : Machine)
    (effects : list Effect) (ctx : AudioContext) :
  run inputs new = Some (m, effects) ->
  let m' := fst (pause ctx m) in
  outputNode (this m') <> outputNode (this m) /\
  Forall (fun eff => node_of eff <> Some (outputNode (this m'))) effects /\
  playbackState (this m') = paused /\
  (nextStartTime (this m') == 0)%Q /\
  snd (pause ctx m)
  = match session (this m) with
    | Some s => [session_pause s]
    | None => []
    end
    ++ [dispatchEvent (playback_state_changed paused);
        gain_setValueAtTime (outputNode (this m)) 1 (currentTime ctx);
        gain_linearRampToValueAtTime (outputNode (this m)) 0
          (currentTime ctx + (1 # 10));
        createGain (outputNode (this m'))].
Proof.
  intros Hrun m'.
  assert (Hnew : (outputNode (this new) < nodes new)%nat) by (cbn; lia).
  destruct (run_nodes inputs new m effects Hnew Hrun) as (Hinv & _ & Hall).
  assert (Hnode : outputNode (this m') = nodes m)
    by (unfold m', pause; destruct (session (this m)); reflexivity).
  rewrite Hnode. split; [lia|]. split.
  - eapply Forall_impl; [exact Hall|]. intros eff Heff Heq.
    specialize (Heff _ Heq). lia.
  - unfold m', pause. destruct (session (this m)); cbn;
      repeat split; reflexivity.
Qed.

Lemma pause_takes_fresh_node_witness :
  outputNode (this (fst (pause (audioContext 1)
                          (default new (fst <$> run started new)))))
  <> outputNode (this (default new (fst <$> run started new))).
Proof.
  destruct (pause_takes_fresh_node started
              (default new (fst <$> run started new))
              (default [] (snd <$> run started new))
              (audioContext 1)) as [Hfresh _].
  - vm_compute. reflexivity.
  - exact Hfresh.
Defined.


(** X6.  Callers of [play] share one connection: [play] opens a connection
    only when no connection promise is held, it always leaves one held, and
    so a second [play] in a row opens none and keeps the promise of the
    first.  The state is 'loading' after each. *)
Theorem play_shares_connection (m : Machine) :
  let m1 := fst (play_called m) in
  let m2 := fst (play_called m1) in
  opened (snd (play_called m))
  = match sessionPromise (this m) with
    | None => [connections m]
    | Some _ => []
    end /\
  (exists p, sessionPromise (this m1) = Some p) /\
  opened (snd (play_called m1)) = [] /\
  sessionPromise (this m2) = sessionPromise (this m1) /\
  playbackState (this m1) = loading /\
  playbackState (this m2) = loading.
Proof.
  unfold play_called, getSession. cbn.
  destruct (sessionPromise (this m)) eqn:Hp; cbn; rewrite ?Hp; cbn;
    repeat split; try reflexivity; try congruence; eauto.
Qed.

Lemma wire_active (h : Helper) :
  map (fun p => {| wp_text := text p; wp_weight := weight p |})
      (activePrompts h)
  = wire (filteredPrompts h) (prompts h).
Proof. reflexivity. Qed.

Lemma wire_sound (filtered : gset string) (snapshot : list (string * Prompt)) :
  Forall (fun wp => ~ (wp_weight wp == 0)%Q /\ wp_text wp ∉ filtered)
         (wire filtered snapshot) /\
  wire filtered snapshot
  `sublist_of` map (fun p => {| wp_text := text p; wp_weight := weight p |})
                   snapshot.*2.
Proof.
  unfold wire. split.
  - apply Forall_fmap, Forall_forall. intros p Hp.
    apply list_elem_of_filter in Hp as [Hact _].
    apply andb_true_iff in Hact as [Hf Hw].
    apply negb_true_iff in Hf, Hw. simpl. split.
    + intros H0. apply Qeq_bool_iff in H0. congruence.
    + apply bool_decide_eq_false in Hf. exact Hf.
  - apply (fmap_sublist (fun p : Prompt =>
             {| wp_text := text p; wp_weight := weight p |})),
      sublist_filter.
Qed.

(** What a prompt update with an active prompt comes to when the session,
    if there is one, accepts it. *)
Lemma setWeightedPrompts_active (ctx : AudioContext)
    (snapshot : list (string * Prompt)) (m : Machine) :
  wire (filteredPrompts (this m)) snapshot <> [] ->
  setWeightedPrompts ctx snapshot None m
  = (with_this (set_prompts snapshot) m,
     match session (this m) with
     | Some s => [session_setWeightedPrompts s
                    (wire (filteredPrompts (this m)) snapshot)]
     | None => []
     end).
Proof.
  intros Hsome.
  unfold setWeightedPrompts. cbn [assign fst snd].
  assert (Hact : activePrompts (this (with_this (set_prompts snapshot) m))
                 <> []).
  { intros Hnil. apply Hsome. unfold wire.
    change (filter _ snapshot.*2)
      with (activePrompts (this (with_this (set_prompts snapshot) m))).
    rewrite Hnil. reflexivity. }
  destruct (activePrompts (this (with_this (set_prompts snapshot) m)))
    as [|p l] eqn:Hl; [contradiction|].
  cbn [length Nat.eqb].
  cbn [with_this this set_prompts session].
  destruct (session (this m)) as [s|]; [|reflexivity].
  unfold andThen, emit. cbn [fst snd app]. rewrite <- Hl.
  rewrite wire_active. reflexivity.
Qed.

(** X7.  A prompt update that has an active prompt, on an engine with a
    session that accepts it, sends one prompt list and changes nothing but
    the stored snapshot.  The list holds, in the order of the snapshot, the
    text and weight of the prompts that are neither filtered nor of weight
    zero, and of no other.  Without a session the snapshot is stored and
    nothing is sent. *)
Theorem setWeightedPrompts_sends_active (ctx : AudioContext)
    (snapshot : list (string * Prompt)) (m : Machine) :
  wire (filteredPrompts (this m)) snapshot <> [] ->
  let sent := wire (filteredPrompts (this m)) snapshot in
  setWeightedPrompts ctx snapshot None m
  = (with_this (set_prompts snapshot) m,
     match session (this m) with
     | Some s => [session_setWeightedPrompts s sent]
     | None => []
     end) /\
  Forall (fun wp => ~ (wp_weight wp == 0)%Q
                    /\ wp_text wp ∉ filteredPrompts (this m)) sent /\
  sent `sublist_of` map (fun p => {| wp_text := text p; wp_weight := weight p |})
                        snapshot.*2.
Proof.
  intros Hsome sent.
  split; [|exact (wire_sound (filteredPrompts (this m)) snapshot)].
  exact (setWeightedPrompts_active ctx snapshot m Hsome).
Qed.

Lemma setWeightedPrompts_sends_active_witness :
  snd (setWeightedPrompts (audioContext 0)
         [("prompt-0"%string, calm); ("prompt-1"%string, muted)] None
         (with_this (set_session (Some 0%nat)) new))
  = [session_setWeightedPrompts 0 [ {| wp_text := "calm"; wp_weight := 1 |} ]].
Proof.
  destruct (setWeightedPrompts_sends_active (audioContext 0)
              [("prompt-0"%string, calm); ("prompt-1"%string, muted)]
              (with_this (set_session (Some 0%nat)) new)) as [Hrun _].
  - vm_compute. discriminate.
  - rewrite Hrun. reflexivity.
Defined.

(** X8.  When the session rejects a prompt update, the engine raises an
    'error' event with the message of the rejection and pauses: the state
    is 'paused', the session is told to pause, the cursor is unset. *)
Theorem setWeightedPrompts_rejected (ctx : AudioContext)
    (snapshot : list (string * Prompt)) (message : string) (s : nat)
    (m : Machine) :
  wire (filteredPrompts (this m)) snapshot <> [] ->
  session (this m) = Some s ->
  let o := setWeightedPrompts ctx snapshot (Some message) m in
  playbackState (this (fst o)) = paused /\
  (nextStartTime (this (fst o)) == 0)%Q /\
  events (snd o) = [error (Message message); playback_state_changed paused] /\
  sent_prompts (snd o) = [wire (filteredPrompts (this m)) snapshot] /\
  session_pause s ∈ snd o.
Proof.
  intros Hsome Hs o. subst o.
  unfold setWeightedPrompts. cbn [assign fst snd].
  assert (Hact : activePrompts (this (with_this (set_prompts snapshot) m))
                 <> []).
  { intros Hnil. apply Hsome. unfold wire.
    change (filter _ snapshot.*2)
      with (activePrompts (this (with_this (set_prompts snapshot) m))).
    rewrite Hnil. reflexivity. }
  destruct (activePrompts (this (with_this (set_prompts snapshot) m)))
    as [|p l] eqn:Hl; [contradiction|].
  cbn [length Nat.eqb]. cbn [with_this this set_prompts session].
  rewrite Hs. rewrite <- Hl, wire_active.
  unfold pause. cbn. rewrite Hs. cbn.
  repeat split; try reflexivity.
  apply list_elem_of_further, list_elem_of_further, list_elem_of_here.
Qed.

Lemma setWeightedPrompts_rejected_witness :
  playbackState
    (this (fst (setWeightedPrompts (audioContext 0)
                  [("prompt-0"%string, calm)] (Some "closed"%string)
                  (with_this (set_session (Some 0%nat)) new)))) = paused.
Proof.
  destruct (setWeightedPrompts_rejected (audioContext 0)
              [("prompt-0"%string, calm)] "closed" 0
              (with_this (set_session (Some 0%nat)) new)) as [Hp _].
  - vm_compute. discriminate.
  - reflexivity.
  - exact Hp.
Defined.


Lemma setWeightedPrompts_session (ctx : AudioContext)
    (snapshot : list (string * Prompt)) (reply : option string) (m : Machine) :
  session (this (fst (setWeightedPrompts ctx snapshot reply m)))
  = session (this m) /\
  sessionPromise (this (fst (setWeightedPrompts ctx snapshot reply m)))
  = sessionPromise (this m).
Proof.
  unfold setWeightedPrompts. cbn [assign fst snd].
  destruct (Nat.eqb _ 0).
  - unfold pause. cbn. destruct (session (this m)) eqn:Hs; cbn;
      rewrite ?Hs; split; reflexivity.
  - cbn [with_this this set_prompts session].
    destruct (session (this m)) eqn:Hs; [|cbn; rewrite ?Hs; auto].
    destruct reply; [|cbn; rewrite ?Hs; auto].
    unfold pause. cbn. rewrite Hs. cbn. rewrite ?Hs. auto.
Qed.

Lemma stop_leaves (ctx : AudioContext) (m : Machine) :
  playbackState (this (fst (stop ctx m))) = stopped /\
  session (this (fst (stop ctx m))) = None /\
  sessionPromise (this (fst (stop ctx m))) = None.
Proof.
  unfold stop. destruct (session (this m)); cbn; repeat split; reflexivity.
Qed.

Lemma play_connected_after_stop (ctx : AudioContext) (conn : nat)
    (reply : option string) (m : Machine) :
  playbackState (this m) = stopped -> sessionPromise (this m) = None ->
  let m' := fst (play_connected ctx conn reply m) in
  session (this m') = Some conn /\
  sessionPromise (this m') = None /\
  (playbackState (this m') = stopped \/ playbackState (this m') = paused) /\
  (m' = fst (play_connected_held conn m) -> playbackState (this m') = stopped).
Proof.
  intros Hst Hpr m'. subst m'.
  unfold play_connected, play_connected_held. cbn [assign andThen fst snd].
  set (installed := with_this (set_session (Some conn)) m).
  destruct (setWeightedPrompts_session ctx (prompts (this installed))
              reply installed) as [Hs' Hp'].
  destruct (setWeightedPrompts_state ctx (prompts (this installed))
              reply installed) as [Hps _].
  rewrite Hs', Hp'. unfold installed at 1 2.
  cbn [with_this this set_session session sessionPromise]. rewrite Hpr.
  split; [reflexivity|]. split; [reflexivity|].
  assert (Hi : playbackState (this installed) = stopped) by exact Hst.
  rewrite Hi in Hps. split; [exact Hps|].
  intros E. rewrite E. exact Hi.
Qed.

Lemma play_resumed_with_session (ctx : AudioContext) (conn : nat)
    (m : Machine) :
  session (this m) = Some conn -> sessionPromise (this m) = None ->
  let o := play_resumed ctx (fst (play_prompts_set m)) in
  session (this (fst o)) = Some conn /\
  sessionPromise (this (fst o)) = None /\
  session_play conn ∈ snd o /\
  gain_linearRampToValueAtTime (outputNode (this m)) 1
    (currentTime ctx + (1 # 10)) ∈ snd o /\
  playbackState (this (fst o)) = playbackState (this m).
Proof.
  intros Hs Hp.
  unfold play_prompts_set, play_resumed. cbn [emit fst snd]. rewrite Hs.
  cbn [emit fst snd]. rewrite Hs, Hp.
  split; [reflexivity|]. split; [reflexivity|].
  split; [apply list_elem_of_here|]. split; [|reflexivity].
  change (session_play conn :: ?l) with ([session_play conn] ++ l).
  do 2 (apply elem_of_app; right).
  apply list_elem_of_further, list_elem_of_here.
Qed.

(** X9.  A [play] that is overtaken by [stop].  When [stop] runs after
    [play] has assigned the session (while [play] waits for the prompts or
    for the audio context), [play] finds no session when it goes on: it
    tells no session to play, ramps no gain, sets the state to 'stopped'
    and raises one 'error' event.  When [stop] runs earlier, while [play]
    waits for the connection, [play] is not held up: it assigns the session
    that [stop] could not see, tells it to play and ramps the gain up, and
    the state is not 'loading' or 'playing' but what [stop] made it
    ('stopped', or 'paused' if the prompt update paused); no promise is
    held, so the next [play] opens another connection. *)
Theorem play_overtaken_by_stop (ctx ctx' : AudioContext) (m : Machine) :
  (forall m0,
     m0 = fst (stop ctx m) \/ m0 = fst (play_prompts_set (fst (stop ctx m))) ->
     let o := play_resumed ctx' m0 in
     snd o = [dispatchEvent (playback_state_changed stopped);
              dispatchEvent (error NullSession)] /\
     playbackState (this (fst o)) = stopped /\
     session (this (fst o)) = None /\
     sessionPromise (this (fst o)) = None) /\
  (forall conn m3,
     let m2 := fst (stop ctx (fst (play_called m))) in
     m3 = fst (play_connected_held conn m2) \/
     (exists ctx2 reply, m3 = fst (play_connected ctx2 conn reply m2)) ->
     let o := play_resumed ctx' (fst (play_prompts_set m3)) in
     session (this (fst o)) = Some conn /\
     sessionPromise (this (fst o)) = None /\
     session_play conn ∈ snd o /\
     gain_linearRampToValueAtTime (outputNode (this m3)) 1
       (currentTime ctx' + (1 # 10)) ∈ snd o /\
     (playbackState (this (fst o)) = stopped \/
      playbackState (this (fst o)) = paused) /\
     (m3 = fst (play_connected_held conn m2) ->
      playbackState (this (fst o)) = stopped)).
Proof.
  split.
  - intros m0 [-> | ->]; unfold stop, play_prompts_set, play_resumed;
      destruct (session (this m)); cbn; repeat split; reflexivity.
  - intros conn m3 m2 Hm3.
    destruct (stop_leaves ctx (fst (play_called m))) as (Hst & _ & Hpr).
    fold m2 in Hst, Hpr. clearbody m2.
    assert (H3 : session (this m3) = Some conn /\
                 sessionPromise (this m3) = None /\
                 (playbackState (this m3) = stopped \/
                  playbackState (this m3) = paused) /\
                 (m3 = fst (play_connected_held conn m2) ->
                  playbackState (this m3) = stopped)).
    { destruct Hm3 as [-> | (ctx2 & reply & ->)].
      - split; [reflexivity|]. split; [exact Hpr|].
        split; [left; exact Hst|]. intros _. exact Hst.
      - apply play_connected_after_stop; assumption. }
    destruct H3 as (Hs & Hp & Hstate & Hheld).
    destruct (play_resumed_with_session ctx' conn m3 Hs Hp)
      as (Hs' & Hp' & Hplay & Hramp & Hps).
    cbv zeta. rewrite Hps. repeat split; assumption.
Qed.

Lemma play_overtaken_by_stop_witness :
  session_play 0%nat
  ∈ snd (play_resumed (audioContext 1)
           (fst (play_prompts_set
                   (fst (play_connected_held 0%nat
                           (fst (stop (audioContext 0)
                                   (fst (play_called new))))))))).
Proof.
  destruct (play_overtaken_by_stop (audioContext 0) (audioContext 1) new)
    as [_ H].
  destruct (H 0%nat (fst (play_connected_held 0%nat
                            (fst (stop (audioContext 0)
                                    (fst (play_called new)))))))
    as (_ & _ & Hplay & _).
  - left. reflexivity.
  - exact Hplay.
Defined.

(** X10.  [playPause] always moves to another playback state: 'playing'
    becomes 'paused', 'paused' and 'stopped' become 'loading', and
    'loading' becomes 'stopped'.  From 'loading' the connection in progress
    is given up (session and promise are discarded); from 'playing' session
    and promise are kept; from 'paused' and 'stopped' a promise is held
    afterwards. *)
Theorem playPause_toggles (ctx : AudioContext) (m : Machine) :
  let m' := fst (playPause ctx m) in
  playbackState (this m')
  = match playbackState (this m) with
    | playing => paused
    | paused | stopped => loading
    | loading => stopped
    end /\
  session (this m')
  = match playbackState (this m) with
    | loading => None
    | _ => session (this m)
    end /\
  match playbackState (this m) with
  | loading => sessionPromise (this m') = None
  | playing => sessionPromise (this m') = sessionPromise (this m)
  | paused | stopped => exists p, sessionPromise (this m') = Some p
  end.
Proof.
  unfold playPause, pause, stop, play_called, getSession.
  destruct (playbackState (this m)) eqn:Hps; cbn;
    destruct (session (this m)) eqn:Hs; cbn;
    destruct (sessionPromise (this m)) eqn:Hp; cbn;
    rewrite ?Hs, ?Hp; repeat split; try reflexivity; eauto.
Qed.

(** X11.  The engine follows the transport.  An error or a close of the
    connection marks the engine disconnected, stops it (state 'stopped',
    session and promise discarded, cursor unset) and raises one 'error'
    event, which carries the message of the error, or the code and reason
    of the close; a setup-complete message marks it connected. *)
Theorem transport_events (ctx : AudioContext) (m : Machine) :
  (forall message,
     let o := onerror ctx message m in
     connectionError (this (fst o)) = true /\
     playbackState (this (fst o)) = stopped /\
     session (this (fst o)) = None /\
     sessionPromise (this (fst o)) = None /\
     (nextStartTime (this (fst o)) == 0)%Q /\
     events (snd o)
     = [playback_state_changed stopped; error (SocketError message)]) /\
  (forall event,
     let o := onclose ctx event m in
     connectionError (this (fst o)) = true /\
     playbackState (this (fst o)) = stopped /\
     session (this (fst o)) = None /\
     sessionPromise (this (fst o)) = None /\
     (nextStartTime (this (fst o)) == 0)%Q /\
     events (snd o)
     = [playback_state_changed stopped; error (SocketClosed event)]) /\
  (forall e m' effects,
     setupComplete e = true ->
     onmessage ctx e m = Some (m', effects) ->
     connectionError (this m') = false).
Proof.
  split; [|split].
  - intros message. unfold onerror, stop. cbn.
    destruct (session (this m)); cbn; repeat split; reflexivity.
  - intros event. unfold onclose, stop. cbn.
    destruct (session (this m)); cbn; repeat split; reflexivity.
  - intros e m' effects Hsetup H. unfold onmessage in H. rewrite Hsetup in H.
    destruct (audioChunks e) as [chunks|].
    + match type of H with
      | context [processAudioChunks ctx chunks ?x] =>
          destruct (processAudioChunks ctx chunks x) as [[m1 e1]|] eqn:Hp;
            [|discriminate]
      end.
      apply processAudioChunks_frame in Hp as (_ & _ & Hc & _).
      simpl in H. injection H as <- <-. rewrite Hc.
      destruct (filteredPrompt e); reflexivity.
    + injection H as <- <-. destruct (filteredPrompt e); reflexivity.
Qed.

Lemma transport_events_witness :
  connectionError
    (this (default new
             (fst <$> onmessage (audioContext 0)
                        {| setupComplete := true; filteredPrompt := None;
                           audioChunks := None |} new))) = false.
Proof.
  destruct (transport_events (audioContext 0) new) as (_ & _ & Hsetup).
  apply (Hsetup {| setupComplete := true; filteredPrompt := None;
                   audioChunks := None |} _ []).
  - reflexivity.
  - reflexivity.
Defined.

(** X12.  Prompts given before the first [play], and the throttle.  An
    update on an engine without a session sends nothing and stores the
    snapshot.  When [play] has connected and calls the throttle's wrapper
    with the stored prompts, what is sent depends on the wrapper: when it
    runs the function at that call, the active prompts of the stored
    snapshot are sent to the new session; when it holds the call back,
    nothing is sent in that step and the snapshot stays stored, and a run of
    the function with it that the wrapper starts later sends them.  The
    state stays 'loading' in each case. *)
Theorem stored_prompts_sent_on_connection (ctx ctx' ctx'' : AudioContext)
    (snapshot : list (string * Prompt)) (reply : option string)
    (conn : nat) (m : Machine) :
  session (this m) = None ->
  wire (filteredPrompts (this m)) snapshot <> [] ->
  let o1 := setWeightedPrompts ctx snapshot reply m in
  let o2 := play_called (fst o1) in
  let ran := play_connected ctx' conn None (fst o2) in
  let held := play_connected_held conn (fst o2) in
  let later :=
    setWeightedPrompts ctx'' (prompts (this (fst held))) None (fst held) in
  (snd o1 = [] /\ prompts (this (fst o1)) = snapshot) /\
  (snd ran = [session_setWeightedPrompts conn
                (wire (filteredPrompts (this m)) snapshot)] /\
   session (this (fst ran)) = Some conn /\
   playbackState (this (fst ran)) = loading) /\
  (snd held = [] /\
   prompts (this (fst held)) = snapshot /\
   session (this (fst held)) = Some conn /\
   playbackState (this (fst held)) = loading) /\
  (snd later = [session_setWeightedPrompts conn
                  (wire (filteredPrompts (this m)) snapshot)] /\
   playbackState (this (fst later)) = loading).
Proof.
  intros Hs Hsome o1 o2 ran held later.
  assert (H1 : o1 = (with_this (set_prompts snapshot) m, [])).
  { unfold o1, setWeightedPrompts. cbn [assign fst snd].
    assert (Hact : activePrompts (this (with_this (set_prompts snapshot) m))
                   <> []).
    { intros Hnil. apply Hsome. unfold wire.
      change (filter _ snapshot.*2)
        with (activePrompts (this (with_this (set_prompts snapshot) m))).
      rewrite Hnil. reflexivity. }
    destruct (activePrompts (this (with_this (set_prompts snapshot) m)))
      as [|p l]; [contradiction|].
    cbn [length Nat.eqb]. cbn [with_this this set_prompts session].
    rewrite Hs. reflexivity. }
  subst later held ran o2. rewrite H1. cbn [fst snd].
  split; [split; reflexivity|].
  set (m2 := fst (play_called (with_this (set_prompts snapshot) m))).
  assert (Hm2 : prompts (this m2) = snapshot /\
                filteredPrompts (this m2) = filteredPrompts (this m) /\
                playbackState (this m2) = loading).
  { unfold m2, play_called, getSession. cbn.
    destruct (sessionPromise (this m)); cbn; repeat split; reflexivity. }
  destruct Hm2 as (Hpr & Hf & Hst). clearbody m2.
  assert (Hrun : forall c,
            setWeightedPrompts c snapshot None
              (with_this (set_session (Some conn)) m2)
            = (with_this (set_prompts snapshot)
                 (with_this (set_session (Some conn)) m2),
               [session_setWeightedPrompts conn
                  (wire (filteredPrompts (this m)) snapshot)])).
  { intros c. rewrite setWeightedPrompts_active
      by (cbn [with_this this set_session filteredPrompts]; rewrite Hf;
          exact Hsome).
    cbn [with_this this set_session session filteredPrompts].
    rewrite Hf. reflexivity. }
  unfold play_connected, play_connected_held.
  cbn [assign andThen fst snd app].
  change (prompts (this (with_this (set_session (Some conn)) m2)))
    with (prompts (this m2)).
  rewrite Hpr, !Hrun.
  cbn [fst snd with_this this set_session set_prompts session
       playbackState prompts].
  rewrite ?Hst, ?Hpr. repeat split; reflexivity.
Qed.

Lemma stored_prompts_sent_on_connection_witness :
  snd (play_connected (audioContext 1) 0 None
         (fst (play_called
                 (fst (setWeightedPrompts (audioContext 0)
                         [("prompt-0"%string, calm)] None new)))))
  = [session_setWeightedPrompts 0 [ {| wp_text := "calm"; wp_weight := 1 |} ]].
Proof.
  destruct (stored_prompts_sent_on_connection (audioContext 0)
              (audioContext 1) (audioContext 2)
              [("prompt-0"%string, calm)] None 0 new)
    as (_ & (Hsent & _) & _).
  - reflexivity.
  - vm_compute. discriminate.
  - rewrite Hsent. reflexivity.
Defined.

End LiveMore.

Module RendererMore.
Import Types Protocol Audio LongMusicGenerator RendererSpec RendererSpecMore
       RendererFacts.

Lemma cleanup_total (s : State) :
  exists s', cleanup s = (Ok tt, s') /\
             session (fst s') = None /\
             isGenerating (fst s') = isGenerating (fst s) /\
             exists more, trace (snd s') = trace (snd s) ++ more.
Proof.
  destruct (session (fst s)) as [conn|] eqn:Hs.
  - rewrite (cleanup_spec s conn Hs). eexists. split; [reflexivity|].
    cbn. repeat split. eexists. reflexivity.
  - exists s. unfold cleanup. rewrite Hs. repeat split; try assumption.
    exists []. rewrite app_nil_r. reflexivity.
Qed.

Lemma generation_ok_idle (musicPlan : MusicPlan) (s s' : State) (blob : Blob) :
  generation musicPlan s = (Ok blob, s') -> isGenerating (fst s') = false.
Proof.
  unfold generation. intros H.
  apply bind_ok in H as (conn & s1 & _ & H).
  apply bind_ok in H as ([] & s2 & _ & H).
  apply bind_ok in H as ([] & s3 & _ & H).
  apply bind_ok in H as ([] & s4 & _ & H).
  apply bind_ok in H as ([] & s5 & _ & H).
  rewrite package_spec in H. apply ok_inj in H as [_ <-]. reflexivity.
Qed.

(** X13.  [generateMusic] never leaves the renderer busy or connected.
    Called on an idle renderer, whether it returns a file or throws, the
    busy flag is cleared and the session handle dropped when it is done;
    and when it throws, an 'error' event with the error has been raised. *)
Theorem generateMusic_ends_idle (musicPlan : MusicPlan) (g : Generator)
    (w : World) :
  isGenerating g = false ->
  let r := fst (generateMusic musicPlan (g, w)) in
  let s' := snd (generateMusic musicPlan (g, w)) in
  isGenerating (fst s') = false /\
  session (fst s') = None /\
  (forall e, r = Throw e -> error_event e ∈ trace (snd s')).
Proof.
  intros Hidle.
  set (g0 := set_audioData [] (set_isGenerating true g)).
  assert (Hgen : generateMusic musicPlan (g, w)
                 = try_finally (try_catch (generation musicPlan) failed)
                               cleanup (g0, w)).
  { unfold generateMusic. cbn [fst]. rewrite Hidle. reflexivity. }
  rewrite Hgen. clear Hgen. unfold try_finally, try_catch.
  destruct (generation musicPlan (g0, w)) as [[blob|e] s1] eqn:Hbody.
  - destruct (cleanup_total s1) as (s2 & -> & Hs & Hb & _). cbn [fst snd].
    rewrite Hs, Hb, (generation_ok_idle _ _ _ _ Hbody).
    repeat split. intros e He. discriminate.
  - unfold failed, bind. cbn [update dispatch throw fst snd].
    match goal with
    | |- context [cleanup ?s] =>
        destruct (cleanup_total s) as (s2 & -> & Hs & Hb & more & Ht)
    end.
    cbn [fst snd] in *. rewrite Hs, Hb. repeat split.
    intros e' He'. injection He' as <-. rewrite Ht. cbn.
    rewrite <- app_assoc. apply elem_of_app. right.
    apply list_elem_of_here.
Qed.

Lemma generateMusic_ends_idle_witness :
  isGenerating
    (fst (snd (generateMusic two_stanzas
                 (new, {| script := [quiet [];
                                     {| arrivals := [];
                                        failure := Some (Some "closed"%string) |}];
                          trace := []; connections := 0 |})))) = false.
Proof.
  apply (generateMusic_ends_idle two_stanzas new). reflexivity.
Defined.


(** X14.  When the connection is refused, [generateMusic] throws the
    rejection after raising one 'error' event with it; no command is sent
    (there is no session to send it to), the busy flag is cleared, and the
    renderer holds no session. *)
Theorem generateMusic_connection_refused (musicPlan : MusicPlan)
    (g : Generator) (w : World) (message : option string) :
  isGenerating g = false -> session g = None ->
  head (script w) ≫= failure = Some message ->
  exists s',
    generateMusic musicPlan (g, w) = (Throw (rejected message), s') /\
    trace (snd s')
    = trace w ++ [connect (connections w); error_event (rejected message)] /\
    script (snd s') = drop 1 (script w) /\
    isGenerating (fst s') = false /\
    session (fst s') = None.
Proof.
  intros Hidle Hs Hfail.
  set (g0 := set_audioData [] (set_isGenerating true g)).
  assert (Hgen : generateMusic musicPlan (g, w)
                 = try_finally (try_catch (generation musicPlan) failed)
                               cleanup (g0, w)).
  { unfold generateMusic. cbn [fst]. rewrite Hidle. reflexivity. }
  rewrite Hgen. clear Hgen.
  unfold try_finally, try_catch, generation, bind at 1, await_connect.
  cbn [fst snd].
  destruct (elapse_spec g0 {| script := script w;
                              trace := trace w ++ [connect (connections w)];
                              connections := S (connections w) |})
    as [Hst Hf].
  cbn [script trace connections] in Hst, Hf. rewrite Hfail in Hf.
  destruct (elapse _) as [o s1]. cbn [fst snd] in Hst, Hf. subst o s1.
  unfold failed, bind, cleanup. cbn. rewrite Hs.
  eexists. split; [reflexivity|]. cbn.
  rewrite <- app_assoc. repeat split; try reflexivity. exact Hs.
Qed.

Lemma generateMusic_connection_refused_witness :
  fst (generateMusic two_stanzas
         (new, {| script := [ {| arrivals := [];
                                 failure := Some (Some "no key"%string) |} ];
                  trace := []; connections := 0 |}))
  = Throw (rejected (Some "no key"%string)).
Proof.
  destruct (generateMusic_connection_refused two_stanzas new
              {| script := [ {| arrivals := [];
                                failure := Some (Some "no key"%string) |} ];
                 trace := []; connections := 0 |}
              (Some "no key"%string)) as (s' & Hrun & _).
  - reflexivity.
  - reflexivity.
  - reflexivity.
  - rewrite Hrun. reflexivity.
Defined.

(** What [cancel] comes to, by cases on the session and on the answer to
    the stop. *)
Lemma cancel_resets_aux (g : Generator) (w : World) :
  (session g = None -> cancel (g, w) = (Ok tt, (idle, w))) /\
  (forall conn,
     session g = Some conn ->
     cancel (g, w)
     = match head (script w) ≫= failure with
       | None =>
           (Ok tt, (idle, {| script := drop 1 (script w);
                             trace := trace w ++ [session_stop conn];
                             connections := connections w |}))
       | Some message =>
           (Throw (rejected message),
            (set_audioData (audioData g
                            ++ received (take 1 (script w))) g,
             {| script := drop 1 (script w);
                trace := trace w ++ [session_stop conn];
                connections := connections w |}))
       end).
Proof.
  split.
  - intros Hs. unfold cancel, bind, update, idle. cbn. rewrite Hs. cbn.
    unfold set_audioData, set_isGenerating. cbn. rewrite Hs. reflexivity.
  - intros conn Hs. unfold cancel, bind, await_session. cbn [fst snd].
    rewrite Hs.
    destruct (elapse_spec g (log (session_stop conn) w)) as [Hst Hf].
    cbn [script log] in Hf.
    destruct (elapse _) as [o s1]. cbn [fst snd] in *. subst o s1.
    destruct (head (script w) ≫= failure); reflexivity.
Qed.

(** X15.  [cancel].  Without a session it sends nothing; with a session
    whose stop is accepted it sends one stop.  In both cases the renderer
    is then idle: no session, not busy, no audio kept.  When the stop is
    rejected, [cancel] throws and resets nothing: the session is kept and
    the busy flag is as it was.  A second [cancel] after one that returned
    sends nothing and changes nothing. *)
Theorem cancel_resets (g : Generator) (w : World) :
  (session g = None -> cancel (g, w) = (Ok tt, (idle, w))) /\
  (forall conn,
     session g = Some conn -> head (script w) ≫= failure = None ->
     cancel (g, w)
     = (Ok tt, (idle, {| script := drop 1 (script w);
                         trace := trace w ++ [session_stop conn];
                         connections := connections w |}))) /\
  (forall conn message,
     session g = Some conn ->
     head (script w) ≫= failure = Some message ->
     exists s',
       cancel (g, w) = (Throw (rejected message), s') /\
       session (fst s') = Some conn /\
       isGenerating (fst s') = isGenerating g /\
       trace (snd s') = trace w ++ [session_stop conn]) /\
  (forall s', cancel (g, w) = (Ok tt, s') -> cancel s' = (Ok tt, s')).
Proof.
  assert (Hnone : forall w', cancel (idle, w') = (Ok tt, (idle, w')))
    by reflexivity.
  destruct (cancel_resets_aux g w) as [H1 H2].
  split; [exact H1|]. split; [|split].
  - intros conn Hs Hok. rewrite (H2 conn Hs), Hok. reflexivity.
  - intros conn message Hs Hfail. rewrite (H2 conn Hs), Hfail.
    eexists. split; [reflexivity|]. cbn. repeat split. exact Hs.
  - intros s' H. destruct (session g) as [conn|] eqn:Hs.
    + rewrite (H2 conn eq_refl) in H.
      destruct (head (script w) ≫= failure); [discriminate|].
      injection H as <-. apply Hnone.
    + rewrite (H1 eq_refl) in H. injection H as <-. apply Hnone.
Qed.

Lemma cancel_resets_witness :
  cancel ({| audioData := [["001"%byte]]; session := None;
             isGenerating := true |}, six_bytes)
  = (Ok tt, (idle, six_bytes)).
Proof.
  destruct (cancel_resets {| audioData := [["001"%byte]]; session := None;
                             isGenerating := true |} six_bytes) as [Hnone _].
  apply Hnone. reflexivity.
Defined.

(** X17.  The renderer's [processAudioChunks] only ever appends to the
    audio it holds.  A batch whose chunks all carry base64 text appends the
    decoded bytes of each, one array per chunk, in the order of the batch;
    a chunk without text is skipped; at a chunk whose text is not base64
    the method throws, keeping what the chunks before it gave and not
    looking at the rest of the batch. *)
Theorem renderer_chunks_append (g : Generator) :
  (forall chunks,
     audioData g `prefix_of` audioData (snd (processAudioChunks chunks g))) /\
  (forall chunks payloads,
     Forall2 (fun c bytes => truthy (data c) = true /\
                             decode (default ""%string (data c)) = Some bytes)
             chunks payloads ->
     processAudioChunks chunks g
     = (Ok tt, set_audioData (audioData g ++ payloads) g)) /\
  (forall before chunk after,
     truthy (data chunk) = false ->
     processAudioChunks (before ++ chunk :: after) g
     = processAudioChunks (before ++ after) g) /\
  (forall before payloads chunk after,
     Forall2 (fun c bytes => truthy (data c) = true /\
                             decode (default ""%string (data c)) = Some bytes)
             before payloads ->
     truthy (data chunk) = true ->
     decode (default ""%string (data chunk)) = None ->
     exists e,
       processAudioChunks (before ++ chunk :: after) g
       = (Throw e, set_audioData (audioData g ++ payloads) g)).
Proof.
  split; [|split; [|split]].
  - intros chunks. rewrite processAudioChunks_pushes. cbn.
    apply prefix_app_r. reflexivity.
  - intros chunks payloads H. revert g.
    induction H as [|c bytes chunks payloads [Hc Hd] _ IH]; intros g; simpl.
    + rewrite app_nil_r. destruct g; reflexivity.
    + rewrite Hc, Hd, IH. cbn. rewrite <- app_assoc. reflexivity.
  - intros before chunk after Hc. revert g.
    induction before as [|c before IH]; intros g; simpl.
    + rewrite Hc. reflexivity.
    + destruct (truthy (data c)); [|apply IH].
      destruct (decode _); [apply IH | reflexivity].
  - intros before payloads chunk after H Hc Hd. revert g.
    induction H as [|c bytes before payloads [Hc' Hd'] _ IH]; intros g; simpl.
    + rewrite Hc, Hd, app_nil_r. eexists. destruct g; reflexivity.
    + rewrite Hc', Hd'. destruct (IH (set_audioData (audioData g ++ [bytes]) g))
        as [e ->].
      exists e. cbn. rewrite <- app_assoc. reflexivity.
Qed.

Lemma renderer_chunks_append_witness :
  exists e,
    processAudioChunks [ {| data := Some "AAEC"%string |};
                         {| data := Some "A"%string |};
                         {| data := Some "AwQ="%string |} ] new
    = (Throw e, set_audioData [["000"; "001"; "002"]%byte] new).
Proof.
  destruct (renderer_chunks_append new) as (_ & _ & _ & Hthrow).
  apply (Hthrow [ {| data := Some "AAEC"%string |} ]
                [["000"; "001"; "002"]%byte]
                {| data := Some "A"%string |}
                [ {| data := Some "AwQ="%string |} ]).
  - repeat constructor.
  - reflexivity.
  - reflexivity.
Defined.

(** X18.  Where the sample rate and the channel count are integers whose
    products are exact in a double, [createWavFile] returns a file that is
    44 bytes longer than the samples, which follow the header unchanged;
    the header reads 'RIFF',
    the length of the file less 8, 'WAVE', 'fmt ', a format chunk of 16
    bytes, format 1, the channel count, the sample rate, the byte rate, the
    block align, 16 bits, 'data' and the length of the samples.  Each
    number is stored modulo the width of its field, so a value that fits is
    read back as it is. *)
Theorem createWavFile_layout (pcmData : Uint8Array) (sampleRate numChannels : Z) :
  (Z.abs sampleRate < 2 ^ 53)%Z ->
  (Z.abs (numChannels * 2) < 2 ^ 53)%Z ->
  (Z.abs (sampleRate * numChannels * 2) < 2 ^ 53)%Z ->
  exists blob,
    createWavFile pcmData sampleRate numChannels = Some blob /\
    blob_type blob = "audio/wav"%string /\
    length (blob_bytes blob) = 44 + length pcmData /\
    drop 44 (blob_bytes blob) = pcmData /\
    take 4 (blob_bytes blob) = ["R"; "I"; "F"; "F"]%byte /\
    u32_at 4 (blob_bytes blob)
    = Some ((36 + Z.of_nat (length pcmData)) mod 2 ^ 32)%Z /\
    take 8 (drop 8 (blob_bytes blob))
    = ["W"; "A"; "V"; "E"; "f"; "m"; "t"; " "]%byte /\
    u32_at 16 (blob_bytes blob) = Some 16%Z /\
    u16_at 20 (blob_bytes blob) = Some 1%Z /\
    u16_at 22 (blob_bytes blob) = Some (numChannels mod 2 ^ 16)%Z /\
    u32_at 24 (blob_bytes blob) = Some (sampleRate mod 2 ^ 32)%Z /\
    u32_at 28 (blob_bytes blob)
    = Some ((sampleRate * numChannels * 2) mod 2 ^ 32)%Z /\
    u16_at 32 (blob_bytes blob) = Some ((numChannels * 2) mod 2 ^ 16)%Z /\
    u16_at 34 (blob_bytes blob) = Some 16%Z /\
    take 4 (drop 36 (blob_bytes blob)) = ["d"; "a"; "t"; "a"]%byte /\
    u32_at 40 (blob_bytes blob)
    = Some (Z.of_nat (length pcmData) mod 2 ^ 32)%Z.
Proof.
  intros _ Halign Hrate.
  eexists. split; [apply createWavFile_bytes; assumption|].
  cbn [blob_bytes blob_type].
  destruct (wav_header_fields sampleRate numChannels pcmData)
    as (H0 & H4 & H8 & H16 & H20 & H22 & H24 & H28 & H32 & H34 & H36 & H40
        & Hd & Hl).
  cbv zeta in *.
  change (2 ^ 32)%Z with 4294967296%Z. change (2 ^ 16)%Z with 65536%Z.
  repeat split; assumption.
Qed.

Lemma createWavFile_layout_witness :
  exists blob,
    createWavFile ["001"; "002"; "003"; "004"]%byte 44100 1 = Some blob /\
    u32_at 28 (blob_bytes blob) = Some 88200%Z /\
    drop 44 (blob_bytes blob) = ["001"; "002"; "003"; "004"]%byte.
Proof.
  destruct (createWavFile_layout ["001"; "002"; "003"; "004"]%byte 44100 1)
    as (blob & Hfile & _ & _ & Hdata & _ & _ & _ & _ & _ & _ & _ & Hrate & _);
    [reflexivity | reflexivity | reflexivity |].
  exists blob. split; [exact Hfile|]. split; [|exact Hdata].
  rewrite Hrate. reflexivity.
Defined.

(** Beyond that range the byte rate is not the product: the double nearest
    to (2^52 + 1) * 3 is 4 more than a multiple of 2^32, and twice that is
    stored. *)
Example createWavFile_rounds :
  (blob ← createWavFile [] (2 ^ 52 + 1) 3; u32_at 28 (blob_bytes blob))
  = Some 8%Z.
Proof. vm_compute. reflexivity. Qed.

Lemma progress_events_app (a b : list Action) :
  progress_events (a ++ b) = progress_events a ++ progress_events b.
Proof. apply omap_app. Qed.

Lemma pauses_app (a b : list Action) : pauses (a ++ b) = pauses a + pauses b.
Proof.
  induction a as [|x a IH]; [reflexivity|].
  destruct x; simpl; rewrite IH; reflexivity.
Qed.

Lemma plays_app (a b : list Action) : plays (a ++ b) = plays a + plays b.
Proof.
  induction a as [|x a IH]; [reflexivity|].
  destruct x; simpl; rewrite IH; reflexivity.
Qed.

Lemma waited_app (a b : list Action) :
  (waited (a ++ b) == waited a + waited b)%Q.
Proof.
  induction a as [|x a IH]; simpl; [ring|].
  destruct x; rewrite ?IH; try reflexivity. ring.
Qed.

Lemma expected_stanzas_progress (conn total : nat) (l : list MusicStanza) :
  forall i, progress_events (expected_stanzas conn total i l)
            = numbered (i + 1) total l.
Proof.
  induction l as [|stanza rest IH]; intros i; [reflexivity|].
  cbn [expected_stanzas numbered]. rewrite progress_events_app, IH.
  replace (S i + 1) with (S (i + 1)) by lia.
  unfold expected_stanza. cbn.
  destruct (config stanza); destruct (Nat.eqb i 0); cbn;
    destruct (head rest) as [next|]; cbn;
    try destruct (differs_in_bpm_or_scale stanza next); reflexivity.
Qed.

Lemma expected_stanzas_counts (conn total : nat) (l : list MusicStanza) :
  forall i,
    pauses (expected_stanzas conn total i l) = changes l /\
    plays (expected_stanzas conn total i l)
    = (match i, l with 0, _ :: _ => 1 | _, _ => 0 end) + changes l /\
    (waited (expected_stanzas conn total i l)
     == 1000 * plan_seconds l + 100 * inject_Z (Z.of_nat (changes l)))%Q.
Proof.
  induction l as [|stanza rest IH]; intros i.
  - cbn. repeat split; try reflexivity. destruct i; reflexivity.
  - destruct (IH (S i)) as (Hp & Hpl & Hw).
    cbn [expected_stanzas]. rewrite pauses_app, plays_app, waited_app.
    rewrite Hp, Hpl, Hw. clear Hp Hpl Hw IH.
    assert (Hch : changes (stanza :: rest)
                  = match head rest with
                    | Some next =>
                        if differs_in_bpm_or_scale stanza next then 1 else 0
                    | None => 0
                    end + changes rest).
    { destruct rest; reflexivity. }
    rewrite Hch. unfold expected_stanza.
    destruct (config stanza); destruct i; cbn [Nat.eqb];
      destruct (head rest) as [next|]; cbn;
      try destruct (differs_in_bpm_or_scale stanza next); cbn;
      (split; [reflexivity|]); (split; [lia|]);
      try rewrite Nat2Z.inj_succ; unfold Z.succ;
      try rewrite inject_Z_plus; ring.
Qed.

(** X19.  A generation that returns reports every stanza once: the
    progress events are, in the order of the plan, one for each stanza,
    numbered 1 to the number of stanzas, each with that number as its total
    and with its stanza. *)
Theorem generateMusic_reports_progress (musicPlan : MusicPlan) (g : Generator)
    (w : World) (blob : Blob) (s' : State) :
  isGenerating g = false ->
  generateMusic musicPlan (g, w) = (Ok blob, s') ->
  exists acts,
    trace (snd s') = trace w ++ acts /\
    progress_events acts
    = numbered 1 (length (stanzas musicPlan)) (stanzas musicPlan).
Proof.
  intros Hidle Hrun.
  destruct (generateMusic_spec musicPlan g w Hidle) as [Hok _].
  destruct (Hok blob s' Hrun) as (_ & Htrace & _).
  eexists. split; [exact Htrace|].
  unfold expected_generation.
  rewrite !progress_events_app, expected_stanzas_progress. cbn.
  rewrite !app_nil_r. reflexivity.
Qed.

Lemma generateMusic_reports_progress_witness :
  exists acts,
    trace (snd (snd (generateMusic two_stanzas (new, six_bytes)))) = [] ++ acts /\
    progress_events acts = [(1, 2, calm_stanza); (2, 2, tense_stanza)].
Proof.
  apply (generateMusic_reports_progress two_stanzas new six_bytes
           six_bytes_file).
  - reflexivity.
  - vm_compute. reflexivity.
Defined.

(** X20.  A generation that returns resets the context once for each
    stanza boundary at which bpm or scale changes, and at no other time:
    the session is told to pause as often as there are such boundaries, and
    to play once more than that when the plan has a stanza (never when it
    has none).  In particular a plan whose stanzas share bpm and scale is
    played without a pause. *)
Theorem generateMusic_resets_at_changes (musicPlan : MusicPlan) (g : Generator)
    (w : World) (blob : Blob) (s' : State) :
  isGenerating g = false ->
  generateMusic musicPlan (g, w) = (Ok blob, s') ->
  exists acts,
    trace (snd s') = trace w ++ acts /\
    pauses acts = changes (stanzas musicPlan) /\
    plays acts
    = match stanzas musicPlan with
      | [] => 0
      | _ :: _ => 1 + changes (stanzas musicPlan)
      end.
Proof.
  intros Hidle Hrun.
  destruct (generateMusic_spec musicPlan g w Hidle) as [Hok _].
  destruct (Hok blob s' Hrun) as (_ & Htrace & _).
  eexists. split; [exact Htrace|].
  unfold expected_generation.
  destruct (expected_stanzas_counts (connections w)
              (length (stanzas musicPlan)) (stanzas musicPlan) 0)
    as (Hp & Hpl & _).
  rewrite !pauses_app, !plays_app, Hp, Hpl. cbn.
  destruct (stanzas musicPlan); cbn; split; lia.
Qed.

Lemma generateMusic_resets_at_changes_witness :
  exists acts,
    trace (snd (snd (generateMusic two_stanzas (new, six_bytes)))) = [] ++ acts /\
    pauses acts = 1 /\ plays acts = 2.
Proof.
  apply (generateMusic_resets_at_changes two_stanzas new six_bytes
           six_bytes_file).
  - reflexivity.
  - vm_compute. reflexivity.
Defined.

(** X21.  A generation that returns has waited, in all, the seconds of the
    plan, 100 ms for each stanza boundary at which bpm or scale changes,
    and the 500 ms of the drain. *)
Theorem generateMusic_waits (musicPlan : MusicPlan) (g : Generator)
    (w : World) (blob : Blob) (s' : State) :
  isGenerating g = false ->
  generateMusic musicPlan (g, w) = (Ok blob, s') ->
  exists acts,
    trace (snd s') = trace w ++ acts /\
    (waited acts
     == 1000 * plan_seconds (stanzas musicPlan)
        + 100 * inject_Z (Z.of_nat (changes (stanzas musicPlan)))
        + 500)%Q.
Proof.
  intros Hidle Hrun.
  destruct (generateMusic_spec musicPlan g w Hidle) as [Hok _].
  destruct (Hok blob s' Hrun) as (_ & Htrace & _).
  eexists. split; [exact Htrace|].
  unfold expected_generation.
  destruct (expected_stanzas_counts (connections w)
              (length (stanzas musicPlan)) (stanzas musicPlan) 0)
    as (_ & _ & Hw).
  rewrite !waited_app, Hw. cbn. ring.
Qed.

Lemma generateMusic_waits_witness :
  exists acts,
    trace (snd (snd (generateMusic two_stanzas (new, six_bytes)))) = [] ++ acts /\
    (waited acts == 10600)%Q.
Proof.
  destruct (generateMusic_waits two_stanzas new six_bytes six_bytes_file
              (snd (generateMusic two_stanzas (new, six_bytes))))
    as (acts & Ht & Hw).
  - reflexivity.
  - vm_compute. reflexivity.
  - exists acts. split; [exact Ht|]. rewrite Hw. reflexivity.
Defined.

End RendererMore.

Module IndexFacts.
Import Types Protocol Audio LiveMusicHelper LiveSpec LiveFacts Index.

Lemma map_set_elem (key : string) (value : Prompt) (m : list (string * Prompt))
    (x : string * Prompt) :
  x ∈ map_set key value m -> x ∈ m \/ x = (key, value).
Proof.
  induction m as [|[k v] rest IH]; simpl.
  - intros H. apply list_elem_of_singleton in H. auto.
  - destruct (decide (key = k)); intros H;
      apply elem_of_cons in H as [H|H]; auto.
    + left. apply list_elem_of_further. exact H.
    + left. rewrite H. apply list_elem_of_here.
    + destruct (IH H) as [H'|H']; auto.
      left. apply list_elem_of_further. exact H'.
Qed.

Lemma map_set_fresh (key : string) (value : Prompt) (m : list (string * Prompt)) :
  key ∉ m.*1 -> map_set key value m = m ++ [(key, value)].
Proof.
  induction m as [|[k v] rest IH]; simpl; [reflexivity|].
  intros H. apply not_elem_of_cons in H as [Hk Hrest].
  destruct (decide (key = k)); [contradiction|].
  rewrite IH by exact Hrest. reflexivity.
Qed.

Lemma rebuild_loop_elem (f : Prompt -> Q) (values : list Prompt) :
  forall (acc : list (string * Prompt)) (x : string * Prompt),
    x ∈ foldl (fun newPrompts prompt =>
                 map_set (promptId prompt) (with_weight prompt (f prompt))
                         newPrompts) acc values ->
    x ∈ acc \/
    exists prompt, prompt ∈ values /\
                   x = (promptId prompt, with_weight prompt (f prompt)).
Proof.
  induction values as [|p rest IH]; intros acc x; simpl; [auto|].
  intros H. destruct (IH _ _ H) as [Hacc|(q & Hq & ->)].
  - destruct (map_set_elem _ _ _ _ Hacc) as [Hold| ->]; [auto|].
    right. exists p. split; [apply list_elem_of_here|reflexivity].
  - right. exists q. split; [apply list_elem_of_further, Hq|reflexivity].
Qed.

Lemma rebuild_elem (f : Prompt -> Q) (current : list (string * Prompt))
    (x : string * Prompt) :
  x ∈ rebuild f current ->
  exists prompt, prompt ∈ current.*2 /\
                 x = (promptId prompt, with_weight prompt (f prompt)).
Proof.
  intros H. destruct (rebuild_loop_elem f _ _ _ H) as [Hnil|Hx]; [|exact Hx].
  apply elem_of_nil in Hnil. contradiction.
Qed.

Lemma rebuild_loop_fresh (f : Prompt -> Q) (values : list Prompt) :
  forall acc : list (string * Prompt),
    NoDup (acc.*1 ++ (promptId <$> values)) ->
    foldl (fun newPrompts prompt =>
             map_set (promptId prompt) (with_weight prompt (f prompt))
                     newPrompts) acc values
    = acc ++ ((fun prompt => (promptId prompt, with_weight prompt (f prompt)))
              <$> values).
Proof.
  induction values as [|p rest IH]; intros acc Hnd; simpl.
  - rewrite app_nil_r. reflexivity.
  - simpl in Hnd. apply NoDup_app in Hnd as (Hacc & Hdisj & Hrest).
    apply NoDup_cons in Hrest as [Hp Hrest].
    rewrite map_set_fresh.
    2:{ intros Hin. apply (Hdisj _ Hin), list_elem_of_here. }
    rewrite IH.
    + rewrite <- app_assoc. reflexivity.
    + rewrite fmap_app. simpl. rewrite <- app_assoc. simpl.
      apply NoDup_app. split; [exact Hacc|]. split.
      * intros k Hk Hin. apply elem_of_cons in Hin as [->|Hin].
        -- apply (Hdisj _ Hk), list_elem_of_here.
        -- apply (Hdisj _ Hk), list_elem_of_further, Hin.
      * apply NoDup_cons. split; assumption.
Qed.

Ltac q_arith :=
  unfold Qeq, Qle, Qlt, Qmult, Qdiv, Qinv, Qnum, Qden in *; cbn in *; lia.

(** X22.  The map that a 'setWeights' or 'setEmotionClickCounts' message
    builds keeps the deck: when the current map holds each prompt under its
    own [promptId], the new map has the same keys in the same order, and
    each prompt differs from the current one in its weight only. *)
Theorem rebuild_keeps_deck (new_weight : Prompt -> Q)
    (current : list (string * Prompt)) :
  NoDup current.*1 ->
  Forall (fun entry => entry.1 = promptId entry.2) current ->
  rebuild new_weight current
  = (fun entry => (entry.1, with_weight entry.2 (new_weight entry.2)))
    <$> current.
Proof.
  intros Hnd Hkeys.
  assert (Hids : promptId <$> current.*2 = current.*1).
  { clear Hnd. induction Hkeys as [|[k p] rest Hk _ IH]; [reflexivity|].
    rewrite !fmap_cons. f_equal; [symmetry; exact Hk|exact IH]. }
  unfold rebuild. rewrite rebuild_loop_fresh by (simpl; rewrite Hids; exact Hnd).
  rewrite app_nil_l. clear Hnd Hids.
  induction Hkeys as [|[k p] rest Hk _ IH]; [reflexivity|].
  rewrite !fmap_cons. f_equal; [|exact IH].
  simpl in Hk. cbn [fst snd]. rewrite <- Hk. reflexivity.
Qed.

Lemma rebuild_keeps_deck_witness :
  setWeights {[ "calm"%string := 0%Q ]}
    [("prompt-0"%string, calm); ("prompt-1"%string, muted)]
  = Some [("prompt-0"%string, with_weight calm 0);
          ("prompt-1"%string, with_weight muted 0)].
Proof.
  unfold setWeights. rewrite rebuild_keeps_deck.
  - reflexivity.
  - change (NoDup ["prompt-0"%string; "prompt-1"%string]).
    apply NoDup_cons. split; [|apply NoDup_singleton].
    intros H. apply list_elem_of_singleton in H. discriminate.
  - repeat constructor.
Defined.

(** What a prompt reads from the payload, when the listener's map is
    defined: the own property, or 0 for a key that nothing defines. *)
Lemma reads_numbers_value (payload : gmap string Q) (key_of : Prompt -> string)
    (current : list (string * Prompt)) (prompt : Prompt) :
  reads_numbers payload key_of current = true ->
  prompt ∈ current.*2 ->
  default 0%Q (number_or_zero (get payload (key_of prompt)))
  = default 0%Q (payload !! key_of prompt) /\
  (payload !! key_of prompt = None ->
   existsb (String.eqb (key_of prompt)) Object_prototype = false).
Proof.
  unfold reads_numbers. intros Hall Hin.
  rewrite forallb_forall in Hall.
  specialize (Hall prompt (proj1 (list_elem_of_In _ _) Hin)).
  unfold get in *. destruct (payload !! key_of prompt); [split; [reflexivity|]|].
  - discriminate.
  - destruct (existsb _ Object_prototype); [discriminate|].
    split; reflexivity.
Qed.

Lemma handler_elem (payload : gmap string Q) (key_of : Prompt -> string)
    (f : Q -> Q) (current built : list (string * Prompt))
    (key : string) (prompt : Prompt) :
  (if reads_numbers payload key_of current then
     Some (rebuild (fun p =>
                      f (default 0%Q (number_or_zero (get payload (key_of p)))))
                   current)
   else None) = Some built ->
  (forall p w, key_of (with_weight p w) = key_of p) ->
  (key, prompt) ∈ built ->
  weight prompt = f (default 0%Q (payload !! key_of prompt)) /\
  exists q, q ∈ current.*2 /\ key_of q = key_of prompt.
Proof.
  intros Hbuilt Hkey Hin.
  destruct (reads_numbers payload key_of current) eqn:Hnum; [|discriminate].
  injection Hbuilt as <-.
  apply rebuild_elem in Hin as (q & Hq & Heq). injection Heq as -> ->.
  rewrite Hkey. cbn [weight with_weight].
  rewrite (proj1 (reads_numbers_value _ _ _ _ Hnum Hq)). eauto.
Qed.

(** X23.  Where every prompt reads a number from the payload (no emotion
    names a property that the payload does not own and [Object.prototype]
    has), the weight that a 'setEmotionClickCounts' message gives a prompt
    never exceeds 2; it is 2 exactly from three clicks on, it is zero
    exactly when the payload counts no click for the prompt's emotion (an
    emotion that nothing defines counts as zero), and it is not negative
    when the count is not. *)
Theorem setEmotionClickCounts_weight (counts : gmap string Q)
    (current built : list (string * Prompt)) (key : string) (prompt : Prompt) :
  setEmotionClickCounts counts current = Some built ->
  (key, prompt) ∈ built ->
  let clickCount := default 0%Q (counts !! emotion prompt) in
  (weight prompt <= 2 /\
   (weight prompt == 2 <-> 3 <= clickCount) /\
   (weight prompt == 0 <-> clickCount == 0) /\
   (0 <= clickCount -> 0 <= weight prompt))%Q.
Proof.
  intros Hbuilt Hin.
  destruct (handler_elem counts emotion
              (fun c => Math_min 2 (c * weightFactor)%Q)
              current built key prompt Hbuilt (fun _ _ => eq_refl) Hin)
    as [-> _].
  cbv zeta.
  set (clickCount := default 0%Q (counts !! emotion prompt)).
  unfold weightFactor, Math_min.
  destruct (Qle_bool 2 (clickCount * (2 / 3))) eqn:Hle.
  - apply Qle_bool_iff in Hle. clearbody clickCount.
    destruct clickCount as [a b].
    repeat split; intros; q_arith.
  - assert (Hlt : (clickCount * (2 / 3) < 2)%Q).
    { apply Qnot_le_lt. intros H. apply Qle_bool_iff in H. congruence. }
    clear Hle. clearbody clickCount. destruct clickCount as [a b].
    repeat split; intros; q_arith.
Qed.

Lemma setEmotionClickCounts_weight_witness :
  (weight (with_weight calm (Math_min 2 (1 * weightFactor))) <= 2)%Q.
Proof.
  apply (setEmotionClickCounts_weight {[ "calm"%string := 1%Q ]}
           [("prompt-0"%string, calm)]
           [("prompt-0"%string,
             with_weight calm (Math_min 2 (1 * weightFactor)))]
           "prompt-0").
  - vm_compute. reflexivity.
  - apply list_elem_of_here.
Defined.

(** X24.  An external message can silence the engine.  When every prompt
    reads a number from the payload, and a 'setWeights' payload gives no
    weight (or the weight 0) to the text of every current prompt, or a
    'setEmotionClickCounts' payload counts no click for the emotion of
    every current prompt, the run of [setWeightedPrompts] on the map that
    the listener builds raises the 'error' event, sends no prompt list and
    leaves the engine 'paused'.  (A prompt that reads an inherited property
    gets a weight that is not a number and not 0, and is active.) *)
Theorem zero_payload_pauses (ctx : AudioContext)
    (current built : list (string * Prompt)) (reply : option string)
    (m : Machine) :
  (exists weights,
      setWeights weights current = Some built /\
      Forall (fun prompt => default 0%Q (weights !! text prompt) == 0)%Q
             current.*2) \/
  (exists counts,
      setEmotionClickCounts counts current = Some built /\
      Forall (fun prompt => default 0%Q (counts !! emotion prompt) == 0)%Q
             current.*2) ->
  let o := setWeightedPrompts ctx built reply m in
  playbackState (this (fst o)) = paused /\
  LiveSpecMore.events (snd o)
  = [error NoActivePrompt; playback_state_changed paused] /\
  sent_prompts (snd o) = [].
Proof.
  intros Hzero.
  assert (Hnone : Forall (fun p => weight p == 0 \/
                                   text p ∈ filteredPrompts (this m))%Q
                         built.*2).
  { apply Forall_forall. intros p Hp.
    apply list_elem_of_fmap in Hp as ([k p'] & -> & Hin). simpl. left.
    destruct Hzero as [(weights & Hbuilt & Hall)|(counts & Hbuilt & Hall)];
      rewrite Forall_forall in Hall.
    - destruct (handler_elem weights text (fun c => c) current built k p'
                  Hbuilt (fun _ _ => eq_refl) Hin) as [-> (q & Hq & Hkey)].
      rewrite <- Hkey. apply (Hall q Hq).
    - destruct (handler_elem counts emotion
                  (fun c => Math_min 2 (c * weightFactor)%Q)
                  current built k p' Hbuilt (fun _ _ => eq_refl) Hin)
        as [-> (q & Hq & Hkey)].
      rewrite <- Hkey. specialize (Hall q Hq). cbv beta in Hall.
      unfold Math_min.
      destruct (Qle_bool 2 _) eqn:Hle; [|rewrite Hall; ring].
      apply Qle_bool_iff in Hle. rewrite Hall in Hle.
      exfalso. apply Hle. reflexivity. }
  intros o. subst o.
  set (stored := with_this (set_prompts built) m).
  assert (Hrun : setWeightedPrompts ctx built reply m
                 = (fst (pause ctx stored),
                    dispatchEvent (error NoActivePrompt)
                    :: snd (pause ctx stored))).
  { unfold setWeightedPrompts. cbn [assign fst snd].
    rewrite (no_active_prompts (this (with_this (set_prompts built) m)))
      by exact Hnone.
    reflexivity. }
  rewrite Hrun. cbn [fst snd]. split; [apply pause_state|]. split.
  - unfold pause. destruct (session (this stored)); reflexivity.
  - change (sent_prompts (snd (pause ctx stored)) = []).
    apply pause_sends_no_prompts.
Qed.

Lemma zero_payload_pauses_witness :
  playbackState
    (this (fst (setWeightedPrompts (audioContext 0)
                  [("prompt-0"%string, with_weight calm 0)] None new)))
  = paused.
Proof.
  apply (zero_payload_pauses (audioContext 0) [("prompt-0"%string, calm)]
           [("prompt-0"%string, with_weight calm 0)] None new).
  left. exists ∅. split; [reflexivity|]. repeat constructor.
Defined.

(** A deck with a prompt whose text is [constructor], and an empty payload:
    the prompt reads the inherited property, so no map of numbers is
    built. *)
Example setWeights_inherited :
  setWeights ∅ [("prompt-0"%string,
                 {| promptId := "prompt-0"; text := "constructor";
                    emotion := "calm"; japaneseEmotion := ""; weight := 1;
                    cc := 0%Z; color := "" |})]
  = None.
Proof. reflexivity. Qed.

End IndexFacts.

Module PlanFacts.
Import MusicPlanGenerator.

Lemma startsWith_app (sep s : JSString) : startsWith sep (sep ++ s) = true.
Proof.
  induction sep as [|c p IH]; [reflexivity|].
  simpl. rewrite N.eqb_refl, IH. reflexivity.
Qed.

Lemma startsWith_longer (sep a b : JSString) :
  startsWith sep a = true -> startsWith sep (a ++ b) = true.
Proof.
  revert a. induction sep as [|c p IH]; intros a; [reflexivity|].
  destruct a as [|d r]; simpl; [discriminate|].
  intros H. apply andb_true_iff in H as [Hc Hp].
  rewrite Hc, (IH _ Hp). reflexivity.
Qed.

Lemma split_from_skip (sep : JSString) (s : JSString) :
  forall (k : nat) (piece : JSString),
    split_from sep s k piece = split_from sep (drop k s) 0 piece.
Proof.
  induction s as [|c rest IH]; intros [|k] piece; try reflexivity.
  simpl. apply IH.
Qed.

Lemma first_match_le (sep s : JSString) : first_match sep s <= length s.
Proof.
  induction s as [|c rest IH]; simpl; [lia|].
  destruct (startsWith sep (c :: rest)); simpl; lia.
Qed.

(** [split], unfolded at the first occurrence of the separator. *)
Lemma split_from_first (sep s : JSString) :
  sep <> [] ->
  forall piece,
    split_from sep s 0 piece
    = if decide (first_match sep s < length s)
      then (piece ++ take (first_match sep s) s)
           :: split_from sep (drop (first_match sep s + length sep) s) 0 []
      else [piece ++ s].
Proof.
  intros Hsep. induction s as [|c rest IH]; intros piece.
  - simpl. rewrite app_nil_r. reflexivity.
  - cbn [split_from first_match].
    destruct (startsWith sep (c :: rest)) eqn:Hm.
    + rewrite decide_True by (simpl; lia).
      rewrite split_from_skip. simpl. rewrite app_nil_r.
      destruct sep as [|c0 sep']; [contradiction|].
      simpl. rewrite Nat.sub_0_r. reflexivity.
    + rewrite IH. cbn [length].
      destruct (decide (first_match sep rest < length rest)).
      * rewrite decide_True by lia. simpl. rewrite <- app_assoc. reflexivity.
      * rewrite decide_False by lia. rewrite <- app_assoc. reflexivity.
Qed.

Lemma split_from_nonempty (sep s : JSString) (k : nat) (piece : JSString) :
  exists p l, split_from sep s k piece = p :: l.
Proof.
  revert k piece. induction s as [|c rest IH]; intros k piece; simpl.
  - eauto.
  - destruct k; [|apply IH].
    destruct (startsWith sep (c :: rest)); [eauto|apply IH].
Qed.

Lemma split_head (sep s : JSString) :
  sep <> [] ->
  split sep s !! 0 = Some (take (first_match sep s) s).
Proof.
  intros Hsep. unfold split. destruct sep as [|c0 sep'] eqn:E; [contradiction|].
  rewrite <- E in *. rewrite split_from_first by exact Hsep.
  destruct (decide _) as [Hlt|Hge]; simpl; [reflexivity|].
  rewrite take_ge; [reflexivity|]. lia.
Qed.

Lemma split_second (sep s : JSString) :
  sep <> [] ->
  first_match sep s < length s ->
  split sep s !! 1
  = Some (take (first_match sep (drop (first_match sep s + length sep) s))
               (drop (first_match sep s + length sep) s)).
Proof.
  intros Hsep Hlt.
  pose proof (split_head sep (drop (first_match sep s + length sep) s) Hsep)
    as Hhead.
  unfold split in *. destruct sep as [|c0 sep'] eqn:E; [contradiction|].
  rewrite <- E in *. rewrite split_from_first by exact Hsep.
  rewrite decide_True by exact Hlt. exact Hhead.
Qed.

Lemma includes_first_match (sep s : JSString) :
  sep <> [] ->
  includes sep s = true <-> first_match sep s < length s.
Proof.
  intros Hsep. induction s as [|c rest IH]; simpl.
  - destruct sep; [contradiction|]. simpl. split; [discriminate|lia].
  - destruct (startsWith sep (c :: rest)); simpl.
    + split; [lia|reflexivity].
    + rewrite IH. lia.
Qed.

(** No separator in the piece before its first occurrence. *)
Lemma includes_take (sep s : JSString) :
  sep <> [] ->
  includes sep (take (first_match sep s) s) = false.
Proof.
  intros Hsep. induction s as [|c rest IH]; simpl.
  - destruct sep; [contradiction|]. reflexivity.
  - destruct (startsWith sep (c :: rest)) eqn:Hm; simpl.
    + destruct sep; [contradiction|]. reflexivity.
    + rewrite IH, orb_false_r.
      destruct (startsWith sep (c :: take (first_match sep rest) rest)) eqn:Hp;
        [|destruct sep; reflexivity].
      apply (startsWith_longer _ _ (drop (first_match sep rest) rest)) in Hp.
      simpl in Hp. rewrite take_drop in Hp.
      destruct sep; congruence.
Qed.

Lemma includes_app_l (sep a b : JSString) :
  includes sep a = true -> includes sep (a ++ b) = true.
Proof.
  induction a as [|c r IH]; simpl.
  - rewrite orb_false_r. intros H.
    destruct sep; [|discriminate]. destruct b; reflexivity.
  - intros H. apply orb_true_iff in H as [H|H].
    + apply (startsWith_longer _ _ b) in H. simpl in H. rewrite H. reflexivity.
    + rewrite (IH H). apply orb_true_r.
Qed.

Lemma includes_app_r (sep a b : JSString) :
  includes sep b = true -> includes sep (a ++ b) = true.
Proof.
  intros H. induction a as [|c r IH]; [exact H|].
  simpl. rewrite IH. apply orb_true_r.
Qed.

Lemma trimStart_suffix (s : JSString) : exists a, s = a ++ trimStart s.
Proof.
  induction s as [|c rest [a IH]]; simpl.
  - exists []. reflexivity.
  - destruct (is_white c).
    + exists (c :: a). simpl. rewrite <- IH. reflexivity.
    + exists []. reflexivity.
Qed.

Lemma trimEnd_prefix (s : JSString) : exists b, s = trimEnd s ++ b.
Proof.
  unfold trimEnd. destruct (trimStart_suffix (rev s)) as [a Ha].
  exists (rev a). rewrite <- rev_app_distr, <- Ha, rev_involutive. reflexivity.
Qed.

Lemma includes_trim (sep s : JSString) :
  includes sep s = false -> includes sep (trim s) = false.
Proof.
  intros H. destruct (includes sep (trim s)) eqn:Ht; [|reflexivity].
  unfold trim in Ht.
  destruct (trimStart_suffix s) as [a Ha].
  destruct (trimEnd_prefix (trimStart s)) as [b Hb].
  rewrite Ha, Hb in H.
  rewrite (includes_app_r _ a _ (includes_app_l _ _ b Ht)) in H.
  discriminate.
Qed.

Lemma fence_nonempty : fence <> [].
Proof. discriminate. Qed.

Lemma fence_json_nonempty : fence_json <> [].
Proof. discriminate. Qed.

(** X25.  Cutting the JSON out of the answer never throws: whenever the
    trimmed text includes a fence, [split] by that fence has an element 1,
    so that no [split] is called on [undefined]. *)
Theorem jsonText_defined (text : JSString) :
  exists parsed, jsonText text = Some parsed.
Proof.
  unfold jsonText.
  assert (Hcut : forall sep s, sep <> [] -> includes sep s = true ->
            exists parsed,
              (split sep s !! 1 ≫= fun piece =>
               split fence piece !! 0 ≫= fun first => Some (trim first))
              = Some parsed).
  { intros sep s Hsep Hin. apply includes_first_match in Hin; [|exact Hsep].
    rewrite (split_second sep s Hsep Hin). cbn [mbind option_bind].
    rewrite (split_head fence _ fence_nonempty). cbn [mbind option_bind].
    eauto. }
  destruct (includes fence_json (trim text)) eqn:Hj.
  - apply (Hcut _ _ fence_json_nonempty Hj).
  - destruct (includes fence (trim text)) eqn:Hf; [|eauto].
    apply (Hcut _ _ fence_nonempty Hf).
Qed.

(** X26.  The text that is handed to [JSON.parse] never holds three
    backticks in a row, whatever the answer was. *)
Theorem jsonText_has_no_fence (text parsed : JSString) :
  jsonText text = Some parsed ->
  includes fence parsed = false.
Proof.
  unfold jsonText.
  assert (Hcut : forall sep s,
            (split sep s !! 1 ≫= fun piece =>
             split fence piece !! 0 ≫= fun first => Some (trim first))
            = Some parsed ->
            includes fence parsed = false).
  { intros sep s H.
    destruct (split sep s !! 1) as [piece|]; [|discriminate].
    cbn [mbind option_bind] in H.
    rewrite (split_head fence _ fence_nonempty) in H.
    cbn [mbind option_bind] in H.
    injection H as <-. apply includes_trim, includes_take, fence_nonempty. }
  destruct (includes fence_json (trim text)) eqn:Hj; [apply Hcut|].
  destruct (includes fence (trim text)) eqn:Hf; [apply Hcut|].
  intros H. injection H as <-. exact Hf.
Qed.

Lemma jsonText_has_no_fence_witness :
  includes fence (units "{}") = false.
Proof.
  apply (jsonText_has_no_fence (units "Here: ```json {} ``` and ```more```")).
  vm_compute. reflexivity.
Defined.

Lemma first_match_pass (c0 : N) (sep' a s : JSString) :
  Forall (fun c => c <> c0) a ->
  first_match (c0 :: sep') (a ++ s) = length a + first_match (c0 :: sep') s.
Proof.
  induction 1 as [|d r Hd _ IH]; [reflexivity|].
  cbn [app first_match startsWith length].
  apply N.eqb_neq in Hd. rewrite N.eqb_sym, Hd. cbn [andb].
  rewrite IH. reflexivity.
Qed.

Lemma includes_pass (c0 : N) (sep' a s : JSString) :
  Forall (fun c => c <> c0) a ->
  includes (c0 :: sep') (a ++ s) = includes (c0 :: sep') s.
Proof.
  induction 1 as [|d r Hd _ IH]; [reflexivity|].
  cbn [app includes startsWith].
  apply N.eqb_neq in Hd. rewrite N.eqb_sym, Hd. cbn [andb orb].
  exact IH.
Qed.

Lemma first_match_here (sep s : JSString) :
  sep <> [] -> first_match sep (sep ++ s) = 0.
Proof.
  intros Hsep. destruct sep as [|c0 sep'] eqn:E; [contradiction|].
  rewrite <- E. pose proof (startsWith_app sep s) as H.
  rewrite E in *. cbn [app first_match] in *. rewrite H. reflexivity.
Qed.

Lemma trimStart_app (a r : JSString) (c : N) :
  is_white c = false -> trimStart (a ++ c :: r) = trimStart a ++ c :: r.
Proof.
  intros Hc. induction a as [|d a IH]; simpl.
  - rewrite Hc. reflexivity.
  - destruct (is_white d); [exact IH|reflexivity].
Qed.

Lemma trimEnd_app (r b : JSString) (c : N) :
  is_white c = false -> trimEnd (r ++ c :: b) = r ++ c :: trimEnd b.
Proof.
  intros Hc. unfold trimEnd.
  rewrite rev_app_distr. simpl. rewrite <- app_assoc. simpl.
  rewrite trimStart_app by exact Hc.
  rewrite rev_app_distr. simpl. rewrite rev_involutive, <- app_assoc.
  reflexivity.
Qed.

(** [trim] leaves what stands between two backticks as it is. *)
Lemma trim_fenced (a m b : JSString) :
  trim (a ++ 96%N :: m ++ 96%N :: b)
  = trimStart a ++ 96%N :: m ++ 96%N :: trimEnd b.
Proof.
  unfold trim. rewrite trimStart_app by reflexivity.
  rewrite app_comm_cons, app_assoc.
  rewrite trimEnd_app by reflexivity.
  rewrite <- app_assoc. reflexivity.
Qed.

Lemma trimStart_keeps (a : JSString) (P : N -> Prop) :
  Forall P a -> Forall P (trimStart a).
Proof.
  intros H. destruct (trimStart_suffix a) as [w Hw].
  rewrite Hw in H. apply Forall_app in H as [_ H]. exact H.
Qed.

Lemma trimEnd_keeps (b : JSString) (P : N -> Prop) :
  Forall P b -> Forall P (trimEnd b).
Proof.
  intros H. destruct (trimEnd_prefix b) as [w Hw].
  rewrite Hw in H. apply Forall_app in H as [H _]. exact H.
Qed.

Lemma trimEnd_head (b : JSString) :
  head b <> Some 96%N -> head (trimEnd b) <> Some 96%N.
Proof.
  intros H. destruct (trimEnd_prefix b) as [w Hw].
  destruct (trimEnd b) as [|d r]; [discriminate|].
  rewrite Hw in H. exact H.
Qed.

(** The piece before the closing fence is the body. *)
Lemma first_piece (body rest : JSString) :
  Forall (fun c => c <> 96%N) body ->
  rest = [] \/ (exists r, rest = fence ++ r) ->
  take (first_match fence (body ++ rest)) (body ++ rest) = body.
Proof.
  intros Hbody Hrest. unfold fence at 1.
  rewrite first_match_pass by exact Hbody.
  assert (H0 : first_match fence rest = 0).
  { destruct Hrest as [->|[r ->]]; [reflexivity|].
    apply first_match_here, fence_nonempty. }
  fold fence. rewrite H0, Nat.add_0_r. apply take_app_length.
Qed.

(** Where a fence stands that no backtick follows, [fence_json] occurs at
    once or not before the fence has passed. *)
Lemma json_tail (post : JSString) :
  head post <> Some 96%N ->
  take (first_match fence_json (fence ++ post)) (fence ++ post) = [] \/
  exists r, take (first_match fence_json (fence ++ post)) (fence ++ post)
            = fence ++ r.
Proof.
  intros Hpost. destruct post as [|d r].
  - right. exists []. reflexivity.
  - assert (Hd : N.eqb 96 d = false).
    { apply N.eqb_neq. intros E. apply Hpost. rewrite <- E. reflexivity. }
    unfold fence. cbn [app first_match].
    destruct (startsWith fence_json (96%N :: 96%N :: 96%N :: d :: r));
      [left; reflexivity|].
    right.
    assert (H2 : startsWith fence_json (96%N :: 96%N :: d :: r) = false).
    { unfold fence_json. cbn [startsWith]. rewrite Hd, !N.eqb_refl.
      reflexivity. }
    assert (H1 : startsWith fence_json (96%N :: d :: r) = false).
    { unfold fence_json. cbn [startsWith]. rewrite Hd, !N.eqb_refl.
      reflexivity. }
    rewrite H2, H1. eexists. reflexivity.
Qed.

(** X27.  A JSON fence is cut out.  When the answer is some text without a
    backtick, then [fence_json], a body without a backtick, a closing fence
    and a rest that does not go on with a backtick, the text handed to
    [JSON.parse] is the trimmed body, whatever surrounds the fences. *)
Theorem jsonText_json_fence (pre body post : JSString) :
  Forall (fun c => c <> 96%N) pre ->
  Forall (fun c => c <> 96%N) body ->
  head post <> Some 96%N ->
  jsonText (pre ++ fence_json ++ body ++ fence ++ post) = Some (trim body).
Proof.
  intros Hpre Hbody Hpost.
  apply (trimStart_keeps _ _) in Hpre. apply trimEnd_head in Hpost.
  unfold jsonText.
  assert (Ht : trim (pre ++ fence_json ++ body ++ fence ++ post)
               = trimStart pre ++ fence_json ++ body ++ fence
                 ++ trimEnd post).
  { pose proof (trim_fenced pre
                  ([96; 96; 106; 115; 111; 110]%N ++ body ++ [96; 96]%N) post)
      as H.
    unfold fence_json, fence. cbn [app].
    rewrite <- !app_assoc in H. cbn [app] in H. exact H. }
  rewrite Ht. clear Ht.
  set (pre' := trimStart pre) in *. set (post' := trimEnd post) in *.
  assert (Hfm : first_match fence_json
                  (pre' ++ fence_json ++ body ++ fence ++ post')
                = length pre').
  { unfold fence_json at 1. rewrite first_match_pass by exact Hpre.
    fold fence_json. rewrite first_match_here by apply fence_json_nonempty.
    lia. }
  assert (Hin : includes fence_json
                  (pre' ++ fence_json ++ body ++ fence ++ post') = true).
  { apply includes_first_match; [apply fence_json_nonempty|].
    rewrite Hfm, !length_app. simpl. lia. }
  rewrite Hin, split_second; [|apply fence_json_nonempty|].
  2:{ rewrite Hfm, !length_app. simpl. lia. }
  rewrite Hfm.
  assert (Hdrop : drop (length pre' + length fence_json)
                    (pre' ++ fence_json ++ body ++ fence ++ post')
                  = body ++ fence ++ post').
  { rewrite app_assoc, drop_app_length'; [reflexivity|].
    rewrite length_app. reflexivity. }
  rewrite Hdrop. cbn [mbind option_bind].
  rewrite (split_head fence _ fence_nonempty). cbn [mbind option_bind].
  f_equal. f_equal.
  unfold fence_json at 1 2. rewrite first_match_pass by exact Hbody.
  fold fence_json. rewrite take_app_add.
  apply first_piece; [exact Hbody|]. apply json_tail, Hpost.
Qed.

Lemma jsonText_json_fence_witness :
  jsonText (units "Here is the plan: " ++ fence_json
            ++ (10%N :: units "[1, 2]" ++ [10%N]) ++ fence ++ [])
  = Some (units "[1, 2]").
Proof.
  apply (jsonText_json_fence (units "Here is the plan: ")
           (10%N :: units "[1, 2]" ++ [10%N]) []).
  - repeat (constructor; [discriminate|]). constructor.
  - repeat (constructor; [discriminate|]). constructor.
  - discriminate.
Defined.

Lemma startsWith_shorter (a b s : JSString) :
  startsWith (a ++ b) s = true -> startsWith a s = true.
Proof.
  revert s. induction a as [|c p IH]; intros s; [reflexivity|].
  destruct s as [|d r]; simpl; [discriminate|].
  intros H. apply andb_true_iff in H as [Hc Hp].
  rewrite Hc, (IH _ Hp). reflexivity.
Qed.

Lemma includes_fence_json (s : JSString) :
  includes fence s = false -> includes fence_json s = false.
Proof.
  intros H. destruct (includes fence_json s) eqn:Hj; [|reflexivity].
  rewrite <- H. clear H. induction s as [|c r IH]; cbn [includes] in *.
  - discriminate.
  - apply orb_true_iff in Hj as [Hj|Hj].
    + apply (startsWith_shorter fence [106; 115; 111; 110]%N) in Hj.
      rewrite Hj. reflexivity.
    + rewrite <- (IH Hj). symmetry. apply orb_true_r.
Qed.

(** X28.  An answer without a fence is parsed as it is, trimmed. *)
Theorem jsonText_unfenced (text : JSString) :
  includes fence text = false ->
  jsonText text = Some (trim text).
Proof.
  intros H. apply includes_trim in H. unfold jsonText.
  rewrite (includes_fence_json _ H), H. reflexivity.
Qed.

Lemma jsonText_unfenced_witness :
  jsonText (units " [1, 2] ") = Some (units "[1, 2]").
Proof.
  apply (jsonText_unfenced (units " [1, 2] ")). reflexivity.
Defined.

(** [json] does not start a body that a backtick ends too early. *)
Lemma json_prefix (body s : JSString) :
  startsWith [106; 115; 111; 110]%N body = false ->
  startsWith [106; 115; 111; 110]%N (body ++ 96%N :: s) = false.
Proof.
  destruct body as [|b1 [|b2 [|b3 [|b4 r]]]]; cbn [app startsWith].
  - reflexivity.
  - intros _. destruct (N.eqb 106 b1); reflexivity.
  - intros _. destruct (N.eqb 106 b1), (N.eqb 115 b2); reflexivity.
  - intros _.
    destruct (N.eqb 106 b1), (N.eqb 115 b2), (N.eqb 111 b3); reflexivity.
  - intros H. exact H.
Qed.

Lemma fence_step (s : JSString) :
  includes fence_json (fence ++ s)
  = startsWith [106; 115; 111; 110]%N s
    || includes fence_json (96%N :: 96%N :: s).
Proof. reflexivity. Qed.

Lemma two_step (s : JSString) :
  head s <> Some 96%N ->
  includes fence_json (96%N :: 96%N :: s) = includes fence_json s.
Proof.
  intros Hs. destruct s as [|d r]; [reflexivity|].
  assert (Hd : N.eqb 96 d = false).
  { apply N.eqb_neq. intros E. apply Hs. rewrite <- E. reflexivity. }
  change (includes fence_json (96%N :: 96%N :: d :: r))
    with (startsWith fence_json (96%N :: 96%N :: d :: r)
          || (startsWith fence_json (96%N :: d :: r)
              || includes fence_json (d :: r))).
  unfold fence_json at 1 2. cbn [startsWith].
  rewrite Hd, !N.eqb_refl. reflexivity.
Qed.

Lemma head_no_backtick (s : JSString) :
  Forall (fun c => c <> 96%N) s -> head s <> Some 96%N.
Proof.
  intros H. destruct H as [|d r Hd _]; [discriminate|].
  intros E. injection E as ->. apply Hd. reflexivity.
Qed.

(** No [fence_json] where plain fences stand and [json] follows none. *)
Lemma no_json_fence (pre body post : JSString) :
  Forall (fun c => c <> 96%N) pre ->
  Forall (fun c => c <> 96%N) body ->
  Forall (fun c => c <> 96%N) post ->
  startsWith [106; 115; 111; 110]%N body = false ->
  startsWith [106; 115; 111; 110]%N post = false ->
  includes fence_json (pre ++ fence ++ body ++ fence ++ post) = false.
Proof.
  intros Hpre Hbody Hpost Hb Hp.
  assert (Hend : includes fence_json (fence ++ post) = false).
  { rewrite fence_step, Hp, two_step by (apply head_no_backtick, Hpost).
    rewrite <- (app_nil_r post). unfold fence_json.
    rewrite includes_pass by exact Hpost. reflexivity. }
  unfold fence_json at 1. rewrite includes_pass by exact Hpre.
  fold fence_json. destruct body as [|b1 r].
  - cbn [app].
    change (includes fence_json (fence ++ fence ++ post))
      with (includes fence_json (fence ++ post)).
    exact Hend.
  - rewrite fence_step.
    assert (Hj : startsWith [106; 115; 111; 110]%N
                   ((b1 :: r) ++ fence ++ post) = false)
      by exact (json_prefix (b1 :: r) ([96; 96]%N ++ post) Hb).
    rewrite Hj. cbn [orb].
    rewrite two_step by exact (head_no_backtick (b1 :: r) Hbody).
    unfold fence_json at 1. rewrite includes_pass by exact Hbody.
    exact Hend.
Qed.

(** X29.  A plain fence is cut out too.  When the answer is some text
    without a backtick, a fence, a body without a backtick that does not
    start with [json], a closing fence and a rest without a backtick that
    does not start with [json] either, the text handed to [JSON.parse] is
    the trimmed body. *)
Theorem jsonText_plain_fence (pre body post : JSString) :
  Forall (fun c => c <> 96%N) pre ->
  Forall (fun c => c <> 96%N) body ->
  Forall (fun c => c <> 96%N) post ->
  startsWith [106; 115; 111; 110]%N body = false ->
  startsWith [106; 115; 111; 110]%N post = false ->
  jsonText (pre ++ fence ++ body ++ fence ++ post) = Some (trim body).
Proof.
  intros Hpre Hbody Hpost Hb Hp.
  apply (trimStart_keeps _ _) in Hpre. apply (trimEnd_keeps _ _) in Hpost.
  assert (Hp' : startsWith [106; 115; 111; 110]%N (trimEnd post) = false).
  { destruct (startsWith _ (trimEnd post)) eqn:E; [|reflexivity].
    destruct (trimEnd_prefix post) as [w Hw].
    apply (startsWith_longer _ _ w) in E. rewrite <- Hw in E. congruence. }
  unfold jsonText.
  assert (Ht : trim (pre ++ fence ++ body ++ fence ++ post)
               = trimStart pre ++ fence ++ body ++ fence ++ trimEnd post).
  { pose proof (trim_fenced pre ([96; 96]%N ++ body ++ [96; 96]%N) post) as H.
    unfold fence. cbn [app].
    rewrite <- !app_assoc in H. cbn [app] in H. exact H. }
  rewrite Ht. clear Ht.
  set (pre' := trimStart pre) in *. set (post' := trimEnd post) in *.
  rewrite (no_json_fence pre' body post' Hpre Hbody Hpost Hb Hp').
  assert (Hfm : first_match fence (pre' ++ fence ++ body ++ fence ++ post')
                = length pre').
  { unfold fence at 1. rewrite first_match_pass by exact Hpre.
    fold fence. rewrite first_match_here by apply fence_nonempty. lia. }
  assert (Hlt : first_match fence (pre' ++ fence ++ body ++ fence ++ post')
                < length (pre' ++ fence ++ body ++ fence ++ post')).
  { rewrite Hfm, !length_app. simpl. lia. }
  rewrite (proj2 (includes_first_match _ _ fence_nonempty) Hlt).
  rewrite split_second; [|apply fence_nonempty|exact Hlt].
  rewrite Hfm.
  assert (Hdrop : drop (length pre' + length fence)
                    (pre' ++ fence ++ body ++ fence ++ post')
                  = body ++ fence ++ post').
  { rewrite app_assoc, drop_app_length'; [reflexivity|].
    rewrite length_app. reflexivity. }
  rewrite Hdrop, first_piece; [|exact Hbody|right; eauto].
  cbn [mbind option_bind].
  rewrite (split_head fence _ fence_nonempty). cbn [mbind option_bind].
  f_equal. f_equal.
  rewrite <- (app_nil_r body) at 1 2.
  apply first_piece; [exact Hbody|left; reflexivity].
Qed.

Lemma jsonText_plain_fence_witness :
  jsonText (units "Plan: " ++ fence ++ (10%N :: units "[1, 2]" ++ [10%N])
            ++ fence ++ units " done")
  = Some (units "[1, 2]").
Proof.
  apply (jsonText_plain_fence (units "Plan: ")
           (10%N :: units "[1, 2]" ++ [10%N]) (units " done")).
  - repeat (constructor; [discriminate|]). constructor.
  - repeat (constructor; [discriminate|]). constructor.
  - repeat (constructor; [discriminate|]). constructor.
  - reflexivity.
  - reflexivity.
Defined.

End PlanFacts.
